(** * Gap detection, backfill and the candle store of the crypto dashboard backend

    A shallow embedding of [backend/src/services/dataManager.js] (class
    [DataManager]) and of the stream handler of [backend/src/index.js]
    ([connectToBinance]), with the properties of the candle store, the gap
    detector and the backfill coordinator proved about it.

    Conventions of the embedding.
    - Timestamps are milliseconds since the epoch, as [Z].  The JavaScript
      numbers that carry them are exact integers below 2^53, so [Math.floor]
      of a quotient of two of them is [Z.div] (the divisor is a positive
      interval).
    - The [DECIMAL(20, 8)] columns of the [candlesticks] table are [Z] counts
      of 1e-8 units; [GREATEST] and [LEAST] are [Z.max] and [Z.min].
    - An [async] function is a computation in the monad [M] below: it threads
      the state of the outside world, settles with [Ok] or [Throw], or is
      still [Pending] when the step budget of a [while] loop is spent.
    - A call whose promise is awaited later, as those [fillAllGaps] hands to
      [Promise.all], is the stretch of the body up to its first [await]
      together with the computation that is left. *)

From Stdlib Require Import ZArith Ascii String List Lia Sorting.Sorted Permutation.
From stdpp Require Import gmap strings list sorting.

Open Scope string_scope.
Open Scope Z_scope.
Open Scope list_scope.

(** ** The candle value and the [candlesticks] table *)

(** The candle object built by [fetchKlines] (binanceApi.js) and by the
    stream handler; field names as in the source. *)
Record Candle := mkCandle {
  openTime : Z;
  open : Z;
  high : Z;
  low : Z;
  close : Z;
  volume : Z;
  closeTime : Z;
  quoteVolume : Z;
  trades : Z;
  takerBuyBaseVolume : Z;
  takerBuyQuoteVolume : Z
}.

(** The non-key columns of one row of [candlesticks] (init.sql); every one of
    them is [NOT NULL].  The key columns [(token, timeframe, open_time)] are
    the key of the map below ([UNIQUE(token, timeframe, open_time)]). *)
Record Row := mkRow {
  r_open : Z;
  r_high : Z;
  r_low : Z;
  r_close : Z;
  r_volume : Z;
  r_close_time : Z;
  r_quote_volume : Z;
  r_trades : Z;
  r_taker_buy_base_volume : Z;
  r_taker_buy_quote_volume : Z
}.

Abbreviation Key := (string * string * Z)%type.
Abbreviation Table := (gmap (string * string * Z) Row).

(** [VALUES ($4, ..., $13)]: the row proposed for insertion, [EXCLUDED]. *)
Definition excluded (candle : Candle) : Row :=
  {| r_open := open candle;
     r_high := high candle;
     r_low := low candle;
     r_close := close candle;
     r_volume := volume candle;
     r_close_time := closeTime candle;
     r_quote_volume := quoteVolume candle;
     r_trades := trades candle;
     r_taker_buy_base_volume := takerBuyBaseVolume candle;
     r_taker_buy_quote_volume := takerBuyQuoteVolume candle |}.

(** [DO UPDATE SET ...]: the row that replaces [stored] when the [WHERE]
    clause holds.  [open] is not in the [SET] list and keeps its stored
    value. *)
Definition do_update (stored new : Row) : Row :=
  {| r_open := r_open stored;
     r_high := Z.max (r_high stored) (r_high new);
     r_low := Z.min (r_low stored) (r_low new);
     r_close := r_close new;
     r_volume := r_volume new;
     r_close_time := r_close_time new;
     r_quote_volume := r_quote_volume new;
     r_trades := r_trades new;
     r_taker_buy_base_volume := r_taker_buy_base_volume new;
     r_taker_buy_quote_volume := r_taker_buy_quote_volume new |}.

(** The statement of [saveCandle]:
    [INSERT INTO candlesticks ... ON CONFLICT (token, timeframe, open_time)
     DO UPDATE SET ... WHERE candlesticks.close_time < EXCLUDED.close_time]. *)
Definition insert_on_conflict (token timeframe : string) (candle : Candle)
    (tbl : Table) : Table :=
  let key := (token, timeframe, openTime candle) in
  match tbl !! key with
  | None => <[key := excluded candle]> tbl
  | Some stored =>
      if r_close_time stored <? closeTime candle
      then <[key := do_update stored (excluded candle)]> tbl
      else tbl
  end.

(** [SELECT open_time FROM candlesticks WHERE token = $1 AND timeframe = $2
     ORDER BY open_time ASC], each [open_time] read with [parseInt]. *)
Definition select_open_time (token timeframe : string) (tbl : Table) : list Z :=
  merge_sort Z.le
    (omap (fun kr : Key * Row =>
             let '(t, f, open_time) := fst kr in
             if decide (t = token /\ f = timeframe) then Some open_time else None)
          (map_to_list tbl)).

(** ** Gap detection: [findDataGaps] *)

Record Gap := mkGap {
  start : Z;
  end_ : Z;
  missingIntervals : Z
}.

(** Lines 12-19: the interval of a timeframe.  Everything that is neither
    ['5m'] nor ['1h'] takes the [else] branch. *)
Definition intervalMs (timeframe : string) : Z :=
  if decide (timeframe = "5m") then 5 * 60 * 1000
  else if decide (timeframe = "1h") then 60 * 60 * 1000
  else 24 * 60 * 60 * 1000.

(** Lines 34-41: the start of the bootstrap window when there is no data. *)
Definition startTime (timeframe : string) (now : Z) : Z :=
  if decide (timeframe = "5m") then now - 1 * 24 * 60 * 60 * 1000
  else if decide (timeframe = "1h") then now - 7 * 24 * 60 * 60 * 1000
  else now - 90 * 24 * 60 * 60 * 1000.

(** Lines 52-64: the [for] loop over consecutive rows. *)
Fixpoint gapsBetween (intervalMs : Z) (rows : list Z) : list Gap :=
  match rows with
  | prevTime :: (currTime :: _) as rest =>
      let expectedTime := prevTime + intervalMs in
      (if expectedTime <? currTime
       then [ {| start := expectedTime;
                 end_ := currTime - intervalMs;
                 missingIntervals := (currTime - expectedTime) / intervalMs |} ]
       else [])
      ++ gapsBetween intervalMs rest
  | _ => []
  end.

(** Lines 66-77: the gap from the last row to now. *)
Definition gapToNow (intervalMs : Z) (lastTime now : Z) : list Gap :=
  let expectedLastTime := lastTime + intervalMs in
  if expectedLastTime + intervalMs <? now
  then [ {| start := expectedLastTime;
            end_ := now;
            missingIntervals := (now - expectedLastTime) / intervalMs |} ]
  else [].

(** The body of [findDataGaps] after the query has returned [rows]. *)
Definition gapsOfRows (timeframe : string) (rows : list Z) (now : Z) : list Gap :=
  match last rows with
  | None =>
      [ {| start := startTime timeframe now;
           end_ := now;
           missingIntervals :=
             (now - startTime timeframe now) / intervalMs timeframe |} ]
  | Some lastTime =>
      gapsBetween (intervalMs timeframe) rows
      ++ gapToNow (intervalMs timeframe) lastTime now
  end.

(** ** Asynchronous computations over the outside world *)

(** A JavaScript [Error]; only its [message] is ever read. *)
Record Error := mkError { message : string }.

(** How an awaited promise stands: fulfilled, rejected, or not settled within
    the step budget. *)
Inductive Settled (A : Type) : Type :=
| Ok (a : A)
| Throw (error : Error)
| Pending.
Arguments Ok {A} a.
Arguments Throw {A} error.
Arguments Pending {A}.

Definition M (S A : Type) : Type := S -> Settled A * S.

Definition ret {S A} (a : A) : M S A := fun s => (Ok a, s).

Definition throw {S A} (error : Error) : M S A := fun s => (Throw error, s).

Definition bind {S A B} (m : M S A) (k : A -> M S B) : M S B :=
  fun s =>
    match m s with
    | (Ok a, s') => k a s'
    | (Throw error, s') => (Throw error, s')
    | (Pending, s') => (Pending, s')
    end.

(** [try { m } catch (error) { handler }]: the state reached when [m] threw
    is kept, nothing is rolled back. *)
Definition try_catch {S A} (m : M S A) (handler : Error -> M S A) : M S A :=
  fun s =>
    match m s with
    | (Throw error, s') => handler error s'
    | settled => settled
    end.

Notation "'await' x <- m ; k" := (bind m (fun x => k))
  (at level 20, x name, m at level 100, k at level 200, only parsing).

(** The current-price relation: [price] and [change_24h] per token. *)
Abbreviation Prices := (gmap string (Z * Z)).

(** The world outside the process: the two relations behind [pool], and how
    many statements the pool and how many requests the historical API have
    served so far. *)
Record World := mkWorld {
  candlesticks : Table;
  current_prices : Prices;
  queries : nat;
  requests : nat
}.

Definition set_candlesticks (tbl : Table) (w : World) : World :=
  {| candlesticks := tbl; current_prices := current_prices w;
     queries := queries w; requests := requests w |}.

Definition set_current_prices (p : Prices) (w : World) : World :=
  {| candlesticks := candlesticks w; current_prices := p;
     queries := queries w; requests := requests w |}.

Definition next_query (w : World) : World :=
  {| candlesticks := candlesticks w; current_prices := current_prices w;
     queries := S (queries w); requests := requests w |}.

Definition next_request (w : World) : World :=
  {| candlesticks := candlesticks w; current_prices := current_prices w;
     queries := queries w; requests := S (requests w) |}.

(** One upstream symbol per configured token, in the order of
    [Object.keys(marketConfig)]. *)
Abbreviation MarketConfig := (list (string * string)).

(** [marketConfig[token]?.symbol], with [!symbol] for a missing token and for
    an empty symbol. *)
Definition symbol_of (marketConfig : MarketConfig) (token : string)
    : option string :=
  match List.find (fun entry => String.eqb (fst entry) token) marketConfig with
  | Some (_, symbol) => if String.eqb symbol "" then None else Some symbol
  | None => None
  end.

(** The result object of [fillGaps]. *)
Record FillResult := mkFillResult {
  candlesFilled : Z;
  errors : list string
}.

(** One entry of the array [fillAllGaps] resolves to: the result of
    [fillGaps], or the object built by its [.catch]. *)
Inductive PairResult :=
| Filled (result : FillResult)
| Failed (token timeframe : string) (error : string).

(** ** The class [DataManager] *)

Section DataManager.

(** [this.pool]: the statement numbered [n] is rejected with the message
    [pool_fault n] when there is one, and executed otherwise. *)
Variable pool_fault : nat -> option string.

(** [fetchKlines] of binanceApi.js with the network behind it: the answer
    to the request numbered [n] with the given symbol, interval, limit,
    start and end times; [inl] is a rejection (HTTP status, parse or socket
    error). *)
Variable fetchKlines :
  string -> string -> Z -> Z -> Z -> nat -> Error + list Candle.

(** [this.marketConfig]. *)
Variable marketConfig : MarketConfig.

(** [await this.pool.query(query, values)] for a statement given by its
    effect on the world and its result. *)
Definition pool_query {A} (statement : World -> A * World) : M World A :=
  fun w =>
    match pool_fault (queries w) with
    | Some msg => (Throw {| message := msg |}, next_query w)
    | None =>
        let '(a, w') := statement (next_query w) in (Ok a, w')
    end.

(** Lines 145-181. *)
Definition saveCandle (token timeframe : string) (candle : Candle)
    : M World unit :=
  pool_query (fun w =>
    (tt, set_candlesticks
           (insert_on_conflict token timeframe candle (candlesticks w)) w)).

(** Lines 11-80; [now] is the value of [Date.now()]. *)
Definition findDataGaps (now : Z) (token timeframe : string)
    : M World (list Gap) :=
  await rows <-
    pool_query (fun w => (select_open_time token timeframe (candlesticks w), w));
  ret (gapsOfRows timeframe rows now).

(** [await fetchKlines(symbol, timeframe, limit, currentStart, gap.end)]. *)
Definition await_fetchKlines (symbol timeframe : string)
    (limit startTime endTime : Z) : M World (list Candle) :=
  fun w =>
    match fetchKlines symbol timeframe limit startTime endTime (requests w) with
    | inl error => (Throw error, next_request w)
    | inr klines => (Ok klines, next_request w)
    end.

(** The local variables of [fillGaps] next to the world: [candlesFilled]
    and [errors] survive a [catch]. *)
Record FillState := mkFillState {
  world : World;
  filled : Z;
  errs : list string
}.

Definition in_world {A} (m : M World A) : M FillState A :=
  fun fs =>
    let '(settled, w') := m (world fs) in
    (settled, {| world := w'; filled := filled fs; errs := errs fs |}).

(** [candlesFilled += n]. *)
Definition add_filled (n : Z) : M FillState unit :=
  fun fs =>
    (Ok tt, {| world := world fs; filled := filled fs + n; errs := errs fs |}).

(** [errors.push(msg)]. *)
Definition push_error (msg : string) : M FillState unit :=
  fun fs =>
    (Ok tt, {| world := world fs; filled := filled fs; errs := errs fs ++ [msg] |}).

(** Lines 121-123: [for (const kline of klines) await this.saveCandle(...)]. *)
Fixpoint saveAll (token timeframe : string) (klines : list Candle)
    : M World unit :=
  match klines with
  | [] => ret tt
  | kline :: rest =>
      await _ <- saveCandle token timeframe kline;
      saveAll token timeframe rest
  end.

(** Lines 107-134: the [while (currentStart < gap.end)] loop.  Each
    iteration spends one unit of [budget]; the pause of 100 ms between pages
    changes no state. *)
Fixpoint fillPages (budget : nat) (symbol token timeframe : string)
    (maxCandles gap_end currentStart : Z) : M FillState unit :=
  if currentStart <? gap_end then
    match budget with
    | O => fun fs => (Pending, fs)
    | S budget' =>
        await klines <-
          in_world (await_fetchKlines symbol timeframe
                      (Z.min maxCandles 1000) currentStart gap_end);
        match last klines with
        | None => ret tt
        | Some lastKline =>
            await _ <- in_world (saveAll token timeframe klines);
            await _ <- add_filled (Z.of_nat (length klines));
            fillPages budget' symbol token timeframe maxCandles gap_end
              (closeTime lastKline + 1)
        end
    end
  else ret tt.

(** Lines 102-139: [for (const gap of gaps) try { ... } catch (error) {
    errors.push(error.message) }]. *)
Fixpoint fillEach (budget : nat) (symbol token timeframe : string)
    (maxCandles : Z) (gaps : list Gap) : M FillState unit :=
  match gaps with
  | [] => ret tt
  | gap :: rest =>
      await _ <-
        try_catch
          (fillPages budget symbol token timeframe maxCandles
             (end_ gap) (start gap))
          (fun error => push_error (message error));
      fillEach budget symbol token timeframe maxCandles rest
  end.

(** Lines 92-141: what [fillGaps] does with the gaps it has awaited. *)
Definition fillFound (budget : nat) (symbol token timeframe : string)
    (maxCandles : Z) (gaps : list Gap) : M World FillResult :=
  match gaps with
  | [] => ret {| candlesFilled := 0; errors := [] |}
  | _ :: _ =>
      fun w =>
        let '(settled, fs) :=
          fillEach budget symbol token timeframe maxCandles gaps
            {| world := w; filled := 0; errs := [] |} in
        (match settled with
         | Ok _ => Ok {| candlesFilled := filled fs; errors := errs fs |}
         | Throw error => Throw error
         | Pending => Pending
         end, world fs)
  end.

(** Lines 83-142. *)
Definition fillGaps (budget : nat) (now : Z) (token timeframe : string)
    (maxCandles : Z) : M World FillResult :=
  match symbol_of marketConfig token with
  | None =>
      ret {| candlesFilled := 0; errors := ["Unknown token: " +:+ token] |}
  | Some symbol =>
      await gaps <- findDataGaps now token timeframe;
      fillFound budget symbol token timeframe maxCandles gaps
  end.

(** The instance state: [this.isFillingGaps], next to the world the
    instance works on. *)
Record Manager := mkManager {
  isFillingGaps : bool;
  outside : World
}.

(** Lines 185-190, which run without an [await] in between: [None] is the
    call that finds a pass in progress and returns [[]]; otherwise the flag
    is raised. *)
Definition enter (m : Manager) : option Manager :=
  if isFillingGaps m then None
  else Some {| isFillingGaps := true; outside := outside m |}.

(** Lines 209-211: the [finally] block. *)
Definition leave (m : Manager) : Manager :=
  {| isFillingGaps := false; outside := outside m |}.

Definition timeframes : list string := ["5m"; "1h"; "1d"].

(** Lines 197-204: the pairs [fillGaps] is called on, in call order. *)
Definition pairs : list (string * string) :=
  flat_map (fun token => map (fun timeframe => (token, timeframe)) timeframes)
           (map fst marketConfig).

(** *** Calls that run side by side

    A call of an async function runs the body up to its first [await] and
    returns a promise; what is left of the body runs later, when the awaited
    operation has settled.  Such a call is embedded as a function from the
    world to the computation that is left and the world after the first
    stretch. *)

(** A promise whose awaited operation has settled as [settled]. *)
Definition resumed {A} (settled : Settled A) : M World A :=
  fun w => (settled, w).

(** The call [this.fillGaps(token, timeframe, maxCandles)], lines 83-90.
    Without a symbol it returns at line 87 and has awaited nothing.  With a
    symbol the body runs into [findDataGaps] and submits the read of the
    series at line 28: the statement takes its number, and its view of the
    table, there.  What is left awaits the rows and goes on from line 92. *)
Definition call_fillGaps (budget : nat) (now : Z) (token timeframe : string)
    (maxCandles : Z) : World -> M World FillResult * World :=
  fun w =>
    match symbol_of marketConfig token with
    | None => (fillGaps budget now token timeframe maxCandles, w)
    | Some symbol =>
        let '(awaited, w1) := findDataGaps now token timeframe w in
        (await gaps <- resumed awaited;
         fillFound budget symbol token timeframe maxCandles gaps, w1)
    end.

(** Lines 199-202: [this.fillGaps(token, timeframe).catch(error => ({ token,
    timeframe, error: error.message }))], with the default [maxCandles =
    1000]: the call, and its promise under the [catch]. *)
Definition fillPair (budget : nat) (now : Z) (pair : string * string)
    : World -> M World PairResult * World :=
  fun w =>
    let '(promise, w1) :=
      call_fillGaps budget now (fst pair) (snd pair) 1000 w in
    (try_catch
       (await result <- promise;
        ret (Filled result))
       (fun error => ret (Failed (fst pair) (snd pair) (message error))),
     w1).

(** Lines 196-204: the two loops make the calls one after the other, and no
    call is resumed before [Promise.all] is awaited at line 207.  So the
    reads of all the series are submitted, in the order of [pairs], before
    anything else of the pass happens. *)
Fixpoint call_each {A} (calls : list (World -> M World A * World)) (w : World)
    : list (M World A) * World :=
  match calls with
  | [] => ([], w)
  | call :: rest =>
      let '(promise, w1) := call w in
      let '(promises, w2) := call_each rest w1 in
      (promise :: promises, w2)
  end.

(** [await Promise.all(promises)] on promises that are pending.  Which of
    them is resumed next is decided by the order in which the answers of the
    pool and of the historical API arrive.  The embedding takes the order in
    which the answers for one call all arrive before those for the next call
    of the array. *)
Fixpoint promise_all {A} (promises : list (M World A)) : M World (list A) :=
  match promises with
  | [] => ret []
  | promise :: rest =>
      await a <- promise;
      await others <- promise_all rest;
      ret (a :: others)
  end.

(** Lines 184-212.  While the awaited promise is pending the [finally]
    block has not run. *)
Definition fillAllGaps (budget : nat) (now : Z) : M Manager (list PairResult) :=
  fun m =>
    match enter m with
    | None => (Ok [], m)
    | Some m1 =>
        let '(promises, w1) :=
          call_each (map (fillPair budget now) pairs) (outside m1) in
        match promise_all promises w1 with
        | (Pending, w) =>
            (Pending, {| isFillingGaps := isFillingGaps m1; outside := w |})
        | (settled, w) =>
            (settled, leave {| isFillingGaps := isFillingGaps m1; outside := w |})
        end
    end.

(** *** Calls to [fillAllGaps] interleaved on the event loop

    Between the entry of a pass and its [finally] block the event loop runs
    other tasks: further calls to [fillAllGaps] (the scheduler, the
    [/api/fill-gaps] route), and any I/O of the running pass.  [running]
    counts the passes that have raised the flag and not yet reached
    [finally]. *)
Record Process := mkProcess {
  manager : Manager;
  running : nat
}.

Inductive step : Process -> Process -> Prop :=
| step_dropped m n :
    enter m = None ->
    step {| manager := m; running := n |} {| manager := m; running := n |}
| step_entered m m' n :
    enter m = Some m' ->
    step {| manager := m; running := n |} {| manager := m'; running := S n |}
| step_io m w n :
    step {| manager := m; running := n |}
         {| manager := {| isFillingGaps := isFillingGaps m; outside := w |};
            running := n |}
| step_left m n :
    step {| manager := m; running := S n |}
         {| manager := leave m; running := n |}.

(** The constructor: [this.isFillingGaps = false]. *)
Definition constructed (w : World) : Process :=
  {| manager := {| isFillingGaps := false; outside := w |}; running := 0 |}.

Inductive reachable (w : World) : Process -> Prop :=
| reach_init : reachable w (constructed w)
| reach_step p q : reachable w p -> step p q -> reachable w q.

End DataManager.

(** ** The stream handler of index.js *)

(** [MARKET_CONFIG] of index.js. *)
Definition MARKET_CONFIG : MarketConfig :=
  [("BTC", "btcusdt"); ("ETH", "ethusdt"); ("SOL", "solusdt"); ("ADA", "adausdt")].

(** [String.prototype.toUpperCase] on ASCII text, which is what the symbols
    of [MARKET_CONFIG] are written in: the letters a-z are mapped, nothing
    else is. *)
Definition upper (a : ascii) : ascii :=
  let n := nat_of_ascii a in
  if ((97 <=? n) && (n <=? 122))%nat then ascii_of_nat (n - 32) else a.

Fixpoint toUpperCase (s : string) : string :=
  match s with
  | EmptyString => EmptyString
  | String a rest => String (upper a) (toUpperCase rest)
  end.

(** Lines 99-103: the streams named in the subscription URL. *)
Definition allStreams : list string :=
  let tokens := map fst MARKET_CONFIG in
  let symbol token := default "" (symbol_of MARKET_CONFIG token) in
  let streams5m := map (fun token => symbol token +:+ "@kline_5m") tokens in
  let streams1h := map (fun token => symbol token +:+ "@kline_1h") tokens in
  let streams1d := map (fun token => symbol token +:+ "@kline_1d") tokens in
  streams5m ++ streams1h ++ streams1d.

(** The [k] object of a kline event.  [k_i] is the interval of the stream the
    event came from; the handler does not read it. *)
Record Kline := mkKline {
  k_t : Z;
  k_T : Z;
  k_i : string;
  k_o : string;
  k_h : string;
  k_l : string;
  k_c : string;
  k_v : string;
  k_q : string;
  k_n : Z;
  k_V : string;
  k_Q : string
}.

(** [parsed.data]: the event type [e], the symbol [s], the kline [k]. *)
Record Event := mkEvent {
  ev_e : string;
  ev_s : string;
  ev_k : option Kline
}.

(** Lines 117-119: the configured token whose symbol, in upper case, is the
    symbol of the event. *)
Definition token_of_symbol (s : string) : option string :=
  fst <$> List.find (fun entry => String.eqb (toUpperCase (snd entry)) s)
                    MARKET_CONFIG.

(** [ORDER BY open_time ASC] on rows [(open_time, close)]. *)
Definition earlier (a b : Z * Z) : Prop := fst a <= fst b.

#[local] Instance earlier_dec : RelDecision earlier :=
  fun a b => decide (fst a <= fst b).

Section Stream.

Variable pool_fault : nat -> option string.

(** [parseFloat] of a decimal string, read in the 1e-8 units of the
    [DECIMAL(20, 8)] columns. *)
Variable parseFloat : string -> Z.

(** [((price - oldPrice) / oldPrice) * 100], a floating-point computation,
    as stored in [change_24h]. *)
Variable change : Z -> Z -> Z.

(** [ORDER BY open_time] leaves the order of rows with equal [open_time] to
    the database.  [tie_break n rows] is the position, among [rows] that tie
    (given as [(open_time, close)]), of the row the database puts first when
    it answers the statement after which the pool has served [n]
    statements. *)
Variable tie_break : nat -> list (Z * Z) -> nat.

(** Lines 122-134. *)
Definition candle_of_kline (k : Kline) : Candle :=
  {| openTime := k_t k;
     open := parseFloat (k_o k);
     high := parseFloat (k_h k);
     low := parseFloat (k_l k);
     close := parseFloat (k_c k);
     volume := parseFloat (k_v k);
     closeTime := k_T k;
     quoteVolume := parseFloat (k_q k);
     trades := k_n k;
     takerBuyBaseVolume := parseFloat (k_V k);
     takerBuyQuoteVolume := parseFloat (k_Q k) |}.

(** [SELECT close FROM candlesticks WHERE token = $1 AND open_time >= $2
     ORDER BY open_time ASC LIMIT 1]; [n] counts the statements the pool has
    served, this one included.  Rows of several timeframes may share the
    least [open_time]: the one returned is at the position [tie_break] names
    among them, the first of them when it names none. *)
Definition select_close (n : nat) (token : string) (dayAgo : Z) (tbl : Table)
    : option Z :=
  let rows :=
    merge_sort earlier
      (omap (fun kr : Key * Row =>
               let '(t, _, open_time) := fst kr in
               if decide (t = token /\ dayAgo <= open_time)
               then Some (open_time, r_close (snd kr)) else None)
            (map_to_list tbl)) in
  match rows with
  | [] => None
  | first :: _ =>
      let ties := filter (fun row => fst row = fst first) rows in
      Some (snd (default first (ties !! tie_break n ties)))
  end.

(** Lines 158-190: [updateCurrentPrice]. *)
Definition updateCurrentPrice (now : Z) (token : string) (price : Z)
    : M World unit :=
  try_catch
    (let dayAgo := now - 24 * 60 * 60 * 1000 in
     await historicalResult <-
       pool_query pool_fault
         (fun w =>
            (select_close (queries w) token dayAgo (candlesticks w), w));
     let change24h :=
       match historicalResult with
       | Some oldPrice => if 0 <? oldPrice then change price oldPrice else 0
       | None => 0
       end in
     pool_query pool_fault
       (fun w =>
          (tt, set_current_prices
                 (<[token := (price, change24h)]> (current_prices w)) w)))
    (fun _ => ret tt).

(** Lines 111-146: the ['message'] handler.  [parsed] is the value of
    [JSON.parse(data)], [None] when it throws; [data] of the parsed object
    is the event, when there is one. *)
Definition on_message (now : Z) (parsed : option (option Event))
    : M World unit :=
  try_catch
    (match parsed with
     | None => throw {| message := "Unexpected token" |}
     | Some None => ret tt
     | Some (Some event) =>
         if String.eqb (ev_e event) "kline" then
           match ev_k event with
           | Some k =>
               match token_of_symbol (ev_s event) with
               | Some token =>
                   let candle := candle_of_kline k in
                   await _ <- saveCandle pool_fault token "5m" candle;
                   updateCurrentPrice now token (close candle)
               | None => ret tt
               end
           | None => ret tt
           end
         else ret tt
     end)
    (fun _ => ret tt).

End Stream.


(** ** Predicates and relations the properties are stated with *)

(** The OHLC invariant of a candle: [high ≥ max(open, close)] and
    [low ≤ min(open, close)]. *)
Definition ohlc_candle (candle : Candle) : Prop :=
  Z.max (open candle) (close candle) <= high candle
  /\ low candle <= Z.min (open candle) (close candle).

Definition ohlc_row (row : Row) : Prop :=
  Z.max (r_open row) (r_close row) <= r_high row
  /\ r_low row <= Z.min (r_open row) (r_close row).

(** Candles in ascending and in strictly ascending order of [closeTime]. *)
Definition closes_no_later (a b : Candle) : Prop := closeTime a <= closeTime b.
Definition closes_before (a b : Candle) : Prop := closeTime a < closeTime b.

(** A pool that rejects no statement. *)
Definition healthy (pool_fault : nat -> option string) : Prop :=
  forall n, pool_fault n = None.

(** ** Concrete data for the examples *)

(** A pool that executes every statement, and a world with empty tables. *)
Definition no_fault : nat -> option string := fun _ => None.

Definition empty_world : World :=
  {| candlesticks := ∅; current_prices := ∅; queries := 0; requests := 0 |}.

(** A 5-minute candle opening at 0 with high 100, as first stored, and three
    later deliveries for the same key. *)
Definition first100 : Candle :=
  {| openTime := 0; open := 95; high := 100; low := 80; close := 85;
     volume := 10; closeTime := 1000; quoteVolume := 900; trades := 3;
     takerBuyBaseVolume := 4; takerBuyQuoteVolume := 400 |}.

Definition later90 : Candle :=
  {| openTime := 0; open := 95; high := 90; low := 70; close := 75;
     volume := 20; closeTime := 2000; quoteVolume := 1800; trades := 6;
     takerBuyBaseVolume := 8; takerBuyQuoteVolume := 800 |}.

Definition later150 : Candle :=
  {| openTime := 0; open := 95; high := 150; low := 85; close := 140;
     volume := 30; closeTime := 3000; quoteVolume := 2700; trades := 9;
     takerBuyBaseVolume := 12; takerBuyQuoteVolume := 1200 |}.

(** Delivered a second time with the closeTime of [later90] and another
    high. *)
Definition tied95 : Candle :=
  {| openTime := 0; open := 95; high := 95; low := 70; close := 75;
     volume := 20; closeTime := 2000; quoteVolume := 1800; trades := 6;
     takerBuyBaseVolume := 8; takerBuyQuoteVolume := 800 |}.

Definition stored100 : World :=
  set_candlesticks {[ ("BTC", "5m", 0) := excluded first100 ]} empty_world.

(** 2024-01-01T00:00:00Z, and the time [h]:[m] of that day. *)
Definition midnight : Z := 1704067200000.

Definition at_time (h m : Z) : Z := midnight + h * 3600000 + m * 60000.

(** A one-hour candle opening at [t]. *)
Definition hour_candle (t : Z) : Candle :=
  {| openTime := t; open := 42000; high := 42500; low := 41800; close := 42300;
     volume := 1000; closeTime := t + 3599999; quoteVolume := 42000000;
     trades := 2194; takerBuyBaseVolume := 500; takerBuyQuoteVolume := 21000000 |}.

(** One-hour candles of BTC at 00:00, 01:00, 02:00, 04:00 and 05:00; the one
    of 03:00 is missing. *)
Definition hourly : World :=
  set_candlesticks
    (foldr (fun t tbl => insert_on_conflict "BTC" "1h" (hour_candle t) tbl) ∅
       [at_time 0 0; at_time 1 0; at_time 2 0; at_time 4 0; at_time 5 0])
    empty_world.

(** ** Failures of a page *)

(** Where a failure of the page loop comes from: a rejected request to the
    historical API, or a rejected write to the store. *)
Inductive Source := Upstream | Persistence.

Section PageFailure.

Variable pool_fault : nat -> option string.
Variable fetchKlines :
  string -> string -> Z -> Z -> Z -> nat -> Error + list Candle.
Variables (symbol token timeframe : string) (maxCandles gap_end : Z).

(** [Aborts source currentStart fs error fs']: the page loop of the gap that
    ends at [gap_end], with its cursor at [currentStart] in state [fs], fills
    zero or more pages and then runs into [error] from [source]; [fs'] is the
    state at that moment. *)
Inductive Aborts : Source -> Z -> FillState -> Error -> FillState -> Prop :=
| fetch_rejected currentStart fs error :
    currentStart < gap_end ->
    fetchKlines symbol timeframe (Z.min maxCandles 1000) currentStart gap_end
      (requests (world fs)) = inl error ->
    Aborts Upstream currentStart fs error
      {| world := next_request (world fs); filled := filled fs; errs := errs fs |}
| save_rejected currentStart fs klines error w' :
    currentStart < gap_end ->
    fetchKlines symbol timeframe (Z.min maxCandles 1000) currentStart gap_end
      (requests (world fs)) = inr klines ->
    saveAll pool_fault token timeframe klines (next_request (world fs))
    = (Throw error, w') ->
    Aborts Persistence currentStart fs error
      {| world := w'; filled := filled fs; errs := errs fs |}
| page_filled source currentStart fs klines lastKline w' error fs' :
    currentStart < gap_end ->
    fetchKlines symbol timeframe (Z.min maxCandles 1000) currentStart gap_end
      (requests (world fs)) = inr klines ->
    last klines = Some lastKline ->
    saveAll pool_fault token timeframe klines (next_request (world fs))
    = (Ok tt, w') ->
    Aborts source (closeTime lastKline + 1)
      {| world := w'; filled := filled fs + Z.of_nat (length klines);
         errs := errs fs |}
      error fs' ->
    Aborts source currentStart fs error fs'.

End PageFailure.

(** The historical API answers a request with candles that close at or after
    the requested start, so that the cursor of the page loop advances. *)
Definition makes_progress
    (fetchKlines : string -> string -> Z -> Z -> Z -> nat -> Error + list Candle)
    : Prop :=
  forall symbol timeframe limit startTime endTime n klines lastKline,
    fetchKlines symbol timeframe limit startTime endTime n = inr klines ->
    last klines = Some lastKline ->
    startTime <= closeTime lastKline.

(** Every row stored in [w] is still stored in [w']. *)
Definition keeps_rows (w w' : World) : Prop :=
  forall key : Key,
    is_Some (candlesticks w !! key) -> is_Some (candlesticks w' !! key).

(** The step budget covers the width of every gap. *)
Definition fits (budget : nat) (gaps : list Gap) : Prop :=
  forall gap, gap ∈ gaps -> end_ gap - start gap <= Z.of_nat budget.

(** One-hour candles of BTC at 00:00 and 03:00. *)
Definition sparse : World :=
  set_candlesticks
    (foldr (fun t tbl => insert_on_conflict "BTC" "1h" (hour_candle t) tbl) ∅
       [at_time 0 0; at_time 3 0])
    empty_world.

(** An upstream that rejects the request that starts at 01:00, answers the one
    that starts at 04:00 with the candles of 04:00 and 05:00, and has nothing
    else. *)
Definition limited_upstream
    (symbol timeframe : string) (limit startTime endTime : Z) (n : nat)
    : Error + list Candle :=
  if startTime =? at_time 1 0
  then inl {| message := "HTTP 429: Too Many Requests" |}
  else if startTime =? at_time 4 0
  then inr [hour_candle (at_time 4 0); hour_candle (at_time 5 0)]
  else inr [].

(** An upstream that answers the request that starts at 01:00 with the
    candles of 01:00 and 02:00, and a pool that executes its first statement
    and rejects the second. *)
Definition full_upstream
    (symbol timeframe : string) (limit startTime endTime : Z) (n : nat)
    : Error + list Candle :=
  if startTime =? at_time 1 0
  then inr [hour_candle (at_time 1 0); hour_candle (at_time 2 0)]
  else inr [].

Definition second_faults (n : nat) : option string :=
  match n with
  | 1%nat => Some "Database error"
  | _ => None
  end.

(** The flag is up exactly while one pass is between its entry and its
    [finally] block, and there is never more than one. *)
Definition guarded (p : Process) : Prop :=
  (isFillingGaps (manager p) = true /\ running p = 1%nat)
  \/ (isFillingGaps (manager p) = false /\ running p = 0%nat).

(** A manager in the middle of a pass over [sparse]. *)
Definition busy : Manager := {| isFillingGaps := true; outside := sparse |}.

(** A kline event of the one-hour stream of ETHUSDT, and a reading of the
    decimal strings it carries. *)
Definition hour_kline : Kline :=
  {| k_t := at_time 5 0; k_T := at_time 5 0 + 3599999; k_i := "1h";
     k_o := "2500.10"; k_h := "2510.00"; k_l := "2490.50"; k_c := "2505.25";
     k_v := "12.5"; k_q := "31250.0"; k_n := 120; k_V := "6.0";
     k_Q := "15000.0" |}.

Definition hour_event : Event :=
  {| ev_e := "kline"; ev_s := "ETHUSDT"; ev_k := Some hour_kline |}.

Definition read_decimal (s : string) : Z :=
  if String.eqb s "2500.10" then 250010000000
  else if String.eqb s "2510.00" then 251000000000
  else if String.eqb s "2490.50" then 249050000000
  else if String.eqb s "2505.25" then 250525000000
  else if String.eqb s "12.5" then 1250000000
  else if String.eqb s "31250.0" then 3125000000000
  else if String.eqb s "6.0" then 600000000
  else if String.eqb s "15000.0" then 1500000000000
  else 0.

Definition no_change (price oldPrice : Z) : Z := 0.

(** ** Further relations on rows and tables *)

(** A row and a later state of it: [open] is the same, [high] is not lower,
    [low] is not higher and [close_time] is not earlier. *)
Definition row_grows (r r' : Row) : Prop :=
  r_open r' = r_open r
  /\ r_high r <= r_high r'
  /\ r_low r' <= r_low r
  /\ r_close_time r <= r_close_time r'.

(** Every row of [tbl] is in [tbl'], possibly grown. *)
Definition table_grows (tbl tbl' : Table) : Prop :=
  forall (key : Key) r,
    tbl !! key = Some r -> exists r', tbl' !! key = Some r' /\ row_grows r r'.

(** The same candle delivered with another closeTime. *)
Definition at_close (t : Z) (candle : Candle) : Candle :=
  {| openTime := openTime candle; open := open candle; high := high candle;
     low := low candle; close := close candle; volume := volume candle;
     closeTime := t; quoteVolume := quoteVolume candle;
     trades := trades candle; takerBuyBaseVolume := takerBuyBaseVolume candle;
     takerBuyQuoteVolume := takerBuyQuoteVolume candle |}.

(** Gaps in chronological order of their starts. *)
Definition starts_before (g1 g2 : Gap) : Prop := start g1 < start g2.


(** The number of intervals in the bootstrap window of a timeframe: one day of
    5-minute candles, seven days of hourly candles, ninety daily candles. *)
Definition bootstrap_intervals (timeframe : string) : Z :=
  if decide (timeframe = "5m") then 288
  else if decide (timeframe = "1h") then 168
  else 90.

(** ** Retention: [cleanOldData] *)

(** [WHERE timeframe = '5m' AND open_time < $1]. *)
Definition expired (cutoffTime : Z) (entry : Key * Row) : Prop :=
  snd (fst (fst entry)) = "5m" /\ snd (fst entry) < cutoffTime.

#[local] Instance expired_dec cutoffTime entry : Decision (expired cutoffTime entry).
Proof. unfold expired. apply _. Defined.

(** [DELETE FROM candlesticks WHERE timeframe = '5m' AND open_time < $1]: the
    table that is left, and [rowCount]. *)
Definition delete_expired (cutoffTime : Z) (tbl : Table) : Table :=
  filter (fun entry => ~ expired cutoffTime entry) tbl.

Definition rowCount_expired (cutoffTime : Z) (tbl : Table) : Z :=
  Z.of_nat (size (filter (expired cutoffTime) tbl)).

Section Maintenance.

Variable pool_fault : nat -> option string.

(** Lines 239-250 of dataManager.js; [now] is the value of [Date.now()]. *)
Definition cleanOldData (now retentionDays : Z) : M World Z :=
  let cutoffTime := now - retentionDays * 24 * 60 * 60 * 1000 in
  pool_query pool_fault (fun w =>
    (rowCount_expired cutoffTime (candlesticks w),
     set_candlesticks (delete_expired cutoffTime (candlesticks w)) w)).

End Maintenance.

(** Five-minute candles of BTC at 00:00, 00:05 and 00:10 next to the hourly
    ones of [hourly]. *)
Definition minute_candle (t : Z) : Candle :=
  {| openTime := t; open := 42000; high := 42100; low := 41900; close := 42050;
     volume := 10; closeTime := t + 299999; quoteVolume := 420000;
     trades := 21; takerBuyBaseVolume := 5; takerBuyQuoteVolume := 210000 |}.

Definition mixed : World :=
  set_candlesticks
    (foldr (fun t tbl => insert_on_conflict "BTC" "5m" (minute_candle t) tbl)
       (candlesticks hourly)
       [at_time 0 0; at_time 0 5; at_time 0 10])
    empty_world.

(** ** Periodic recomputation of the 24-hour change: index.js *)

(** The 24-hour change written next to a price, from the result of the
    historical query: the floating-point quotient when there is an old price
    above zero, and 0 otherwise. *)
Definition change24h_of (change : Z -> Z -> Z) (price : Z)
    (historicalResult : option Z) : Z :=
  match historicalResult with
  | Some oldPrice => if 0 <? oldPrice then change price oldPrice else 0
  | None => 0
  end.

(** [row] is a candle of [token] that opens at or after [dayAgo], and no
    candle of the token that does so opens before it. *)
Definition reference_candle (tbl : Table) (token : string) (dayAgo : Z)
    (row : Row) : Prop :=
  exists timeframe open_time,
    tbl !! (token, timeframe, open_time) = Some row
    /\ dayAgo <= open_time
    /\ forall timeframe' open_time' row',
         tbl !! (token, timeframe', open_time') = Some row' ->
         dayAgo <= open_time' ->
         open_time <= open_time'.

(** The database returning the first, and the last, of the rows that tie. *)
Definition first_tie (n : nat) (rows : list (Z * Z)) : nat := 0%nat.

Definition last_tie (n : nat) (rows : list (Z * Z)) : nat :=
  (length rows - 1)%nat.

Section Recalculate.

Variable pool_fault : nat -> option string.
Variable change : Z -> Z -> Z.
Variable tie_break : nat -> list (Z * Z) -> nat.

(** Lines 198-235 of index.js: the body of the loop, with its [try] and
    [catch]; [continue] leaves the iteration when the token has no row in
    [current_prices].  [UPDATE current_prices SET change_24h = $1 WHERE
    token = $2] touches the row of the token when there is one. *)
Definition recalculate_token (dayAgo : Z) (token : string) : M World unit :=
  try_catch
    (await currentResult <-
       pool_query pool_fault (fun w => (current_prices w !! token, w));
     match currentResult with
     | None => ret tt
     | Some (currentPrice, _) =>
         await historicalResult <-
           pool_query pool_fault
             (fun w =>
                (select_close tie_break (queries w) token dayAgo
                   (candlesticks w), w));
         let change24h := change24h_of change currentPrice historicalResult in
         pool_query pool_fault
           (fun w =>
              (tt, set_current_prices
                     (alter (fun entry => (fst entry, change24h)) token
                        (current_prices w)) w))
     end)
    (fun _ => ret tt).

Fixpoint recalculate_each (dayAgo : Z) (tokens : list string) : M World unit :=
  match tokens with
  | [] => ret tt
  | token :: rest =>
      await _ <- recalculate_token dayAgo token;
      recalculate_each dayAgo rest
  end.

(** Lines 193-238 of index.js. *)
Definition recalculate24hChanges (now : Z) : M World unit :=
  recalculate_each (now - 24 * 60 * 60 * 1000) (map fst MARKET_CONFIG).

End Recalculate.

(** The prices the database is initialised with (init.sql), in 1e-8 units,
    over the hourly candles of [hourly]. *)
Definition priced : World :=
  set_current_prices
    (<["BTC" := (4500000000000, 0)]>
       (<["ETH" := (250000000000, 0)]>
          (<["SOL" := (10000000000, 0)]> {[ "ADA" := (50000000, 0) ]})))
    hourly.

(** A reading of the percentage change that keeps whole percents. *)
Definition percent (price oldPrice : Z) : Z := (price - oldPrice) * 100 / oldPrice.

(** ** The route [GET /api/candlesticks/:token/:timeframe] *)

(** What the handler sends: [{ success: true, data }], or status 500 with
    [{ success: false, error }]. *)
Inductive Response :=
| Json200 (data : list Candle)
| Json500 (error : string).

(** [AND open_time >= $3] and [AND open_time <= $4], each present when the
    query string carries the parameter. *)
Definition in_range (startTime endTime : option Z) (open_time : Z) : Prop :=
  match startTime with Some s => s <= open_time | None => True end
  /\ match endTime with Some e => open_time <= e | None => True end.

#[local] Instance in_range_dec startTime endTime open_time :
  Decision (in_range startTime endTime open_time).
Proof. unfold in_range. destruct startTime, endTime; apply _. Defined.

(** [ORDER BY open_time DESC] on rows with their [open_time]. *)
Definition later_first (a b : Z * Row) : Prop := fst b <= fst a.

#[local] Instance later_first_dec : RelDecision later_first :=
  fun a b => decide (fst b <= fst a).

(** [SELECT open_time, open, ... FROM candlesticks WHERE token = $1 AND
    timeframe = $2 [AND open_time >= ..] [AND open_time <= ..]
    ORDER BY open_time DESC LIMIT n]. *)
Definition select_candles (token timeframe : string)
    (startTime endTime : option Z) (limit : nat) (tbl : Table)
    : list (Z * Row) :=
  take limit
    (merge_sort later_first
       (omap (fun kr : Key * Row =>
                let '(t, f, open_time) := fst kr in
                if decide (t = token /\ f = timeframe
                           /\ in_range startTime endTime open_time)
                then Some (open_time, snd kr) else None)
             (map_to_list tbl))).

Section Routes.

Variable pool_fault : nat -> option string.

(** [parseFloat] of the text of a [DECIMAL(20, 8)] value, as the number that
    goes into the JSON body. *)
Variable parseFloat : Z -> Z.

(** [String.prototype.toUpperCase] on a route parameter, which may hold any
    text: the case mapping of Unicode (U+017F to S, U+00DF to SS) is the
    engine's.  On ASCII text it is [toUpperCase]. *)
Variable upperCase : string -> string.

(** The object built from a row by [result.rows.map]. *)
Definition candle_of_row (entry : Z * Row) : Candle :=
  {| openTime := fst entry;
     open := parseFloat (r_open (snd entry));
     high := parseFloat (r_high (snd entry));
     low := parseFloat (r_low (snd entry));
     close := parseFloat (r_close (snd entry));
     volume := parseFloat (r_volume (snd entry));
     closeTime := r_close_time (snd entry);
     quoteVolume := parseFloat (r_quote_volume (snd entry));
     trades := r_trades (snd entry);
     takerBuyBaseVolume := parseFloat (r_taker_buy_base_volume (snd entry));
     takerBuyQuoteVolume := parseFloat (r_taker_buy_quote_volume (snd entry)) |}.

(** The handler, for query parameters that are absent or integers: [limit]
    defaults to 1000, and the database rejects a negative [LIMIT]. *)
Definition get_candlesticks (token timeframe : string)
    (limit startTime endTime : option Z) : M World Response :=
  try_catch
    (let limit := default 1000 limit in
     await result <-
       pool_query pool_fault (fun w =>
         (if limit <? 0
          then inl {| message := "LIMIT must not be negative" |}
          else inr (select_candles (upperCase token) timeframe startTime
                      endTime (Z.to_nat limit) (candlesticks w)),
          w));
     match result with
     | inl error => throw error
     | inr rows => ret (Json200 (reverse (map candle_of_row rows)))
     end)
    (fun _ => ret (Json500 "Failed to fetch candlesticks")).

End Routes.

(** ** Statistics: [getDataStats] *)

(** One element of the array [getDataStats] resolves to. *)
Record Stat := mkStat {
  s_token : string;
  s_timeframe : string;
  s_count : Z;
  s_oldest : Z;
  s_newest : Z
}.

(** The count, [MIN(open_time)] and [MAX(open_time)] of the rows of one
    group, whose openTimes are the series of the token and timeframe. *)
Definition stat_of (tbl : Table) (group : string * string) : Stat :=
  let series := select_open_time (fst group) (snd group) tbl in
  {| s_token := fst group;
     s_timeframe := snd group;
     s_count := Z.of_nat (length series);
     s_oldest := default 0 (head series);
     s_newest := default 0 (last series) |}.

Section Stats.

Variable pool_fault : nat -> option string.

(** [ORDER BY token, timeframe], in the collation of the database. *)
Variable collate : relation (string * string).
Context `{!RelDecision collate}.

(** [GROUP BY token, timeframe]: the pairs that have a row, in order. *)
Definition groups (tbl : Table) : list (string * string) :=
  merge_sort collate
    (elements (set_map (D := gset (string * string)) fst (dom tbl))).

(** Lines 215-236 of dataManager.js. *)
Definition getDataStats : M World (list Stat) :=
  pool_query pool_fault (fun w =>
    (map (stat_of (candlesticks w)) (groups (candlesticks w)), w)).

End Stats.

(** Every openTime of the series is a whole number of intervals after the
    first, as the openTimes of klines are. *)
Definition aligned (d : Z) (rows : list Z) : Prop :=
  forall first t, head rows = Some first -> t ∈ rows -> (d | t - first).

(** Byte-wise order on pairs of strings, as in the C collation. *)
Definition pair_le (a b : string * string) : Prop :=
  String.leb (fst a) (fst b) = true
  /\ (String.leb (fst b) (fst a) = true -> String.leb (snd a) (snd b) = true).

#[local] Instance pair_le_dec : RelDecision pair_le.
Proof. intros a b. unfold pair_le. apply _. Defined.

(** ** An upstream that makes no progress *)

(** One-hour candles of BTC at 00:00 and 04:00, and an upstream that answers
    every request with the candle of 01:00. *)
Definition wide : World :=
  set_candlesticks
    (foldr (fun t tbl => insert_on_conflict "BTC" "1h" (hour_candle t) tbl) ∅
       [at_time 0 0; at_time 4 0])
    empty_world.

Definition stale_upstream
    (symbol timeframe : string) (limit startTime endTime : Z) (n : nat)
    : Error + list Candle :=
  inr [hour_candle (at_time 1 0)].

(** ** Pages of the historical API *)






(** A manager between passes, over [sparse]. *)
Definition idle : Manager := {| isFillingGaps := false; outside := sparse |}.

(** * Properties *)

(** ** The candle store *)

Section StoreProperties.

Variable pool_fault : nat -> option string.

Implicit Types (token timeframe : string) (candle : Candle) (w : World).
Implicit Types (tbl : Table) (stored : Row) (key : Key).

Lemma saveCandle_executes token timeframe candle w :
  pool_fault (queries w) = None ->
  saveCandle pool_fault token timeframe candle w
  = (Ok tt, set_candlesticks
              (insert_on_conflict token timeframe candle (candlesticks w))
              (next_query w)).
Proof.
  intros Hq. unfold saveCandle, pool_query. now rewrite Hq.
Qed.

Lemma saveCandle_rejects token timeframe candle w msg :
  pool_fault (queries w) = Some msg ->
  saveCandle pool_fault token timeframe candle w
  = (Throw {| message := msg |}, next_query w).
Proof.
  intros Hq. unfold saveCandle, pool_query. now rewrite Hq.
Qed.

Lemma insert_on_conflict_fresh token timeframe candle (tbl : Table) :
  tbl !! (token, timeframe, openTime candle) = None ->
  insert_on_conflict token timeframe candle tbl
  = <[(token, timeframe, openTime candle) := excluded candle]> tbl.
Proof. intros H. unfold insert_on_conflict. now rewrite H. Qed.

Lemma insert_on_conflict_newer token timeframe candle (tbl : Table) stored :
  tbl !! (token, timeframe, openTime candle) = Some stored ->
  r_close_time stored < closeTime candle ->
  insert_on_conflict token timeframe candle tbl
  = <[(token, timeframe, openTime candle) := do_update stored (excluded candle)]> tbl.
Proof.
  intros H Hlt. unfold insert_on_conflict. rewrite H.
  destruct (Z.ltb_spec (r_close_time stored) (closeTime candle)); [done | lia].
Qed.

Lemma insert_on_conflict_stale token timeframe candle (tbl : Table) stored :
  tbl !! (token, timeframe, openTime candle) = Some stored ->
  closeTime candle <= r_close_time stored ->
  insert_on_conflict token timeframe candle tbl = tbl.
Proof.
  intros H Hle. unfold insert_on_conflict. rewrite H.
  destruct (Z.ltb_spec (r_close_time stored) (closeTime candle)); [lia | done].
Qed.

Lemma insert_on_conflict_other token timeframe candle (tbl : Table) key :
  key <> (token, timeframe, openTime candle) ->
  insert_on_conflict token timeframe candle tbl !! key = tbl !! key.
Proof.
  intros Hne. unfold insert_on_conflict.
  destruct (tbl !! (token, timeframe, openTime candle)) as [stored|] eqn:E.
  - destruct (r_close_time stored <? closeTime candle); [|done].
    now rewrite lookup_insert_ne.
  - now rewrite lookup_insert_ne.
Qed.

(** C1. [saveCandle] on a pool that executes the statement: with no row
    under the key the incoming candle is inserted; with a stored row and a
    strictly greater incoming closeTime the row keeps its open, takes the
    maximum of the highs and the minimum of the lows, and takes every other
    column from the incoming candle; with an incoming closeTime at or below
    the stored one the table is unchanged.  A later write with high 90 over a
    stored high 100 leaves 100, one with high 150 stores 150. *)
Theorem saveCandle_upsert token timeframe candle w :
  pool_fault (queries w) = None ->
  let key := (token, timeframe, openTime candle) in
  let before := candlesticks w in
  let after :=
    candlesticks (snd (saveCandle pool_fault token timeframe candle w)) in
  fst (saveCandle pool_fault token timeframe candle w) = Ok tt
  /\ (before !! key = None ->
      after !! key
      = Some {| r_open := open candle; r_high := high candle;
                r_low := low candle; r_close := close candle;
                r_volume := volume candle; r_close_time := closeTime candle;
                r_quote_volume := quoteVolume candle; r_trades := trades candle;
                r_taker_buy_base_volume := takerBuyBaseVolume candle;
                r_taker_buy_quote_volume := takerBuyQuoteVolume candle |})
  /\ (forall stored, before !! key = Some stored ->
      r_close_time stored < closeTime candle ->
      after !! key
      = Some {| r_open := r_open stored;
                r_high := Z.max (r_high stored) (high candle);
                r_low := Z.min (r_low stored) (low candle);
                r_close := close candle;
                r_volume := volume candle; r_close_time := closeTime candle;
                r_quote_volume := quoteVolume candle; r_trades := trades candle;
                r_taker_buy_base_volume := takerBuyBaseVolume candle;
                r_taker_buy_quote_volume := takerBuyQuoteVolume candle |}
      /\ (r_high stored = 100 -> high candle = 90 ->
          r_high <$> after !! key = Some 100)
      /\ (r_high stored = 100 -> high candle = 150 ->
          r_high <$> after !! key = Some 150))
  /\ (forall stored, before !! key = Some stored ->
      closeTime candle <= r_close_time stored ->
      after = before)
  /\ (forall key', key' <> key -> after !! key' = before !! key').
Proof.
  intros Hq key before after. subst after before key.
  rewrite (saveCandle_executes _ _ _ _ Hq). cbn [fst snd].
  change (candlesticks (set_candlesticks ?t _)) with t.
  change (candlesticks (next_query w)) with (candlesticks w).
  split; [done|]. split; [|split; [|split]].
  - intros Hnone. rewrite insert_on_conflict_fresh by done.
    now rewrite lookup_insert_eq.
  - intros stored Hsome Hlt.
    rewrite (insert_on_conflict_newer _ _ _ _ _ Hsome Hlt).
    rewrite lookup_insert_eq. split; [done|]. cbn.
    split; intros -> ->; done.
  - intros stored Hsome Hle. now apply insert_on_conflict_stale with stored.
  - intros key' Hne. now apply insert_on_conflict_other.
Qed.


(** C10. When the incoming candle and the stored row, if there is one,
    satisfy [high ≥ max(open, close)] and [low ≤ min(open, close)], the row
    under the key after [saveCandle] satisfies them too, whether it was
    inserted, merged or left alone. *)
Theorem saveCandle_preserves_ohlc token timeframe candle w :
  pool_fault (queries w) = None ->
  ohlc_candle candle ->
  (forall stored,
     candlesticks w !! (token, timeframe, openTime candle) = Some stored ->
     ohlc_row stored) ->
  exists row,
    candlesticks (snd (saveCandle pool_fault token timeframe candle w))
      !! (token, timeframe, openTime candle) = Some row
    /\ ohlc_row row.
Proof.
  intros Hq [Hhi Hlo] Hstored.
  rewrite (saveCandle_executes _ _ _ _ Hq). cbn [snd].
  change (candlesticks (set_candlesticks ?t _)) with t.
  change (candlesticks (next_query w)) with (candlesticks w).
  destruct (candlesticks w !! (token, timeframe, openTime candle))
    as [stored|] eqn:E.
  - destruct (Hstored stored eq_refl) as [Hshi Hslo].
    destruct (Z.lt_ge_cases (r_close_time stored) (closeTime candle)) as [Hlt|Hge].
    + rewrite (insert_on_conflict_newer _ _ _ _ _ E Hlt), lookup_insert_eq.
      eexists; split; [reflexivity|].
      unfold ohlc_row, do_update, excluded; cbn. lia.
    + rewrite (insert_on_conflict_stale _ _ _ _ _ E Hge), E.
      eexists; split; [reflexivity|]. now split.
  - rewrite insert_on_conflict_fresh, lookup_insert_eq by done.
    eexists; split; [reflexivity|]. now split.
Qed.

End StoreProperties.

Lemma saveCandle_upsert_witness :
  candlesticks (snd (saveCandle no_fault "BTC" "5m" first100 empty_world))
    !! ("BTC", "5m", 0)
  = Some (excluded first100)
  /\ r_high <$> candlesticks
                  (snd (saveCandle no_fault "BTC" "5m" later90 stored100))
                  !! ("BTC", "5m", 0)
     = Some 100
  /\ candlesticks (snd (saveCandle no_fault "BTC" "5m" first100 stored100))
     = candlesticks stored100.
Proof.
  split; [|split].
  - destruct (saveCandle_upsert no_fault "BTC" "5m" first100 empty_world)
      as (_ & Hfresh & _); [reflexivity|].
    apply Hfresh. reflexivity.
  - destruct (saveCandle_upsert no_fault "BTC" "5m" later90 stored100)
      as (_ & _ & Hnewer & _); [reflexivity|].
    destruct (Hnewer (excluded first100)) as (_ & H90 & _).
    + vm_compute. reflexivity.
    + vm_compute. reflexivity.
    + apply H90; reflexivity.
  - destruct (saveCandle_upsert no_fault "BTC" "5m" first100 stored100)
      as (_ & _ & _ & Hstale & _); [reflexivity|].
    apply (Hstale (excluded first100)).
    + vm_compute. reflexivity.
    + vm_compute. discriminate.
Defined.

Lemma saveCandle_preserves_ohlc_witness :
  exists row,
    candlesticks (snd (saveCandle no_fault "BTC" "5m" later150 stored100))
      !! ("BTC", "5m", 0) = Some row
    /\ ohlc_row row.
Proof.
  apply (saveCandle_preserves_ohlc no_fault "BTC" "5m" later150 stored100).
  - reflexivity.
  - unfold ohlc_candle; cbn; lia.
  - intros stored Hs. vm_compute in Hs. injection Hs as <-.
    unfold ohlc_row; cbn; lia.
Defined.

(** ** Order of delivery *)

Section DeliveryOrder.

Variable pool_fault : nat -> option string.

Implicit Types (token timeframe : string) (candle : Candle) (w : World).
Implicit Types (stored : Row) (candles : list Candle).

#[local] Instance closes_before_antisymm : AntiSymm (=) closes_before.
Proof. intros a b Hab Hba. unfold closes_before in *. lia. Qed.

(** On a healthy pool a batch of writes settles and leaves the table obtained
    by executing the statements in turn. *)
Lemma saveAll_healthy token timeframe candles w :
  healthy pool_fault ->
  saveAll pool_fault token timeframe candles w
  = (Ok tt,
     {| candlesticks :=
          foldl (fun tbl candle => insert_on_conflict token timeframe candle tbl)
                (candlesticks w) candles;
        current_prices := current_prices w;
        queries := (queries w + length candles)%nat;
        requests := requests w |}).
Proof.
  intros Hh. revert w. induction candles as [|candle rest IH]; intros w.
  - cbn. unfold ret. destruct w; cbn. do 2 f_equal. lia.
  - cbn [saveAll]. unfold bind.
    rewrite (saveCandle_executes _ _ _ _ _ (Hh _)), IH. cbn.
    do 2 f_equal. lia.
Qed.

(** C5, as the code has it.  Two orderings of the same candles that are both
    in strictly ascending order of closeTime (no two candles share a
    closeTime) are the same sequence of writes, so they settle alike and
    leave the same table; and a write whose closeTime is at or below the
    stored one leaves the table as it was. *)
Theorem saveAll_strictly_ascending token timeframe candles1 candles2 w :
  healthy pool_fault ->
  candles1 ≡ₚ candles2 ->
  StronglySorted closes_before candles1 ->
  StronglySorted closes_before candles2 ->
  fst (saveAll pool_fault token timeframe candles1 w) = Ok tt
  /\ saveAll pool_fault token timeframe candles1 w
     = saveAll pool_fault token timeframe candles2 w
  /\ (forall candle stored,
        candlesticks w !! (token, timeframe, openTime candle) = Some stored ->
        closeTime candle <= r_close_time stored ->
        candlesticks (snd (saveCandle pool_fault token timeframe candle w))
        = candlesticks w).
Proof.
  intros Hh Hperm Hs1 Hs2.
  assert (candles1 = candles2) as <-
    by (by apply (StronglySorted_unique closes_before)).
  split; [now rewrite saveAll_healthy|]. split; [done|].
  intros candle stored Hlookup Hle.
  rewrite (saveCandle_executes _ _ _ _ _ (Hh _)). cbn [snd].
  change (candlesticks (set_candlesticks ?t _)) with t.
  change (candlesticks (next_query ?v)) with (candlesticks v).
  now apply insert_on_conflict_stale with stored.
Qed.

End DeliveryOrder.

Lemma saveAll_strictly_ascending_witness :
  candlesticks (snd (saveAll no_fault "BTC" "5m" [first100; later90; later150]
                       stored100))
    !! ("BTC", "5m", 0)
  = Some {| r_open := 95; r_high := 150; r_low := 70; r_close := 140;
            r_volume := 30; r_close_time := 3000; r_quote_volume := 2700;
            r_trades := 9; r_taker_buy_base_volume := 12;
            r_taker_buy_quote_volume := 1200 |}
  /\ candlesticks (snd (saveCandle no_fault "BTC" "5m" first100 stored100))
     = candlesticks stored100.
Proof.
  assert (Hsorted : StronglySorted closes_before [first100; later90; later150]).
  { repeat constructor; unfold closes_before; cbn; lia. }
  destruct (saveAll_strictly_ascending no_fault "BTC" "5m"
              [first100; later90; later150] [first100; later90; later150]
              stored100 (fun _ => eq_refl) (reflexivity _) Hsorted Hsorted)
    as (_ & _ & Hstale).
  split.
  - vm_compute. reflexivity.
  - apply (Hstale first100 (excluded first100)).
    + vm_compute. reflexivity.
    + cbn. lia.
Defined.

(** C5, as stated, fails on ties.  [later90] and [tied95] have the same key
    and the same closeTime: both orders of the two are ascending in
    closeTime, and the row that is stored is that of whichever was written
    first. *)
Lemma ascending_ties_depend_on_order :
  [later90; tied95] ≡ₚ [tied95; later90]
  /\ Sorted closes_no_later [later90; tied95]
  /\ Sorted closes_no_later [tied95; later90]
  /\ openTime later90 = openTime tied95
  /\ r_high <$> candlesticks
                  (snd (saveAll no_fault "BTC" "5m" [later90; tied95] empty_world))
                  !! ("BTC", "5m", 0) = Some 90
  /\ r_high <$> candlesticks
                  (snd (saveAll no_fault "BTC" "5m" [tied95; later90] empty_world))
                  !! ("BTC", "5m", 0) = Some 95.
Proof.
  split; [apply perm_swap|].
  split; [repeat constructor; unfold closes_no_later; cbn; lia|].
  split; [repeat constructor; unfold closes_no_later; cbn; lia|].
  split; [reflexivity|].
  split; vm_compute; reflexivity.
Qed.

(** ** Gap detection *)

Section GapProperties.

Variable pool_fault : nat -> option string.

Implicit Types (token timeframe : string) (w : World) (tbl : Table).
Implicit Types (rows : list Z) (now : Z) (g : Gap).

Lemma intervalMs_pos timeframe : 0 < intervalMs timeframe.
Proof. unfold intervalMs. repeat case_decide; lia. Qed.

Lemma findDataGaps_executes now token timeframe w :
  pool_fault (queries w) = None ->
  findDataGaps pool_fault now token timeframe w
  = (Ok (gapsOfRows timeframe
           (select_open_time token timeframe (candlesticks w)) now),
     next_query w).
Proof.
  intros Hq. unfold findDataGaps, bind, pool_query. now rewrite Hq.
Qed.

Lemma gapsBetween_cons2 d prev curr rows :
  gapsBetween d (prev :: curr :: rows)
  = (if prev + d <? curr
     then [ {| start := prev + d; end_ := curr - d;
               missingIntervals := (curr - (prev + d)) / d |} ]
     else [])
    ++ gapsBetween d (curr :: rows).
Proof. reflexivity. Qed.

Lemma gapsBetween_emits d before prev curr after :
  prev + d < curr ->
  {| start := prev + d; end_ := curr - d;
     missingIntervals := (curr - (prev + d)) / d |}
  ∈ gapsBetween d (before ++ prev :: curr :: after).
Proof.
  intros Hlt. induction before as [|x before IH].
  - cbn [app]. rewrite gapsBetween_cons2.
    destruct (Z.ltb_spec (prev + d) curr); [|lia].
    apply elem_of_app. left. apply list_elem_of_singleton. reflexivity.
  - destruct before as [|y before].
    + cbn [app] in *. rewrite gapsBetween_cons2. apply elem_of_app. now right.
    + cbn [app] in *. rewrite gapsBetween_cons2. apply elem_of_app. now right.
Qed.

Lemma gapsBetween_inv d rows g :
  g ∈ gapsBetween d rows ->
  exists before prev curr after,
    rows = before ++ prev :: curr :: after /\ start g = prev + d.
Proof.
  induction rows as [|prev rows IH]; [cbn; by intros ?%elem_of_nil|].
  destruct rows as [|curr rows]; [cbn; by intros ?%elem_of_nil|].
  rewrite gapsBetween_cons2. intros [Hin|Hin]%elem_of_app.
  - destruct (prev + d <? curr); [|by apply elem_of_nil in Hin].
    apply list_elem_of_singleton in Hin as ->.
    by exists [], prev, curr, rows.
  - destruct (IH Hin) as (before & p & c & after & -> & Hs).
    by exists (prev :: before), p, c, after.
Qed.

Lemma last_app_cons2 {A} (before : list A) prev curr after :
  exists lastTime, last (before ++ prev :: curr :: after) = Some lastTime.
Proof.
  rewrite last_app. cbn [last]. destruct (last (curr :: after)) eqn:E; eauto.
  by apply last_None in E.
Qed.

Lemma quotient_less_one a d : 0 < d -> (a - d) / d = a / d - 1.
Proof.
  intros Hd. replace (a - d) with (a + (-1) * d) by lia.
  rewrite Z.div_add by lia. lia.
Qed.

(** C2, as the code has it.  For consecutive stored openTimes [prev], [curr]
    with [curr > prev + duration], [findDataGaps] emits the gap from
    [prev + duration] to [curr - duration] whose count of missing intervals is
    [floor((curr - (prev + duration)) / duration)], one less than
    [floor((curr - prev) / duration)]. *)
Theorem findDataGaps_interior_gap now token timeframe w before prev curr after :
  pool_fault (queries w) = None ->
  select_open_time token timeframe (candlesticks w)
  = before ++ prev :: curr :: after ->
  prev + intervalMs timeframe < curr ->
  exists gaps,
    fst (findDataGaps pool_fault now token timeframe w) = Ok gaps
    /\ {| start := prev + intervalMs timeframe;
          end_ := curr - intervalMs timeframe;
          missingIntervals := (curr - prev) / intervalMs timeframe - 1 |}
       ∈ gaps
    /\ (curr - prev) / intervalMs timeframe - 1
       = (curr - (prev + intervalMs timeframe)) / intervalMs timeframe.
Proof.
  intros Hq Hrows Hlt.
  pose proof (intervalMs_pos timeframe) as Hd.
  assert (Hcount : (curr - prev) / intervalMs timeframe - 1
                   = (curr - (prev + intervalMs timeframe)) / intervalMs timeframe).
  { rewrite <- quotient_less_one by done. f_equal. lia. }
  rewrite (findDataGaps_executes _ _ _ _ Hq). cbn [fst].
  eexists; split; [reflexivity|]. split; [|done].
  rewrite Hrows. unfold gapsOfRows.
  destruct (last_app_cons2 before prev curr after) as [lastTime ->].
  apply elem_of_app. left. rewrite Hcount. now apply gapsBetween_emits.
Qed.

(** C3, as the code has it.  A timeframe other than ['5m'] and ['1h'],
    configured or not, is given the one-day interval and the 90-day bootstrap
    window: gap detection does not fail on it and computes what it computes
    for ['1d'] on the rows stored under that timeframe. *)
Theorem findDataGaps_unconfigured_timeframe now token timeframe w :
  timeframe <> "5m" ->
  timeframe <> "1h" ->
  pool_fault (queries w) = None ->
  intervalMs timeframe = 86400000
  /\ startTime timeframe now = now - 90 * 86400000
  /\ fst (findDataGaps pool_fault now token timeframe w)
     = Ok (gapsOfRows "1d"
             (select_open_time token timeframe (candlesticks w)) now).
Proof.
  intros H5m H1h Hq.
  assert (Hi : intervalMs timeframe = 86400000).
  { unfold intervalMs. repeat case_decide; done. }
  assert (Hs : startTime timeframe now = now - 90 * 86400000).
  { unfold startTime. repeat case_decide; done. }
  split; [done|]. split; [done|].
  rewrite (findDataGaps_executes _ _ _ _ Hq). cbn [fst]. f_equal.
  unfold gapsOfRows. rewrite Hi, Hs. reflexivity.
Qed.

End GapProperties.

Lemma findDataGaps_interior_gap_witness :
  exists gaps,
    fst (findDataGaps no_fault (at_time 6 0) "BTC" "1h" hourly) = Ok gaps
    /\ {| start := at_time 3 0; end_ := at_time 3 0; missingIntervals := 1 |}
       ∈ gaps.
Proof.
  destruct (findDataGaps_interior_gap no_fault (at_time 6 0) "BTC" "1h" hourly
              [at_time 0 0; at_time 1 0] (at_time 2 0) (at_time 4 0)
              [at_time 5 0])
    as (gaps & Hgaps & Hin & _).
  - reflexivity.
  - vm_compute. reflexivity.
  - vm_compute. reflexivity.
  - exists gaps. split; [exact Hgaps|]. exact Hin.
Defined.

(** C2, as stated, fails.  The stored openTimes 02:00 and 04:00 are
    consecutive and more than one hour apart; the gap between them is emitted
    with one missing interval, not with [floor((04:00 - 02:00) / 1h) = 2]. *)
Lemma interior_gap_count_is_not_the_span_quotient :
  select_open_time "BTC" "1h" (candlesticks hourly)
  = [at_time 0 0; at_time 1 0] ++ at_time 2 0 :: at_time 4 0 :: [at_time 5 0]
  /\ at_time 2 0 + intervalMs "1h" < at_time 4 0
  /\ fst (findDataGaps no_fault (at_time 6 0) "BTC" "1h" hourly)
     = Ok [ {| start := at_time 3 0; end_ := at_time 3 0; missingIntervals := 1 |} ]
  /\ {| start := at_time 2 0 + intervalMs "1h";
        end_ := at_time 4 0 - intervalMs "1h";
        missingIntervals := (at_time 4 0 - at_time 2 0) / intervalMs "1h" |}
     ∉ [ {| start := at_time 3 0; end_ := at_time 3 0; missingIntervals := 1 |} ].
Proof.
  split; [vm_compute; reflexivity|].
  split; [vm_compute; reflexivity|].
  split; [vm_compute; reflexivity|].
  intros Hin%list_elem_of_singleton. vm_compute in Hin. discriminate Hin.
Qed.

Lemma findDataGaps_unconfigured_timeframe_witness :
  fst (findDataGaps no_fault (at_time 6 0) "BTC" "invalid" empty_world)
  = Ok [ {| start := at_time 6 0 - 90 * 86400000; end_ := at_time 6 0;
            missingIntervals := 90 |} ].
Proof.
  destruct (findDataGaps_unconfigured_timeframe no_fault (at_time 6 0) "BTC"
              "invalid" empty_world) as (_ & _ & ->).
  - discriminate.
  - discriminate.
  - reflexivity.
  - vm_compute. reflexivity.
Defined.

(** C3, as stated, fails.  For the timeframe ['invalid'], which is not
    configured, the lookup of the interval yields one day and [findDataGaps]
    settles with a gap computed from it: 90 missing intervals over the 90-day
    window. *)
Lemma unconfigured_timeframe_is_not_an_error :
  intervalMs "invalid" = 24 * 60 * 60 * 1000
  /\ fst (findDataGaps no_fault (at_time 6 0) "BTC" "invalid" empty_world)
     = Ok [ {| start := at_time 6 0 - 90 * (24 * 60 * 60 * 1000);
               end_ := at_time 6 0;
               missingIntervals := 90 |} ].
Proof.
  split; vm_compute; reflexivity.
Qed.

(** ** The trailing gap *)

Section TrailingGap.

Variable pool_fault : nat -> option string.

Implicit Types (token timeframe : string) (w : World) (tbl : Table).
Implicit Types (rows : list Z) (now : Z) (g : Gap).

(** The rows of one series have distinct openTimes: the key is unique. *)
Lemma select_open_time_NoDup token timeframe tbl :
  NoDup (select_open_time token timeframe tbl).
Proof.
  unfold select_open_time. rewrite merge_sort_Permutation.
  pose proof (NoDup_fst_map_to_list tbl) as Hnd.
  induction (map_to_list tbl) as [|[[[t f] open_time] row] l IH];
    [constructor|].
  cbn in Hnd. apply NoDup_cons in Hnd as [Hnotin Hnd].
  cbn [omap list_omap fst]. case_decide as Hkey; [|by apply IH].
  destruct Hkey as [-> ->]. apply NoDup_cons. split; [|by apply IH].
  intros ([[[t' f'] open_time'] row'] & Hin & Hsome)%list_elem_of_omap.
  cbn [fst] in Hsome. case_decide as Hkey'; [|done].
  destruct Hkey' as [-> ->]. injection Hsome as ->.
  apply Hnotin. apply list_elem_of_fmap. by eexists (_, row').
Qed.

Lemma select_open_time_ascending token timeframe tbl :
  StronglySorted Z.lt (select_open_time token timeframe tbl).
Proof.
  pose proof (select_open_time_NoDup token timeframe tbl) as Hnd.
  assert (Hle : StronglySorted Z.le (select_open_time token timeframe tbl))
    by (apply StronglySorted_merge_sort; apply _).
  induction Hle as [|x l Hl IH Hx]; [constructor|].
  apply NoDup_cons in Hnd as [Hnotin Hnd].
  constructor; [by apply IH|].
  apply Forall_forall. intros y Hy.
  rewrite Forall_forall in Hx. specialize (Hx y Hy).
  assert (x <> y) by (intros ->; by apply Hnotin).
  lia.
Qed.

(** In an ascending series every row but the last is below the last. *)
Lemma before_last rows before prev curr after lastTime :
  StronglySorted Z.lt rows ->
  rows = before ++ prev :: curr :: after ->
  last rows = Some lastTime ->
  prev < lastTime.
Proof.
  intros Hs -> Hlast.
  apply StronglySorted_app_1_r in Hs.
  apply StronglySorted_inv in Hs as [_ Hall].
  rewrite last_app in Hlast. cbn [last] in Hlast.
  destruct (last (curr :: after)) as [x|] eqn:E; [|by apply last_None in E].
  assert (x = lastTime) as -> by (destruct (last after); congruence).
  rewrite Forall_forall in Hall. apply Hall.
  by apply last_Some_elem_of.
Qed.

(** C4. For a stored series with last openTime [lastTime], [findDataGaps]
    returns the gaps between the rows, followed by the gap from
    [lastTime + duration] to [now] exactly when [now > lastTime + 2 * duration];
    no other gap starts at [lastTime + duration].  For the hourly series with
    03:00 missing: at 06:00 only the gap at 03:00 with one missing interval, at
    07:01 also the gap that starts at 06:00. *)
Theorem findDataGaps_trailing_gap now token timeframe w lastTime :
  pool_fault (queries w) = None ->
  last (select_open_time token timeframe (candlesticks w)) = Some lastTime ->
  exists gaps,
    fst (findDataGaps pool_fault now token timeframe w) = Ok gaps
    /\ (lastTime + 2 * intervalMs timeframe < now ->
        gaps
        = gapsBetween (intervalMs timeframe)
            (select_open_time token timeframe (candlesticks w))
          ++ [ {| start := lastTime + intervalMs timeframe;
                  end_ := now;
                  missingIntervals :=
                    (now - (lastTime + intervalMs timeframe))
                    / intervalMs timeframe |} ])
    /\ (now <= lastTime + 2 * intervalMs timeframe ->
        gaps
        = gapsBetween (intervalMs timeframe)
            (select_open_time token timeframe (candlesticks w)))
    /\ ((exists g, g ∈ gaps /\ start g = lastTime + intervalMs timeframe
                   /\ end_ g = now)
        <-> lastTime + 2 * intervalMs timeframe < now)
    /\ fst (findDataGaps no_fault (at_time 6 0) "BTC" "1h" hourly)
       = Ok [ {| start := at_time 3 0; end_ := at_time 3 0;
                 missingIntervals := 1 |} ]
    /\ fst (findDataGaps no_fault (at_time 7 1) "BTC" "1h" hourly)
       = Ok [ {| start := at_time 3 0; end_ := at_time 3 0;
                 missingIntervals := 1 |};
              {| start := at_time 6 0; end_ := at_time 7 1;
                 missingIntervals := 1 |} ].
Proof.
  intros Hq Hlast.
  rewrite (findDataGaps_executes _ _ _ _ _ Hq). cbn [fst].
  eexists; split; [reflexivity|].
  unfold gapsOfRows. rewrite Hlast. unfold gapToNow.
  set (d := intervalMs timeframe).
  set (rows := select_open_time token timeframe (candlesticks w)) in *.
  assert (Hinterior : forall g, g ∈ gapsBetween d rows -> start g <> lastTime + d).
  { intros g (before & prev & curr & after & Hrows & ->)%gapsBetween_inv.
    pose proof (before_last rows before prev curr after lastTime
                  (select_open_time_ascending _ _ _) Hrows Hlast).
    lia. }
  destruct (Z.ltb_spec (lastTime + d + d) now) as [Hlt|Hge].
  - split; [intros _; do 4 f_equal; lia|].
    split; [intros ?; lia|]. split.
    + split; [intros _; lia|]. intros _. eexists. split.
      * apply elem_of_app. right. apply list_elem_of_singleton. reflexivity.
      * done.
    + split; vm_compute; reflexivity.
  - split; [intros ?; lia|].
    split; [intros _; by rewrite app_nil_r|]. split.
    + split; [|intros ?; lia].
      intros (g & Hin & Hstart & _). rewrite app_nil_r in Hin.
      by apply Hinterior in Hin.
    + split; vm_compute; reflexivity.
Qed.

End TrailingGap.

Lemma findDataGaps_trailing_gap_witness :
  exists g,
    fst (findDataGaps no_fault (at_time 7 1) "BTC" "1h" hourly)
    = Ok (gapsBetween (intervalMs "1h")
            (select_open_time "BTC" "1h" (candlesticks hourly)) ++ [g])
    /\ start g = at_time 6 0 /\ end_ g = at_time 7 1.
Proof.
  destruct (findDataGaps_trailing_gap no_fault (at_time 7 1) "BTC" "1h" hourly
              (at_time 5 0)) as (gaps & Hgaps & Hlate & _).
  - reflexivity.
  - vm_compute. reflexivity.
  - eexists. rewrite Hgaps, Hlate.
    + split; [reflexivity|]. split; vm_compute; reflexivity.
    + vm_compute. reflexivity.
Defined.

(** ** Backfill: failures while filling a gap *)

Section FillProperties.

Variable pool_fault : nat -> option string.
Variable fetchKlines :
  string -> string -> Z -> Z -> Z -> nat -> Error + list Candle.
Variable marketConfig : MarketConfig.

Implicit Types (symbol token timeframe : string) (w : World) (fs : FillState).
Implicit Types (gap : Gap) (gaps : list Gap) (budget : nat) (error : Error).

Lemma keeps_rows_refl w : keeps_rows w w.
Proof. by intros key. Qed.

Lemma keeps_rows_trans w1 w2 w3 :
  keeps_rows w1 w2 -> keeps_rows w2 w3 -> keeps_rows w1 w3.
Proof. intros H12 H23 key Hk. by apply H23, H12. Qed.

Lemma insert_on_conflict_keeps token timeframe (candle : Candle) (tbl : Table)
    (key : Key) :
  is_Some (tbl !! key) ->
  is_Some (insert_on_conflict token timeframe candle tbl !! key).
Proof.
  intros Hk. unfold insert_on_conflict.
  destruct (tbl !! (token, timeframe, openTime candle)) as [stored|] eqn:E.
  - destruct (r_close_time stored <? closeTime candle); [|done].
    rewrite lookup_insert. case_decide; [by eexists | done].
  - rewrite lookup_insert. case_decide; [by eexists | done].
Qed.

Lemma saveCandle_cases token timeframe (candle : Candle) w :
  (exists msg,
     saveCandle pool_fault token timeframe candle w
     = (Throw {| message := msg |}, next_query w))
  \/ saveCandle pool_fault token timeframe candle w
     = (Ok tt, set_candlesticks
                 (insert_on_conflict token timeframe candle (candlesticks w))
                 (next_query w)).
Proof.
  unfold saveCandle, pool_query.
  destruct (pool_fault (queries w)) as [msg|]; [left; by exists msg | by right].
Qed.

Lemma saveCandle_keeps_rows token timeframe (candle : Candle) w :
  keeps_rows w (snd (saveCandle pool_fault token timeframe candle w)).
Proof.
  destruct (saveCandle_cases token timeframe candle w) as [[msg ->]| ->];
    cbn [snd]; intros key Hk; [done|].
  by apply insert_on_conflict_keeps.
Qed.

Lemma saveAll_settles token timeframe (klines : list Candle) w :
  fst (saveAll pool_fault token timeframe klines w) <> Pending.
Proof.
  revert w. induction klines as [|kline rest IH]; intros w; [done|].
  cbn [saveAll]. unfold bind.
  destruct (saveCandle_cases token timeframe kline w) as [[msg ->]| ->];
    [done | apply IH].
Qed.

Lemma saveAll_keeps_rows token timeframe (klines : list Candle) w :
  keeps_rows w (snd (saveAll pool_fault token timeframe klines w)).
Proof.
  revert w. induction klines as [|kline rest IH]; intros w;
    [apply keeps_rows_refl|].
  cbn [saveAll]. unfold bind.
  pose proof (saveCandle_keeps_rows token timeframe kline w) as Hk.
  destruct (saveCandle pool_fault token timeframe kline w) as [[[]|error|] w'];
    cbn [snd] in *; [|done..].
  eapply keeps_rows_trans; [exact Hk | apply IH].
Qed.

(** One iteration of the page loop, by the outcome of its request. *)
Lemma fillPages_rejected budget symbol token timeframe maxCandles gap_end
    currentStart fs error :
  currentStart < gap_end ->
  fetchKlines symbol timeframe (Z.min maxCandles 1000) currentStart gap_end
    (requests (world fs)) = inl error ->
  fillPages pool_fault fetchKlines (S budget) symbol token timeframe maxCandles
    gap_end currentStart fs
  = (Throw error,
     {| world := next_request (world fs); filled := filled fs; errs := errs fs |}).
Proof.
  intros Hlt Hfetch. cbn [fillPages].
  destruct (Z.ltb_spec currentStart gap_end); [|lia].
  unfold bind, in_world, await_fetchKlines. by rewrite Hfetch.
Qed.

Lemma fillPages_empty budget symbol token timeframe maxCandles gap_end
    currentStart fs :
  currentStart < gap_end ->
  fetchKlines symbol timeframe (Z.min maxCandles 1000) currentStart gap_end
    (requests (world fs)) = inr [] ->
  fillPages pool_fault fetchKlines (S budget) symbol token timeframe maxCandles
    gap_end currentStart fs
  = (Ok tt,
     {| world := next_request (world fs); filled := filled fs; errs := errs fs |}).
Proof.
  intros Hlt Hfetch. cbn [fillPages].
  destruct (Z.ltb_spec currentStart gap_end); [|lia].
  unfold bind, in_world, await_fetchKlines. by rewrite Hfetch.
Qed.

Lemma fillPages_page budget symbol token timeframe maxCandles gap_end
    currentStart fs klines lastKline :
  currentStart < gap_end ->
  fetchKlines symbol timeframe (Z.min maxCandles 1000) currentStart gap_end
    (requests (world fs)) = inr klines ->
  last klines = Some lastKline ->
  fillPages pool_fault fetchKlines (S budget) symbol token timeframe maxCandles
    gap_end currentStart fs
  = match saveAll pool_fault token timeframe klines (next_request (world fs)) with
    | (Ok _, w') =>
        fillPages pool_fault fetchKlines budget symbol token timeframe
          maxCandles gap_end (closeTime lastKline + 1)
          {| world := w'; filled := filled fs + Z.of_nat (length klines);
             errs := errs fs |}
    | (Throw error, w') =>
        (Throw error, {| world := w'; filled := filled fs; errs := errs fs |})
    | (Pending, w') =>
        (Pending, {| world := w'; filled := filled fs; errs := errs fs |})
    end.
Proof.
  intros Hlt Hfetch Hlast. cbn [fillPages].
  destruct (Z.ltb_spec currentStart gap_end); [|lia].
  unfold bind, in_world, await_fetchKlines. rewrite Hfetch, Hlast. cbn.
  by destruct (saveAll pool_fault token timeframe klines
                 (next_request (world fs))) as [[[]|error|] w'].
Qed.

Lemma fillPages_done budget symbol token timeframe maxCandles gap_end
    currentStart fs :
  gap_end <= currentStart ->
  fillPages pool_fault fetchKlines budget symbol token timeframe maxCandles
    gap_end currentStart fs
  = (Ok tt, fs).
Proof.
  intros Hge. destruct budget; cbn [fillPages];
    by destruct (Z.ltb_spec currentStart gap_end); [lia|].
Qed.

(** What the page loop leaves behind, whatever its outcome. *)
Lemma fillPages_frame budget symbol token timeframe maxCandles gap_end
    currentStart fs :
  errs (snd (fillPages pool_fault fetchKlines budget symbol token timeframe
               maxCandles gap_end currentStart fs)) = errs fs
  /\ keeps_rows (world fs)
       (world (snd (fillPages pool_fault fetchKlines budget symbol token
                      timeframe maxCandles gap_end currentStart fs))).
Proof.
  revert currentStart fs. induction budget as [|budget IH]; intros currentStart fs.
  { cbn [fillPages]. destruct (currentStart <? gap_end); cbn;
      (split; [done | apply keeps_rows_refl]). }
  destruct (Z.lt_ge_cases currentStart gap_end) as [Hlt|Hge];
    [|rewrite fillPages_done by done; split; [done | apply keeps_rows_refl]].
  destruct (fetchKlines symbol timeframe (Z.min maxCandles 1000) currentStart
              gap_end (requests (world fs))) as [error|klines] eqn:Hfetch.
  { rewrite (fillPages_rejected _ _ _ _ _ _ _ _ _ Hlt Hfetch). cbn.
    split; [done|]. by intros key. }
  destruct (last klines) as [lastKline|] eqn:Hlast.
  - rewrite (fillPages_page _ _ _ _ _ _ _ _ _ _ Hlt Hfetch Hlast).
    pose proof (saveAll_keeps_rows token timeframe klines
                  (next_request (world fs))) as Hk.
    destruct (saveAll pool_fault token timeframe klines
                (next_request (world fs))) as [[[]|error|] w'];
      cbn [snd] in *; [|by split..].
    match goal with |- context [fillPages _ _ _ _ _ _ _ _ ?c ?s] =>
      destruct (IH c s) as [-> Hk'] end.
    split; [done|]. eapply keeps_rows_trans; [exact Hk | exact Hk'].
  - apply last_None in Hlast as ->.
    rewrite (fillPages_empty _ _ _ _ _ _ _ _ Hlt Hfetch). cbn.
    split; [done|]. by intros key.
Qed.

(** With an upstream that makes progress the page loop settles within a
    budget that covers what is left of the gap. *)
Lemma fillPages_settles budget symbol token timeframe maxCandles gap_end
    currentStart fs :
  makes_progress fetchKlines ->
  gap_end - currentStart <= Z.of_nat budget ->
  fst (fillPages pool_fault fetchKlines budget symbol token timeframe
         maxCandles gap_end currentStart fs) <> Pending.
Proof.
  intros Hprogress. revert currentStart fs.
  induction budget as [|budget IH]; intros currentStart fs Hfit.
  { by rewrite fillPages_done by lia. }
  destruct (Z.lt_ge_cases currentStart gap_end) as [Hlt|Hge];
    [|by rewrite fillPages_done by done].
  destruct (fetchKlines symbol timeframe (Z.min maxCandles 1000) currentStart
              gap_end (requests (world fs))) as [error|klines] eqn:Hfetch.
  { by rewrite (fillPages_rejected _ _ _ _ _ _ _ _ _ Hlt Hfetch). }
  destruct (last klines) as [lastKline|] eqn:Hlast.
  - rewrite (fillPages_page _ _ _ _ _ _ _ _ _ _ Hlt Hfetch Hlast).
    pose proof (saveAll_settles token timeframe klines
                  (next_request (world fs))) as Hs.
    pose proof (Hprogress _ _ _ _ _ _ _ _ Hfetch Hlast) as Hadv.
    destruct (saveAll pool_fault token timeframe klines
                (next_request (world fs))) as [[[]|error|] w'];
      cbn [fst] in *; [|done..].
    apply IH. lia.
  - apply last_None in Hlast as ->.
    by rewrite (fillPages_empty _ _ _ _ _ _ _ _ Hlt Hfetch).
Qed.

(** A page loop that aborts throws the error of the failing page; the state
    is the one reached at that page. *)
Lemma Aborts_fillPages symbol token timeframe maxCandles gap_end source
    currentStart fs error fs' budget :
  makes_progress fetchKlines ->
  Aborts pool_fault fetchKlines symbol token timeframe maxCandles gap_end
    source currentStart fs error fs' ->
  gap_end - currentStart <= Z.of_nat budget ->
  fillPages pool_fault fetchKlines budget symbol token timeframe maxCandles
    gap_end currentStart fs
  = (Throw error, fs').
Proof.
  intros Hprogress Habort. revert budget.
  induction Habort as
    [ currentStart fs error Hlt Hfetch
    | currentStart fs klines error w' Hlt Hfetch Hsave
    | source currentStart fs klines lastKline w' error fs' Hlt Hfetch Hlast
        Hsave _ IH ];
    intros [|budget] Hfit; try lia.
  - by apply fillPages_rejected.
  - destruct (last klines) as [lastKline|] eqn:Hlast.
    + rewrite (fillPages_page _ _ _ _ _ _ _ _ _ _ Hlt Hfetch Hlast).
      by rewrite Hsave.
    + apply last_None in Hlast as ->. cbn in Hsave. discriminate Hsave.
  - rewrite (fillPages_page _ _ _ _ _ _ _ _ _ _ Hlt Hfetch Hlast), Hsave.
    apply IH. pose proof (Hprogress _ _ _ _ _ _ _ _ Hfetch Hlast). lia.
Qed.

(** The loop over the gaps: a throw of a page loop is caught and recorded,
    and the next gap is taken up. *)
Lemma fillEach_cons budget symbol token timeframe maxCandles gap rest fs :
  fillEach pool_fault fetchKlines budget symbol token timeframe maxCandles
    (gap :: rest) fs
  = match fillPages pool_fault fetchKlines budget symbol token timeframe
            maxCandles (end_ gap) (start gap) fs with
    | (Ok _, fs') =>
        fillEach pool_fault fetchKlines budget symbol token timeframe
          maxCandles rest fs'
    | (Throw error, fs') =>
        fillEach pool_fault fetchKlines budget symbol token timeframe
          maxCandles rest
          {| world := world fs'; filled := filled fs';
             errs := errs fs' ++ [message error] |}
    | (Pending, fs') => (Pending, fs')
    end.
Proof.
  cbn [fillEach]. unfold bind, try_catch, push_error.
  by destruct (fillPages pool_fault fetchKlines budget symbol token timeframe
                 maxCandles (end_ gap) (start gap) fs) as [[[]|error|] fs'].
Qed.

Lemma fillEach_app budget symbol token timeframe maxCandles gaps1 gaps2 fs fs1 :
  fillEach pool_fault fetchKlines budget symbol token timeframe maxCandles
    gaps1 fs = (Ok tt, fs1) ->
  fillEach pool_fault fetchKlines budget symbol token timeframe maxCandles
    (gaps1 ++ gaps2) fs
  = fillEach pool_fault fetchKlines budget symbol token timeframe maxCandles
      gaps2 fs1.
Proof.
  revert fs. induction gaps1 as [|gap gaps1 IH]; intros fs.
  { cbn. by intros [= ->]. }
  cbn [app]. rewrite !fillEach_cons.
  destruct (fillPages pool_fault fetchKlines budget symbol token timeframe
              maxCandles (end_ gap) (start gap) fs) as [[[]|error|] fs'];
    [apply IH | apply IH | done].
Qed.

Lemma fillEach_never_throws budget symbol token timeframe maxCandles gaps fs
    error :
  fst (fillEach pool_fault fetchKlines budget symbol token timeframe
         maxCandles gaps fs) <> Throw error.
Proof.
  revert fs. induction gaps as [|gap rest IH]; intros fs; [done|].
  rewrite fillEach_cons.
  destruct (fillPages pool_fault fetchKlines budget symbol token timeframe
              maxCandles (end_ gap) (start gap) fs) as [[[]|e|] fs'];
    [apply IH | apply IH | done].
Qed.

Lemma fillEach_frame budget symbol token timeframe maxCandles gaps fs :
  errs fs `prefix_of`
    errs (snd (fillEach pool_fault fetchKlines budget symbol token timeframe
                 maxCandles gaps fs))
  /\ keeps_rows (world fs)
       (world (snd (fillEach pool_fault fetchKlines budget symbol token
                      timeframe maxCandles gaps fs))).
Proof.
  revert fs. induction gaps as [|gap rest IH]; intros fs.
  { cbn. split; [done | apply keeps_rows_refl]. }
  rewrite fillEach_cons.
  destruct (fillPages_frame budget symbol token timeframe maxCandles
              (end_ gap) (start gap) fs) as [Herrs Hrows].
  destruct (fillPages pool_fault fetchKlines budget symbol token timeframe
              maxCandles (end_ gap) (start gap) fs) as [[[]|e|] fs'];
    cbn [snd] in *.
  - destruct (IH fs') as [Hp Hk]. rewrite <- Herrs. split; [done|].
    by eapply keeps_rows_trans.
  - match goal with |- context [fillEach _ _ _ _ _ _ _ _ ?s] =>
      destruct (IH s) as [Hp Hk] end.
    cbn [errs world] in Hp, Hk. rewrite <- Herrs. split.
    + etrans; [|exact Hp]. by apply prefix_app_r.
    + by eapply keeps_rows_trans.
  - by rewrite <- Herrs.
Qed.

Lemma fillEach_settles budget symbol token timeframe maxCandles gaps fs :
  makes_progress fetchKlines ->
  fits budget gaps ->
  exists final,
    fillEach pool_fault fetchKlines budget symbol token timeframe maxCandles
      gaps fs = (Ok tt, final).
Proof.
  intros Hprogress. revert fs. induction gaps as [|gap rest IH]; intros fs Hfit.
  { by exists fs. }
  rewrite fillEach_cons.
  pose proof (fillPages_settles budget symbol token timeframe maxCandles
                (end_ gap) (start gap) fs Hprogress) as Hs.
  assert (Hrest : fits budget rest).
  { intros g Hg. apply Hfit. by right. }
  destruct (fillPages pool_fault fetchKlines budget symbol token timeframe
              maxCandles (end_ gap) (start gap) fs) as [[[]|e|] fs'].
  - by apply IH.
  - by apply IH.
  - exfalso. apply Hs; [|done]. apply Hfit. by left.
Qed.

(** [fillGaps] on a known token whose series has gaps is the loop over the
    gaps, started with nothing filled and no errors. *)
Lemma fillGaps_runs_loop budget now token timeframe maxCandles w symbol gaps
    final :
  symbol_of marketConfig token = Some symbol ->
  pool_fault (queries w) = None ->
  gapsOfRows timeframe (select_open_time token timeframe (candlesticks w)) now
  = gaps ->
  gaps <> [] ->
  fillEach pool_fault fetchKlines budget symbol token timeframe maxCandles gaps
    {| world := next_query w; filled := 0; errs := [] |} = (Ok tt, final) ->
  fillGaps pool_fault fetchKlines marketConfig budget now token timeframe
    maxCandles w
  = (Ok {| candlesFilled := filled final; errors := errs final |}, world final).
Proof.
  intros Hsymbol Hq Hgaps Hne Hloop. unfold fillGaps, fillFound. rewrite Hsymbol.
  unfold bind. rewrite (findDataGaps_executes _ _ _ _ _ Hq), Hgaps.
  destruct gaps as [|gap rest]; [done|]. by rewrite Hloop.
Qed.

(** A gap whose page loop aborts, whatever the source of the failure: the
    error is recorded, the gaps after it are filled, and the call returns. *)
Lemma fillGaps_isolates_abort budget now token timeframe maxCandles w symbol
    done gap rest fs source error fs' :
  makes_progress fetchKlines ->
  fits budget (gap :: rest) ->
  symbol_of marketConfig token = Some symbol ->
  pool_fault (queries w) = None ->
  gapsOfRows timeframe (select_open_time token timeframe (candlesticks w)) now
  = done ++ gap :: rest ->
  fillEach pool_fault fetchKlines budget symbol token timeframe maxCandles done
    {| world := next_query w; filled := 0; errs := [] |} = (Ok tt, fs) ->
  Aborts pool_fault fetchKlines symbol token timeframe maxCandles (end_ gap)
    source (start gap) fs error fs' ->
  exists final,
    fillEach pool_fault fetchKlines budget symbol token timeframe maxCandles
      rest
      {| world := world fs'; filled := filled fs';
         errs := errs fs' ++ [message error] |}
    = (Ok tt, final)
    /\ fillGaps pool_fault fetchKlines marketConfig budget now token timeframe
         maxCandles w
       = (Ok {| candlesFilled := filled final; errors := errs final |},
          world final)
    /\ (errs fs ++ [message error]) `prefix_of` errs final
    /\ keeps_rows (world fs) (world final).
Proof.
  intros Hprogress Hfit Hsymbol Hq Hgaps Hdone Habort.
  assert (Hpages :
    fillPages pool_fault fetchKlines budget symbol token timeframe maxCandles
      (end_ gap) (start gap) fs = (Throw error, fs')).
  { eapply Aborts_fillPages; [done..|]. apply Hfit. by left. }
  assert (Hrest : fits budget rest).
  { intros g Hg. apply Hfit. by right. }
  destruct (fillEach_settles budget symbol token timeframe maxCandles rest
              {| world := world fs'; filled := filled fs';
                 errs := errs fs' ++ [message error] |} Hprogress Hrest)
    as [final Hfinal].
  destruct (fillPages_frame budget symbol token timeframe maxCandles
              (end_ gap) (start gap) fs) as [Herrs Hrows].
  rewrite Hpages in Herrs, Hrows. cbn [snd] in Herrs, Hrows.
  destruct (fillEach_frame budget symbol token timeframe maxCandles rest
              {| world := world fs'; filled := filled fs';
                 errs := errs fs' ++ [message error] |}) as [Hprefix Hkeeps].
  rewrite Hfinal in Hprefix, Hkeeps. cbn [snd errs world] in Hprefix, Hkeeps.
  exists final. split; [done|]. split; [|split].
  - eapply fillGaps_runs_loop; [done..| |].
    + by destruct done.
    + rewrite (fillEach_app _ _ _ _ _ _ _ _ _ Hdone), fillEach_cons, Hpages.
      exact Hfinal.
  - by rewrite <- Herrs.
  - by eapply keeps_rows_trans.
Qed.

(** C8, as the code has it.  A write that the store rejects while [fillGaps]
    persists a fetched candle makes [saveCandle] throw to the page loop, with
    the table as it was; the [catch] of the gap then takes it like any other
    failure: its message is appended to the errors, the page is not counted,
    the gaps after it are filled and [fillGaps] returns its result. *)
Theorem fillGaps_records_write_failure budget now token timeframe maxCandles w
    symbol done gap rest fs error fs' :
  makes_progress fetchKlines ->
  fits budget (gap :: rest) ->
  symbol_of marketConfig token = Some symbol ->
  pool_fault (queries w) = None ->
  gapsOfRows timeframe (select_open_time token timeframe (candlesticks w)) now
  = done ++ gap :: rest ->
  fillEach pool_fault fetchKlines budget symbol token timeframe maxCandles done
    {| world := next_query w; filled := 0; errs := [] |} = (Ok tt, fs) ->
  Aborts pool_fault fetchKlines symbol token timeframe maxCandles (end_ gap)
    Persistence (start gap) fs error fs' ->
  (forall (candle : Candle) w0 msg,
     pool_fault (queries w0) = Some msg ->
     saveCandle pool_fault token timeframe candle w0
     = (Throw {| message := msg |}, next_query w0))
  /\ exists final,
       fillGaps pool_fault fetchKlines marketConfig budget now token timeframe
         maxCandles w
       = (Ok {| candlesFilled := filled final; errors := errs final |},
          world final)
       /\ (errs fs ++ [message error]) `prefix_of` errs final
       /\ fillEach pool_fault fetchKlines budget symbol token timeframe
            maxCandles rest
            {| world := world fs'; filled := filled fs';
               errs := errs fs' ++ [message error] |}
          = (Ok tt, final).
Proof.
  intros Hprogress Hfit Hsymbol Hq Hgaps Hdone Habort. split.
  - intros candle w0 msg Hfault. unfold saveCandle, pool_query.
    by rewrite Hfault.
  - destruct (fillGaps_isolates_abort budget now token timeframe maxCandles w
                symbol done gap rest fs Persistence error fs')
      as (final & Hrest & Hcall & Hprefix & _); [done..|].
    by exists final.
Qed.

End FillProperties.

Lemma limited_upstream_makes_progress : makes_progress limited_upstream.
Proof.
  intros symbol timeframe limit startTime endTime n klines lastKline Hfetch Hlast.
  unfold limited_upstream in Hfetch.
  destruct (Z.eqb_spec startTime (at_time 1 0)); [discriminate|].
  destruct (Z.eqb_spec startTime (at_time 4 0)) as [->|];
    injection Hfetch as <-; [|discriminate].
  injection Hlast as <-. vm_compute. discriminate.
Qed.

Lemma full_upstream_makes_progress : makes_progress full_upstream.
Proof.
  intros symbol timeframe limit startTime endTime n klines lastKline Hfetch Hlast.
  unfold full_upstream in Hfetch.
  destruct (Z.eqb_spec startTime (at_time 1 0)) as [->|];
    injection Hfetch as <-; [|discriminate].
  injection Hlast as <-. vm_compute. discriminate.
Qed.

Lemma fillGaps_records_write_failure_witness :
  exists final,
    fillGaps second_faults full_upstream MARKET_CONFIG (Z.to_nat 3600000)
      (at_time 3 30) "BTC" "1h" 1000 sparse
    = (Ok {| candlesFilled := filled final; errors := errs final |},
       world final)
    /\ ["Database error"] `prefix_of` errs final.
Proof.
  destruct (fillGaps_records_write_failure second_faults full_upstream
              MARKET_CONFIG (Z.to_nat 3600000) (at_time 3 30) "BTC" "1h" 1000
              sparse "btcusdt" []
              {| start := at_time 1 0; end_ := at_time 2 0;
                 missingIntervals := 2 |}
              []
              {| world := next_query sparse; filled := 0; errs := [] |}
              {| message := "Database error" |}
              {| world := next_query (next_request (next_query sparse));
                 filled := 0; errs := [] |})
    as (_ & final & Hcall & Hprefix & _).
  - exact full_upstream_makes_progress.
  - intros g Hg. rewrite Z2Nat.id by lia.
    apply list_elem_of_singleton in Hg as ->. vm_compute. discriminate.
  - reflexivity.
  - reflexivity.
  - vm_compute. reflexivity.
  - reflexivity.
  - apply (save_rejected second_faults full_upstream "btcusdt" "BTC" "1h" 1000
             (at_time 2 0) (at_time 1 0)
             {| world := next_query sparse; filled := 0; errs := [] |}
             [hour_candle (at_time 1 0); hour_candle (at_time 2 0)]).
    + vm_compute. reflexivity.
    + reflexivity.
    + reflexivity.
  - exists final. split; [exact Hcall | exact Hprefix].
Defined.

(** C8, as stated, fails.  The store rejects the first write of the page
    fetched for the gap from 01:00 to 02:00: [saveCandle] throws, and
    [fillGaps] does not; it returns with the message among its errors. *)
Lemma write_failure_is_caught_in_fillGaps :
  fst (saveCandle second_faults "BTC" "1h" (hour_candle (at_time 1 0))
         (next_request (next_query sparse)))
  = Throw {| message := "Database error" |}
  /\ fst (fillGaps second_faults full_upstream MARKET_CONFIG 5 (at_time 3 30)
            "BTC" "1h" 1000 sparse)
     = Ok {| candlesFilled := 0; errors := ["Database error"] |}.
Proof.
  split; vm_compute; reflexivity.
Qed.

(** ** The in-flight guard of [fillAllGaps] *)

Section GuardProperties.

Variable pool_fault : nat -> option string.
Variable fetchKlines :
  string -> string -> Z -> Z -> Z -> nat -> Error + list Candle.
Variable marketConfig : MarketConfig.

Implicit Types (m : Manager) (w : World) (p q : Process).

Lemma step_guarded p q : guarded p -> step p q -> guarded q.
Proof.
  intros Hg Hstep. destruct Hstep as [m n Henter|m m' n Henter|m w n|m n];
    unfold guarded, enter, leave in *; cbn in *.
  - done.
  - destruct (isFillingGaps m) eqn:E; [done|]. injection Henter as <-. cbn.
    left. split; [done|]. destruct Hg as [[? ?]|[_ ->]]; done.
  - done.
  - right. split; [done|]. destruct Hg as [[_ [= ->]]|[_ ?]]; done.
Qed.

Lemma reachable_guarded w p : reachable w p -> guarded p.
Proof.
  induction 1 as [|p q _ IH Hstep]; [by right | by eapply step_guarded].
Qed.

Lemma pairs_product token timeframe :
  (token, timeframe) ∈ pairs marketConfig
  <-> token ∈ marketConfig.*1 /\ timeframe ∈ ["5m"; "1h"; "1d"].
Proof.
  unfold pairs, timeframes. rewrite list_elem_of_In, in_flat_map. split.
  - intros (t & Ht & Hin). apply list_elem_of_In in Ht.
    apply in_map_iff in Hin as (f & [= -> ->] & Hf).
    apply list_elem_of_In in Hf. done.
  - intros [Ht Hf]. exists token. split; [by apply list_elem_of_In|].
    apply in_map_iff. exists timeframe. split; [done|].
    by apply list_elem_of_In.
Qed.

Lemma promise_all_length {A} (promises : list (M World A)) w results w' :
  promise_all promises w = (Ok results, w') ->
  length results = length promises.
Proof.
  revert w results. induction promises as [|promise rest IH]; intros w results.
  { cbn. unfold ret. by intros [= <- _]. }
  cbn [promise_all]. unfold bind.
  destruct (promise w) as [[a|error|] w1]; [|done..].
  destruct (promise_all rest w1) as [[others|error|] w2] eqn:E; [|done..].
  unfold ret. intros [= <- <-]. cbn. f_equal. by eapply IH.
Qed.

Lemma call_each_length {A} (calls : list (World -> M World A * World)) w :
  length (fst (call_each calls w)) = length calls.
Proof.
  revert w. induction calls as [|call rest IH]; intros w; [done|].
  cbn [call_each]. destruct (call w) as [promise w1].
  specialize (IH w1). destruct (call_each rest w1) as [promises w2].
  cbn in *. by rewrite IH.
Qed.

(** C6. In every state the process reaches through calls to [fillAllGaps],
    their I/O and their [finally] blocks, at most one pass is running and the
    flag is up exactly while one is.  A call that finds the flag up returns
    the empty array and leaves the world as it is: no query, no request, no
    write.  A call that finds it down calls [fillGaps] on every pair of a
    configured token and one of ['5m'], ['1h'], ['1d'] and awaits the
    promises, with the flag up until the results are in, and lowers the flag
    when it settles. *)
Theorem fillAllGaps_single_pass budget now m w p :
  reachable w p ->
  (running p <= 1)%nat
  /\ (isFillingGaps (manager p) = true <-> running p = 1%nat)
  /\ (isFillingGaps m = true ->
      enter m = None
      /\ fillAllGaps pool_fault fetchKlines marketConfig budget now m
         = (Ok [], m))
  /\ (isFillingGaps m = false ->
      enter m = Some {| isFillingGaps := true; outside := outside m |}
      /\ exists promises w1 settled w',
           call_each
             (map (fillPair pool_fault fetchKlines marketConfig budget now)
                  (pairs marketConfig))
             (outside m) = (promises, w1)
           /\ promise_all promises w1 = (settled, w')
           /\ fillAllGaps pool_fault fetchKlines marketConfig budget now m
              = (settled,
                 {| isFillingGaps :=
                      match settled with Pending => true | _ => false end;
                    outside := w' |})
           /\ (forall results, settled = Ok results ->
                 length results = length (pairs marketConfig)))
  /\ (forall token timeframe,
        (token, timeframe) ∈ pairs marketConfig
        <-> token ∈ marketConfig.*1 /\ timeframe ∈ ["5m"; "1h"; "1d"]).
Proof.
  intros Hreach. apply reachable_guarded in Hreach.
  split; [destruct Hreach as [[_ ->]|[_ ->]]; lia|].
  split; [destruct Hreach as [[-> ->]|[-> ->]]; done|].
  split; [|split].
  - intros Hup. unfold fillAllGaps, enter. by rewrite Hup.
  - intros Hdown. unfold fillAllGaps, enter. rewrite Hdown. split; [done|].
    cbn [outside isFillingGaps].
    pose proof (call_each_length
                  (map (fillPair pool_fault fetchKlines marketConfig budget now)
                       (pairs marketConfig)) (outside m)) as Hcalls.
    destruct (call_each _ (outside m)) as [promises w1].
    cbn [fst] in Hcalls. rewrite length_map in Hcalls.
    destruct (promise_all promises w1) as [settled w'] eqn:E.
    exists promises, w1, settled, w'. split; [done|]. split; [done|]. split.
    + by destruct settled.
    + intros results ->. apply promise_all_length in E. congruence.
  - apply pairs_product.
Qed.

End GuardProperties.

Lemma fillAllGaps_single_pass_witness :
  fillAllGaps no_fault full_upstream MARKET_CONFIG 5 (at_time 3 30) busy
  = (Ok [], busy).
Proof.
  destruct (fillAllGaps_single_pass no_fault full_upstream MARKET_CONFIG 5
              (at_time 3 30) busy sparse
              {| manager := busy; running := 1 |})
    as (_ & _ & Hbusy & _).
  - eapply reach_step; [apply reach_init|].
    by apply (step_entered {| isFillingGaps := false; outside := sparse |}).
  - apply Hbusy. reflexivity.
Defined.

(** ** Stream ingestion *)

Section StreamProperties.

Variable pool_fault : nat -> option string.
Variable parseFloat : string -> Z.
Variable change : Z -> Z -> Z.
Variable tie_break : nat -> list (Z * Z) -> nat.

Implicit Types (now : Z) (token : string) (w : World) (event : Event).

(** [updateCurrentPrice] writes to [current_prices] only. *)
Lemma updateCurrentPrice_candlesticks now token price w :
  candlesticks
    (snd (updateCurrentPrice pool_fault change tie_break now token price w))
  = candlesticks w.
Proof.
  unfold updateCurrentPrice, try_catch, bind, pool_query, ret. cbn.
  destruct (pool_fault (queries w)); [done|]. cbn.
  by destruct (pool_fault (S (queries w))).
Qed.

Lemma allStreams_subscribed entry interval :
  entry ∈ MARKET_CONFIG ->
  interval ∈ ["5m"; "1h"; "1d"] ->
  (snd entry +:+ "@kline_" +:+ interval) ∈ allStreams.
Proof.
  intros Hentry Hinterval.
  repeat (apply elem_of_cons in Hentry as [->|Hentry]);
    [..|by apply elem_of_nil in Hentry];
    repeat (apply elem_of_cons in Hinterval as [->|Hinterval]);
    try (by apply elem_of_nil in Hinterval);
    vm_compute; repeat (first [by left | right]).
Qed.

(** C7. A kline event whose symbol is that of a configured token is written
    by the handler with [saveCandle(token, '5m', candle)], whatever the
    interval [k_i] of the stream it came from: the table after the event is
    the table before with the candle upserted under [(token, '5m', k.t)], and
    no row of another timeframe is touched; and the subscription names the
    [kline_5m], [kline_1h] and [kline_1d] streams of every configured
    token. *)
Theorem on_message_stores_under_5m now event k token w :
  ev_e event = "kline" ->
  ev_k event = Some k ->
  token_of_symbol (ev_s event) = Some token ->
  pool_fault (queries w) = None ->
  candlesticks
    (snd (on_message pool_fault parseFloat change tie_break now
            (Some (Some event)) w))
  = insert_on_conflict token "5m" (candle_of_kline parseFloat k)
      (candlesticks w)
  /\ is_Some
       (candlesticks
          (snd (on_message pool_fault parseFloat change tie_break now
                  (Some (Some event)) w))
        !! (token, "5m", k_t k))
  /\ (forall t timeframe open_time,
        timeframe <> "5m" ->
        candlesticks
          (snd (on_message pool_fault parseFloat change tie_break now
                  (Some (Some event)) w))
        !! (t, timeframe, open_time)
        = candlesticks w !! (t, timeframe, open_time))
  /\ (forall entry interval,
        entry ∈ MARKET_CONFIG ->
        interval ∈ ["5m"; "1h"; "1d"] ->
        (snd entry +:+ "@kline_" +:+ interval) ∈ allStreams).
Proof.
  intros He Hk Htoken Hq.
  assert (Hafter :
    candlesticks
      (snd (on_message pool_fault parseFloat change tie_break now
              (Some (Some event)) w))
    = insert_on_conflict token "5m" (candle_of_kline parseFloat k)
        (candlesticks w)).
  { unfold on_message, try_catch. rewrite He, Hk, Htoken, String.eqb_refl.
    unfold bind. rewrite (saveCandle_executes _ _ _ _ _ Hq).
    pose proof (updateCurrentPrice_candlesticks now token
                  (close (candle_of_kline parseFloat k))
                  (set_candlesticks
                     (insert_on_conflict token "5m"
                        (candle_of_kline parseFloat k) (candlesticks w))
                     (next_query w))) as Hprice.
    destruct (updateCurrentPrice _ _ _ _ _ _ _) as [[[]|error|] w'];
      cbn [snd] in *; exact Hprice. }
  rewrite Hafter. split; [done|]. split; [|split].
  - unfold insert_on_conflict. change (openTime (candle_of_kline _ k)) with (k_t k).
    destruct (candlesticks w !! (token, "5m", k_t k)) as [stored|] eqn:E.
    + destruct (r_close_time stored <? _); [by rewrite lookup_insert_eq | by rewrite E].
    + by rewrite lookup_insert_eq.
  - intros t timeframe open_time Hne. apply insert_on_conflict_other. congruence.
  - apply allStreams_subscribed.
Qed.

End StreamProperties.

Lemma on_message_stores_under_5m_witness :
  k_i hour_kline = "1h"
  /\ select_open_time "ETH" "5m"
       (candlesticks
          (snd (on_message no_fault read_decimal no_change first_tie
                  (at_time 5 30)
                  (Some (Some hour_event)) empty_world)))
     = [at_time 5 0]
  /\ select_open_time "ETH" "1h"
       (candlesticks
          (snd (on_message no_fault read_decimal no_change first_tie
                  (at_time 5 30)
                  (Some (Some hour_event)) empty_world)))
     = [].
Proof.
  destruct (on_message_stores_under_5m no_fault read_decimal no_change first_tie
              (at_time 5 30) hour_event hour_kline "ETH" empty_world)
    as (Hafter & _).
  - reflexivity.
  - reflexivity.
  - vm_compute. reflexivity.
  - reflexivity.
  - rewrite Hafter. split; [reflexivity|]. split; vm_compute; reflexivity.
Defined.

(** * Further properties *)

(** ** The candle store: repeated, reordered and interleaved writes *)

Section StoreAlgebra.

Implicit Types (token timeframe : string) (candle : Candle) (w : World).
Implicit Types (tbl : Table) (stored : Row) (key : Key).

(** After a write the row under the key of the candle closes no earlier than
    the candle. *)
Lemma insert_on_conflict_closes token timeframe candle tbl :
  exists row,
    insert_on_conflict token timeframe candle tbl
      !! (token, timeframe, openTime candle) = Some row
    /\ closeTime candle <= r_close_time row.
Proof.
  destruct (tbl !! (token, timeframe, openTime candle)) as [stored|] eqn:E.
  - destruct (Z.lt_ge_cases (r_close_time stored) (closeTime candle)) as [Hlt|Hge].
    + rewrite (insert_on_conflict_newer _ _ _ _ _ E Hlt), lookup_insert_eq.
      eexists; split; [done|]. cbn. lia.
    + rewrite (insert_on_conflict_stale _ _ _ _ _ E Hge), E. by eexists.
  - rewrite insert_on_conflict_fresh, lookup_insert_eq by done.
    eexists; split; [done|]. cbn. lia.
Qed.

Lemma insert_on_conflict_idem token timeframe candle tbl :
  insert_on_conflict token timeframe candle
    (insert_on_conflict token timeframe candle tbl)
  = insert_on_conflict token timeframe candle tbl.
Proof.
  destruct (insert_on_conflict_closes token timeframe candle tbl)
    as (row & Hrow & Hle).
  by apply insert_on_conflict_stale with row.
Qed.

Lemma insert_on_conflict_lookup_other token timeframe candle tbl key :
  key <> (token, timeframe, openTime candle) ->
  insert_on_conflict token timeframe candle tbl !! key = tbl !! key.
Proof.
  intros Hne. unfold insert_on_conflict.
  destruct (tbl !! (token, timeframe, openTime candle)) as [stored|] eqn:E.
  - destruct (r_close_time stored <? closeTime candle); [|done].
    by rewrite lookup_insert_ne.
  - by rewrite lookup_insert_ne.
Qed.

(** The row under the key of the candle after the write depends on the table
    through the row that was under that key only. *)
Lemma insert_on_conflict_lookup_same token timeframe candle tbl :
  insert_on_conflict token timeframe candle tbl
    !! (token, timeframe, openTime candle)
  = Some match tbl !! (token, timeframe, openTime candle) with
         | None => excluded candle
         | Some stored =>
             if r_close_time stored <? closeTime candle
             then do_update stored (excluded candle)
             else stored
         end.
Proof.
  unfold insert_on_conflict.
  destruct (tbl !! (token, timeframe, openTime candle)) as [stored|] eqn:E.
  - destruct (r_close_time stored <? closeTime candle);
      [by rewrite lookup_insert_eq | done].
  - by rewrite lookup_insert_eq.
Qed.

Lemma insert_on_conflict_comm token1 timeframe1 candle1 token2 timeframe2
    candle2 tbl :
  (token1, timeframe1, openTime candle1)
  <> (token2, timeframe2, openTime candle2) ->
  insert_on_conflict token1 timeframe1 candle1
    (insert_on_conflict token2 timeframe2 candle2 tbl)
  = insert_on_conflict token2 timeframe2 candle2
      (insert_on_conflict token1 timeframe1 candle1 tbl).
Proof.
  intros Hne. apply map_eq. intros key.
  destruct (decide (key = (token1, timeframe1, openTime candle1))) as [->|H1].
  { rewrite insert_on_conflict_lookup_same.
    rewrite !(insert_on_conflict_lookup_other token2) by done.
    by rewrite insert_on_conflict_lookup_same. }
  destruct (decide (key = (token2, timeframe2, openTime candle2))) as [->|H2].
  { rewrite (insert_on_conflict_lookup_other token1) by done.
    rewrite !insert_on_conflict_lookup_same.
    by rewrite (insert_on_conflict_lookup_other token1) by done. }
  by rewrite !insert_on_conflict_lookup_other.
Qed.

Lemma insert_on_conflict_grows token timeframe candle tbl :
  table_grows tbl (insert_on_conflict token timeframe candle tbl).
Proof.
  intros key r Hr.
  destruct (decide (key = (token, timeframe, openTime candle))) as [->|Hne].
  - rewrite insert_on_conflict_lookup_same, Hr.
    eexists; split; [done|].
    destruct (Z.ltb_spec (r_close_time r) (closeTime candle));
      unfold row_grows; cbn; lia.
  - rewrite insert_on_conflict_lookup_other by done.
    exists r. split; [done|]. unfold row_grows. lia.
Qed.

Lemma table_grows_refl tbl : table_grows tbl tbl.
Proof. intros key r Hr. exists r. split; [done|]. unfold row_grows. lia. Qed.

Lemma table_grows_trans tbl1 tbl2 tbl3 :
  table_grows tbl1 tbl2 -> table_grows tbl2 tbl3 -> table_grows tbl1 tbl3.
Proof.
  intros H12 H23 key r Hr.
  destruct (H12 key r Hr) as (r2 & Hr2 & Hg2).
  destruct (H23 key r2 Hr2) as (r3 & Hr3 & Hg3).
  exists r3. split; [done|]. unfold row_grows in *. lia.
Qed.

End StoreAlgebra.

Section StoreWrites.

Variable pool_fault : nat -> option string.

Implicit Types (token timeframe : string) (candle : Candle) (w : World).
Implicit Types (candles : list Candle).

Lemma foldl_as_foldr {A B} (f : A -> B -> A) (a : A) (l : list B) :
  foldl f a l = foldr (fun x acc => f acc x) a (reverse l).
Proof.
  revert a. induction l as [|x l IH]; intros a; [done|].
  rewrite reverse_cons, foldr_app. cbn [foldl foldr]. apply IH.
Qed.

(** X1. Once a candle has been written, a delivery for the same key that
    closes no later (a duplicate or a stale event, whatever it carries) leaves
    the table as the first write left it. *)
Theorem saveCandle_redelivery token timeframe candle stale w :
  pool_fault (queries w) = None ->
  pool_fault (S (queries w)) = None ->
  openTime stale = openTime candle ->
  closeTime stale <= closeTime candle ->
  fst (saveAll pool_fault token timeframe [candle; stale] w) = Ok tt
  /\ candlesticks (snd (saveAll pool_fault token timeframe [candle; stale] w))
     = candlesticks (snd (saveCandle pool_fault token timeframe candle w)).
Proof.
  intros Hq1 Hq2 Hkey Hle. cbn [saveAll]. unfold bind.
  rewrite (saveCandle_executes _ _ _ _ _ Hq1).
  rewrite saveCandle_executes by done. cbn.
  split; [done|].
  destruct (insert_on_conflict_closes token timeframe candle (candlesticks w))
    as (row & Hrow & Hclose).
  apply insert_on_conflict_stale with row; [by rewrite Hkey | lia].
Qed.

(** X2. On a healthy pool, candles with pairwise distinct openTimes can be
    written in any order: every ordering of them leaves the same table. *)
Theorem saveAll_distinct_any_order token timeframe candles1 candles2 w :
  healthy pool_fault ->
  NoDup (openTime <$> candles1) ->
  candles1 ≡ₚ candles2 ->
  fst (saveAll pool_fault token timeframe candles2 w) = Ok tt
  /\ candlesticks (snd (saveAll pool_fault token timeframe candles1 w))
     = candlesticks (snd (saveAll pool_fault token timeframe candles2 w)).
Proof.
  intros Hh Hnd Hperm. rewrite !saveAll_healthy by done. cbn [fst snd].
  split; [done|]. cbn. rewrite !foldl_as_foldr.
  apply (foldr_permutation (=)
           (fun candle tbl => insert_on_conflict token timeframe candle tbl)).
  - solve_proper.
  - intros j1 a1 j2 a2 tbl Hj H1 H2.
    apply insert_on_conflict_comm. intros [= Heq].
    apply Hj.
    apply reverse_lookup_Some in H1 as [H1 Hl1].
    apply reverse_lookup_Some in H2 as [H2 Hl2].
    assert (Hi : (length candles1 - S j1)%nat = (length candles1 - S j2)%nat).
    { eapply NoDup_lookup; [exact Hnd|..];
        rewrite list_lookup_fmap; [by rewrite H1 | by rewrite H2, Heq]. }
    lia.
  - by rewrite !reverse_Permutation.
Qed.

End StoreWrites.

Lemma saveCandle_redelivery_witness :
  candlesticks
    (snd (saveAll no_fault "BTC" "5m" [first100; at_close 500 later150]
            empty_world))
  = candlesticks (snd (saveCandle no_fault "BTC" "5m" first100 empty_world)).
Proof.
  apply (saveCandle_redelivery no_fault "BTC" "5m" first100
           (at_close 500 later150) empty_world).
  - reflexivity.
  - reflexivity.
  - reflexivity.
  - vm_compute. discriminate.
Defined.

Lemma saveAll_distinct_any_order_witness :
  candlesticks
    (snd (saveAll no_fault "BTC" "1h"
            [hour_candle (at_time 1 0); hour_candle (at_time 2 0)] sparse))
  = candlesticks
      (snd (saveAll no_fault "BTC" "1h"
              [hour_candle (at_time 2 0); hour_candle (at_time 1 0)] sparse)).
Proof.
  apply (saveAll_distinct_any_order no_fault "BTC" "1h"
           [hour_candle (at_time 1 0); hour_candle (at_time 2 0)]
           [hour_candle (at_time 2 0); hour_candle (at_time 1 0)] sparse).
  - intros n. reflexivity.
  - apply NoDup_cons. split.
    + intros Hin%list_elem_of_singleton. vm_compute in Hin. discriminate Hin.
    + apply NoDup_singleton.
  - apply perm_swap.
Defined.

(** ** What a backfill pass can do to the table *)

Section TableFrame.

(** A relation between the table before and after that every executed write
    respects. *)
Variable R : Table -> Table -> Prop.
Hypothesis R_refl : forall tbl, R tbl tbl.
Hypothesis R_trans : forall tbl1 tbl2 tbl3, R tbl1 tbl2 -> R tbl2 tbl3 -> R tbl1 tbl3.
Hypothesis R_write :
  forall token timeframe candle tbl,
    R tbl (insert_on_conflict token timeframe candle tbl).

Variable pool_fault : nat -> option string.
Variable fetchKlines :
  string -> string -> Z -> Z -> Z -> nat -> Error + list Candle.
Variable marketConfig : MarketConfig.

Implicit Types (symbol token timeframe : string) (w : World) (fs : FillState).

Lemma saveCandle_respects token timeframe (candle : Candle) w :
  R (candlesticks w)
    (candlesticks (snd (saveCandle pool_fault token timeframe candle w))).
Proof.
  destruct (saveCandle_cases pool_fault token timeframe candle w)
    as [[msg ->]| ->]; cbn; [apply R_refl | apply R_write].
Qed.

Lemma saveAll_respects token timeframe (klines : list Candle) w :
  R (candlesticks w)
    (candlesticks (snd (saveAll pool_fault token timeframe klines w))).
Proof.
  revert w. induction klines as [|kline rest IH]; intros w; [apply R_refl|].
  cbn [saveAll]. unfold bind.
  pose proof (saveCandle_respects token timeframe kline w) as Hk.
  destruct (saveCandle pool_fault token timeframe kline w) as [[[]|error|] w'];
    cbn [snd] in *; [|done..].
  eapply R_trans; [exact Hk | apply IH].
Qed.

Lemma fillPages_respects budget symbol token timeframe maxCandles gap_end
    currentStart fs :
  R (candlesticks (world fs))
    (candlesticks
       (world (snd (fillPages pool_fault fetchKlines budget symbol token
                      timeframe maxCandles gap_end currentStart fs)))).
Proof.
  revert currentStart fs. induction budget as [|budget IH]; intros currentStart fs.
  { cbn [fillPages]. destruct (currentStart <? gap_end); cbn; apply R_refl. }
  destruct (Z.lt_ge_cases currentStart gap_end) as [Hlt|Hge];
    [|rewrite fillPages_done by done; apply R_refl].
  destruct (fetchKlines symbol timeframe (Z.min maxCandles 1000) currentStart
              gap_end (requests (world fs))) as [error|klines] eqn:Hfetch.
  { rewrite (fillPages_rejected _ _ _ _ _ _ _ _ _ _ _ Hlt Hfetch). cbn.
    apply R_refl. }
  destruct (last klines) as [lastKline|] eqn:Hlast.
  - rewrite (fillPages_page _ _ _ _ _ _ _ _ _ _ _ _ Hlt Hfetch Hlast).
    pose proof (saveAll_respects token timeframe klines
                  (next_request (world fs))) as Hk.
    destruct (saveAll pool_fault token timeframe klines
                (next_request (world fs))) as [[[]|error|] w'];
      cbn [snd world] in *; [|done..].
    eapply R_trans; [exact Hk|].
    match goal with |- context [fillPages _ _ _ _ _ _ _ _ ?c ?s] =>
      apply (IH c s) end.
  - apply last_None in Hlast as ->.
    rewrite (fillPages_empty _ _ _ _ _ _ _ _ _ _ Hlt Hfetch). cbn.
    apply R_refl.
Qed.

Lemma fillEach_respects budget symbol token timeframe maxCandles gaps fs :
  R (candlesticks (world fs))
    (candlesticks
       (world (snd (fillEach pool_fault fetchKlines budget symbol token
                      timeframe maxCandles gaps fs)))).
Proof.
  revert fs. induction gaps as [|gap rest IH]; intros fs; [apply R_refl|].
  rewrite fillEach_cons.
  pose proof (fillPages_respects budget symbol token timeframe maxCandles
                (end_ gap) (start gap) fs) as Hp.
  destruct (fillPages pool_fault fetchKlines budget symbol token timeframe
              maxCandles (end_ gap) (start gap) fs) as [[[]|e|] fs'];
    cbn [snd] in *; [| |done].
  - eapply R_trans; [exact Hp | apply IH].
  - eapply R_trans; [exact Hp|].
    match goal with |- context [fillEach _ _ _ _ _ _ _ _ ?s] =>
      apply (IH s) end.
Qed.

Lemma findDataGaps_cases now token timeframe w :
  (exists msg,
     findDataGaps pool_fault now token timeframe w
     = (Throw {| message := msg |}, next_query w))
  \/ findDataGaps pool_fault now token timeframe w
     = (Ok (gapsOfRows timeframe
              (select_open_time token timeframe (candlesticks w)) now),
        next_query w).
Proof.
  unfold findDataGaps, bind, pool_query.
  destruct (pool_fault (queries w)) as [msg|]; [left; by exists msg | by right].
Qed.

Lemma fillFound_respects budget symbol token timeframe maxCandles
    (gaps : list Gap) w :
  R (candlesticks w)
    (candlesticks
       (snd (fillFound pool_fault fetchKlines budget symbol token timeframe
               maxCandles gaps w))).
Proof.
  unfold fillFound. destruct gaps as [|gap rest]; [apply R_refl|].
  pose proof (fillEach_respects budget symbol token timeframe maxCandles
                (gap :: rest) {| world := w; filled := 0; errs := [] |}) as He.
  by destruct (fillEach _ _ _ _ _ _ _ _ _) as [settled fs].
Qed.

Lemma fillGaps_respects budget now token timeframe maxCandles w :
  R (candlesticks w)
    (candlesticks
       (snd (fillGaps pool_fault fetchKlines marketConfig budget now token
               timeframe maxCandles w))).
Proof.
  unfold fillGaps. destruct (symbol_of marketConfig token) as [symbol|];
    [|apply R_refl].
  unfold bind.
  destruct (findDataGaps_cases now token timeframe w) as [[msg ->]| ->];
    [apply R_refl|].
  apply (fillFound_respects budget symbol token timeframe maxCandles _
           (next_query w)).
Qed.

(** A call, and the promise it leaves from whatever world it is resumed
    in. *)
Lemma call_fillGaps_respects budget now token timeframe maxCandles w :
  R (candlesticks w)
    (candlesticks
       (snd (call_fillGaps pool_fault fetchKlines marketConfig budget now token
               timeframe maxCandles w)))
  /\ forall w',
       R (candlesticks w')
         (candlesticks
            (snd (fst (call_fillGaps pool_fault fetchKlines marketConfig budget
                         now token timeframe maxCandles w) w'))).
Proof.
  unfold call_fillGaps. destruct (symbol_of marketConfig token) as [symbol|].
  - destruct (findDataGaps_cases now token timeframe w) as [[msg ->]| ->];
      cbn [fst snd]; (split; [apply R_refl|]); intros w';
      unfold bind, resumed; [apply R_refl | apply fillFound_respects].
  - cbn [fst snd]. split; [apply R_refl|]. intros w'. apply fillGaps_respects.
Qed.

Lemma fillPair_respects budget now pair w :
  R (candlesticks w)
    (candlesticks
       (snd (fillPair pool_fault fetchKlines marketConfig budget now pair w)))
  /\ forall w',
       R (candlesticks w')
         (candlesticks
            (snd (fst (fillPair pool_fault fetchKlines marketConfig budget now
                         pair w) w'))).
Proof.
  unfold fillPair.
  destruct (call_fillGaps_respects budget now (fst pair) (snd pair) 1000 w)
    as [Hcall Hpromise].
  destruct (call_fillGaps _ _ _ _ _ _ _ _ w) as [promise w1].
  cbn [fst snd] in *. split; [done|]. intros w'.
  unfold try_catch, bind. specialize (Hpromise w').
  by destruct (promise w') as [[result|error|] w2].
Qed.

Lemma call_each_respects budget now (ps : list (string * string)) w :
  R (candlesticks w)
    (candlesticks
       (snd (call_each
               (map (fillPair pool_fault fetchKlines marketConfig budget now)
                    ps) w)))
  /\ Forall (fun promise : M World PairResult =>
               forall w', R (candlesticks w') (candlesticks (snd (promise w'))))
       (fst (call_each
               (map (fillPair pool_fault fetchKlines marketConfig budget now)
                    ps) w)).
Proof.
  revert w. induction ps as [|pair rest IH]; intros w.
  { cbn. split; [apply R_refl | constructor]. }
  cbn [map call_each].
  destruct (fillPair_respects budget now pair w) as [Hcall Hpromise].
  destruct (fillPair _ _ _ _ _ pair w) as [promise w1]. cbn [fst snd] in *.
  destruct (IH w1) as [Hcalls Hpromises].
  destruct (call_each _ w1) as [promises w2]. cbn [fst snd] in *.
  split; [by eapply R_trans | by constructor].
Qed.

Lemma promise_all_respects {A} (promises : list (M World A)) w :
  Forall (fun promise : M World A =>
            forall w', R (candlesticks w') (candlesticks (snd (promise w'))))
         promises ->
  R (candlesticks w) (candlesticks (snd (promise_all promises w))).
Proof.
  intros Hall. revert w.
  induction Hall as [|promise rest Hp _ IH]; intros w; [apply R_refl|].
  cbn [promise_all]. unfold bind. specialize (Hp w).
  destruct (promise w) as [[a|error|] w1]; cbn [snd] in *; [|done..].
  specialize (IH w1).
  destruct (promise_all rest w1) as [[others|error|] w2]; cbn [snd] in *;
    by eapply R_trans.
Qed.

Lemma fillAllGaps_respects budget now (m : Manager) :
  R (candlesticks (outside m))
    (candlesticks
       (outside (snd (fillAllGaps pool_fault fetchKlines marketConfig budget
                        now m)))).
Proof.
  unfold fillAllGaps, enter. destruct (isFillingGaps m); [apply R_refl|].
  cbn [outside].
  destruct (call_each_respects budget now (pairs marketConfig) (outside m))
    as [Hcalls Hpromises].
  destruct (call_each _ (outside m)) as [promises w1]. cbn [fst snd] in *.
  pose proof (promise_all_respects promises w1 Hpromises) as Hp.
  destruct (promise_all promises w1) as [[results|error|] w'];
    cbn [snd outside leave] in *; by eapply R_trans.
Qed.

End TableFrame.

Section BackfillFrame.

Variable pool_fault : nat -> option string.
Variable fetchKlines :
  string -> string -> Z -> Z -> Z -> nat -> Error + list Candle.
Variable marketConfig : MarketConfig.

(** X3. Whatever the pool and the upstream do, a call to [fillGaps] and a
    whole pass of [fillAllGaps] lose no stored row and never take one back:
    its open is kept, its high is not lowered, its low is not raised and its
    closeTime does not move back. *)
Theorem backfill_never_regresses budget now token timeframe maxCandles w
    (m : Manager) (key : Key) row :
  (candlesticks w !! key = Some row ->
   exists row',
     candlesticks
       (snd (fillGaps pool_fault fetchKlines marketConfig budget now token
               timeframe maxCandles w)) !! key = Some row'
     /\ r_open row' = r_open row
     /\ r_high row <= r_high row'
     /\ r_low row' <= r_low row
     /\ r_close_time row <= r_close_time row')
  /\ (candlesticks (outside m) !! key = Some row ->
      exists row',
        candlesticks
          (outside (snd (fillAllGaps pool_fault fetchKlines marketConfig budget
                           now m))) !! key = Some row'
        /\ r_open row' = r_open row
        /\ r_high row <= r_high row'
        /\ r_low row' <= r_low row
        /\ r_close_time row <= r_close_time row').
Proof.
  split; intros Hrow.
  - by apply (fillGaps_respects table_grows table_grows_refl table_grows_trans
                insert_on_conflict_grows pool_fault fetchKlines marketConfig
                budget now token timeframe maxCandles w key row).
  - by apply (fillAllGaps_respects table_grows table_grows_refl
                table_grows_trans insert_on_conflict_grows pool_fault
                fetchKlines marketConfig budget now m key row).
Qed.

End BackfillFrame.

Lemma backfill_never_regresses_witness :
  exists row',
    candlesticks
      (snd (fillGaps no_fault limited_upstream MARKET_CONFIG 5 (at_time 6 0)
              "BTC" "1h" 1000 sparse))
      !! ("BTC", "1h", at_time 3 0) = Some row'
    /\ r_open row' = 42000
    /\ 42500 <= r_high row'.
Proof.
  destruct (backfill_never_regresses no_fault limited_upstream MARKET_CONFIG 5
              (at_time 6 0) "BTC" "1h" 1000 sparse busy
              ("BTC", "1h", at_time 3 0) (excluded (hour_candle (at_time 3 0))))
    as [Hfill _].
  destruct Hfill as (row' & Hrow & Hopen & Hhigh & _).
  - vm_compute. reflexivity.
  - exists row'. split; [exact Hrow|]. split; [exact Hopen | exact Hhigh].
Defined.

(** ** Gap detection: the empty series, the complete series, order and
    soundness *)

Section GapShape.

Variable pool_fault : nat -> option string.

Implicit Types (token timeframe : string) (w : World) (tbl : Table).
Implicit Types (rows : list Z) (now d : Z) (g : Gap).

(** X4. On a series with no stored candle [findDataGaps] returns exactly one
    gap, which ends now and reaches back 288 five-minute intervals, 168 hourly
    intervals, or 90 daily intervals for any other timeframe. *)
Theorem findDataGaps_bootstrap now token timeframe w :
  pool_fault (queries w) = None ->
  select_open_time token timeframe (candlesticks w) = [] ->
  fst (findDataGaps pool_fault now token timeframe w)
  = Ok [ {| start := now - bootstrap_intervals timeframe * intervalMs timeframe;
            end_ := now;
            missingIntervals := bootstrap_intervals timeframe |} ].
Proof.
  intros Hq Hrows. rewrite (findDataGaps_executes _ _ _ _ _ Hq), Hrows.
  cbn [fst]. unfold gapsOfRows. cbn [last]. do 3 f_equal.
  - unfold startTime, bootstrap_intervals, intervalMs.
    repeat case_decide; lia.
  - unfold startTime, bootstrap_intervals, intervalMs.
    repeat case_decide;
      match goal with |- (now - (now - ?c)) / _ = _ =>
        replace (now - (now - c)) with c by lia end; reflexivity.
Qed.

Lemma gapsBetween_source d rows g :
  g ∈ gapsBetween d rows ->
  exists before prev curr after,
    rows = before ++ prev :: curr :: after
    /\ prev + d < curr
    /\ start g = prev + d
    /\ end_ g = curr - d.
Proof.
  induction rows as [|prev rows IH]; [cbn; by intros ?%elem_of_nil|].
  destruct rows as [|curr rows]; [cbn; by intros ?%elem_of_nil|].
  rewrite gapsBetween_cons2. intros [Hin|Hin]%elem_of_app.
  - destruct (Z.ltb_spec (prev + d) curr); [|by apply elem_of_nil in Hin].
    apply list_elem_of_singleton in Hin as ->.
    by exists [], prev, curr, rows.
  - destruct (IH Hin) as (before & p & c & after & -> & ? & ? & ?).
    by exists (prev :: before), p, c, after.
Qed.

Lemma gapsBetween_nil d rows :
  gapsBetween d rows = []
  <-> forall before prev curr after,
        rows = before ++ prev :: curr :: after -> curr <= prev + d.
Proof.
  split.
  - intros Hnil before prev curr after -> .
    destruct (Z.le_gt_cases curr (prev + d)) as [|Hgt]; [done|].
    pose proof (gapsBetween_emits d before prev curr after) as Hin.
    rewrite Hnil in Hin. exfalso. eapply elem_of_nil, Hin. lia.
  - intros Hall. destruct (gapsBetween d rows) as [|g gaps] eqn:E; [done|].
    assert (Hg : g ∈ gapsBetween d rows) by (rewrite E; by left).
    apply gapsBetween_source in Hg
      as (before & prev & curr & after & Hrows & Hlt & _).
    specialize (Hall _ _ _ _ Hrows). lia.
Qed.

(** X5. [findDataGaps] reports no gap exactly when the series has a stored
    candle, no two consecutive stored openTimes are more than one interval
    apart, and now is at most two intervals after the last stored openTime. *)
Theorem findDataGaps_complete_iff now token timeframe w :
  pool_fault (queries w) = None ->
  fst (findDataGaps pool_fault now token timeframe w) = Ok []
  <-> select_open_time token timeframe (candlesticks w) <> []
      /\ (forall before prev curr after,
            select_open_time token timeframe (candlesticks w)
            = before ++ prev :: curr :: after ->
            curr <= prev + intervalMs timeframe)
      /\ (forall lastTime,
            last (select_open_time token timeframe (candlesticks w))
            = Some lastTime ->
            now <= lastTime + 2 * intervalMs timeframe).
Proof.
  intros Hq. rewrite (findDataGaps_executes _ _ _ _ _ Hq). cbn [fst].
  set (rows := select_open_time token timeframe (candlesticks w)).
  set (d := intervalMs timeframe).
  unfold gapsOfRows. fold rows. fold d.
  destruct (last rows) as [lastTime|] eqn:Hlast.
  - assert (Hne : rows <> []) by (intros E; by rewrite E in Hlast).
    unfold gapToNow. split.
    + intros [= Hgaps]. apply app_eq_nil in Hgaps as [Hbetween Hnow].
      split; [done|]. split; [by apply gapsBetween_nil|].
      intros ? [= <-].
      destruct (Z.ltb_spec (lastTime + d + d) now); [done | lia].
    + intros (_ & Hpairs & Hnow). specialize (Hnow lastTime eq_refl).
      apply gapsBetween_nil in Hpairs. rewrite Hpairs.
      by destruct (Z.ltb_spec (lastTime + d + d) now); [lia|].
  - apply last_None in Hlast. split; [done|]. by intros [? _].
Qed.

(** In a strictly ascending series nothing lies between two neighbours. *)
Lemma ascending_neighbours rows before prev curr after t :
  StronglySorted Z.lt rows ->
  rows = before ++ prev :: curr :: after ->
  t ∈ rows ->
  t <= prev \/ curr <= t.
Proof.
  intros Hs -> Hin.
  apply StronglySorted_app in Hs as (Hcross & _ & Hs).
  apply StronglySorted_inv in Hs as [Hs Hprev].
  apply StronglySorted_inv in Hs as [_ Hcurr].
  rewrite Forall_forall in Hprev, Hcurr.
  apply elem_of_app in Hin as [Hin|Hin].
  - left. specialize (Hcross t prev Hin). apply Z.lt_le_incl, Hcross. by left.
  - apply elem_of_cons in Hin as [->|Hin]; [left; lia|].
    apply elem_of_cons in Hin as [->|Hin]; [right; lia|].
    right. specialize (Hcurr t Hin). lia.
Qed.

Lemma ascending_last rows lastTime t :
  StronglySorted Z.lt rows ->
  last rows = Some lastTime ->
  t ∈ rows ->
  t <= lastTime.
Proof.
  intros Hs. revert lastTime t.
  induction Hs as [|x l Hl IH Hx]; intros lastTime t Hlast Hin; [done|].
  destruct l as [|y l].
  - cbn in Hlast. injection Hlast as <-.
    apply list_elem_of_singleton in Hin as ->. lia.
  - rewrite last_cons_cons in Hlast.
    apply elem_of_cons in Hin as [->|Hin]; [|by apply IH].
    rewrite Forall_forall in Hx.
    assert (y <= lastTime) by (apply IH; [done | by left]).
    assert (x < y) by (apply Hx; by left). lia.
Qed.

(** X6. No stored candle lies within a reported gap: for every gap that
    [findDataGaps] returns and every stored openTime of the series, the
    openTime is before the start of the gap or after its end. *)
Theorem findDataGaps_gaps_are_empty now token timeframe w gaps g t :
  pool_fault (queries w) = None ->
  fst (findDataGaps pool_fault now token timeframe w) = Ok gaps ->
  g ∈ gaps ->
  t ∈ select_open_time token timeframe (candlesticks w) ->
  t < start g \/ end_ g < t.
Proof.
  intros Hq. rewrite (findDataGaps_executes _ _ _ _ _ Hq). cbn [fst].
  intros [= <-] Hg Ht.
  pose proof (select_open_time_ascending token timeframe (candlesticks w))
    as Hsorted.
  pose proof (intervalMs_pos timeframe) as Hd.
  set (rows := select_open_time token timeframe (candlesticks w)) in *.
  unfold gapsOfRows in Hg.
  destruct (last rows) as [lastTime|] eqn:Hlast.
  - apply elem_of_app in Hg as [Hg|Hg].
    + apply gapsBetween_source in Hg
        as (before & prev & curr & after & Hrows & Hlt & -> & ->).
      destruct (ascending_neighbours rows before prev curr after t Hsorted
                  Hrows Ht); [left | right]; lia.
    + unfold gapToNow in Hg.
      destruct (_ <? now); [|by apply elem_of_nil in Hg].
      apply list_elem_of_singleton in Hg as ->. cbn. left.
      pose proof (ascending_last rows lastTime t Hsorted Hlast Ht). lia.
  - apply last_None in Hlast. rewrite Hlast in Ht. by apply elem_of_nil in Ht.
Qed.

Lemma gapsBetween_starts d rows :
  0 < d ->
  StronglySorted Z.lt rows ->
  StronglySorted starts_before (gapsBetween d rows)
  /\ forall g first, head rows = Some first -> g ∈ gapsBetween d rows ->
       first < start g.
Proof.
  intros Hd Hs. induction Hs as [|prev rows Hrows IH Hprev];
    [split; [constructor | done]|].
  destruct rows as [|curr rows];
    [split; [constructor | intros g first _ Hg; by apply elem_of_nil in Hg]|].
  destruct IH as [IHs IHh]. rewrite gapsBetween_cons2.
  rewrite Forall_forall in Hprev.
  assert (prev < curr) by (apply Hprev; by left).
  assert (Hlater : forall g, g ∈ gapsBetween d (curr :: rows) -> curr < start g)
    by (intros g; by apply IHh).
  split.
  - destruct (Z.ltb_spec (prev + d) curr); cbn [app]; [|done].
    constructor; [done|]. apply Forall_forall. intros g Hg.
    unfold starts_before. cbn. specialize (Hlater g Hg). lia.
  - intros g first [= <-] [Hg|Hg]%elem_of_app.
    + destruct (prev + d <? curr); [|by apply elem_of_nil in Hg].
      apply list_elem_of_singleton in Hg as ->. cbn. lia.
    + specialize (Hlater g Hg). lia.
Qed.

(** X7. The gaps [findDataGaps] returns are in chronological order: their
    starts are strictly ascending. *)
Theorem findDataGaps_chronological now token timeframe w gaps :
  pool_fault (queries w) = None ->
  fst (findDataGaps pool_fault now token timeframe w) = Ok gaps ->
  StronglySorted starts_before gaps.
Proof.
  intros Hq. rewrite (findDataGaps_executes _ _ _ _ _ Hq). cbn [fst].
  intros [= <-].
  pose proof (select_open_time_ascending token timeframe (candlesticks w))
    as Hsorted.
  pose proof (intervalMs_pos timeframe) as Hd.
  set (rows := select_open_time token timeframe (candlesticks w)) in *.
  unfold gapsOfRows.
  destruct (last rows) as [lastTime|] eqn:Hlast;
    [|repeat constructor].
  destruct (gapsBetween_starts (intervalMs timeframe) rows Hd Hsorted)
    as [Hs _].
  apply StronglySorted_app_2; [|done|].
  - intros g1 g2 Hg1 Hg2. unfold gapToNow in Hg2.
    destruct (_ <? now); [|by apply elem_of_nil in Hg2].
    apply list_elem_of_singleton in Hg2 as ->. unfold starts_before. cbn.
    apply gapsBetween_source in Hg1
      as (before & prev & curr & after & Hrows & _ & -> & _).
    pose proof (before_last rows before prev curr after lastTime Hsorted Hrows
                  Hlast). lia.
  - unfold gapToNow. destruct (_ <? now); repeat constructor.
Qed.



End GapShape.

Lemma findDataGaps_bootstrap_witness :
  fst (findDataGaps no_fault (at_time 6 0) "BTC" "1h" empty_world)
  = Ok [ {| start := at_time 6 0 - 168 * 3600000; end_ := at_time 6 0;
            missingIntervals := 168 |} ].
Proof.
  rewrite (findDataGaps_bootstrap no_fault (at_time 6 0) "BTC" "1h" empty_world).
  - reflexivity.
  - reflexivity.
  - reflexivity.
Defined.

Lemma findDataGaps_complete_iff_witness :
  fst (findDataGaps no_fault 1000 "BTC" "5m" stored100) = Ok []
  /\ select_open_time "BTC" "5m" (candlesticks stored100) <> [].
Proof.
  assert (Hnone : fst (findDataGaps no_fault 1000 "BTC" "5m" stored100) = Ok [])
    by (vm_compute; reflexivity).
  split; [exact Hnone|].
  destruct (findDataGaps_complete_iff no_fault 1000 "BTC" "5m" stored100)
    as [Hcomplete _]; [reflexivity|].
  destruct (Hcomplete Hnone) as [Hne _]. exact Hne.
Defined.

Lemma findDataGaps_gaps_are_empty_witness :
  at_time 2 0 < at_time 3 0 \/ at_time 3 0 < at_time 2 0.
Proof.
  apply (findDataGaps_gaps_are_empty no_fault (at_time 7 1) "BTC" "1h" hourly
           [ {| start := at_time 3 0; end_ := at_time 3 0;
                missingIntervals := 1 |};
             {| start := at_time 6 0; end_ := at_time 7 1;
                missingIntervals := 1 |} ]
           {| start := at_time 3 0; end_ := at_time 3 0;
              missingIntervals := 1 |}
           (at_time 2 0)).
  - reflexivity.
  - vm_compute. reflexivity.
  - by left.
  - vm_compute. right. right. by left.
Defined.

Lemma findDataGaps_chronological_witness :
  StronglySorted starts_before
    [ {| start := at_time 3 0; end_ := at_time 3 0; missingIntervals := 1 |};
      {| start := at_time 6 0; end_ := at_time 7 1; missingIntervals := 1 |} ].
Proof.
  apply (findDataGaps_chronological no_fault (at_time 7 1) "BTC" "1h" hourly).
  - reflexivity.
  - vm_compute. reflexivity.
Defined.

(** ** Backfill: what [fillGaps] requests, counts and reports *)

Section FillAccounting.

Variable pool_fault : nat -> option string.
Variable fetchKlines :
  string -> string -> Z -> Z -> Z -> nat -> Error + list Candle.
Variable marketConfig : MarketConfig.

Implicit Types (symbol token timeframe : string) (w : World) (fs : FillState).
Implicit Types (gap : Gap) (gaps : list Gap) (budget : nat) (error : Error).

(** A gap that ends at or before its start is passed over. *)
Lemma fillEach_idle budget symbol token timeframe maxCandles gaps fs :
  (forall g, g ∈ gaps -> end_ g <= start g) ->
  fillEach pool_fault fetchKlines budget symbol token timeframe maxCandles
    gaps fs = (Ok tt, fs).
Proof.
  revert fs. induction gaps as [|gap rest IH]; intros fs Hall; [done|].
  rewrite fillEach_cons, fillPages_done by (apply Hall; by left).
  apply IH. intros g Hg. apply Hall. by right.
Qed.

(** X8. Holes of a single interval are detected and never fetched.  When no
    two consecutive stored openTimes are more than two intervals apart and
    now is at most two intervals after the last one, every gap of the series
    ends at or before its start: [fillGaps] sends no request upstream, writes
    nothing and returns zero candles and no error, leaving the same gaps to be
    found by the next pass. *)
Theorem fillGaps_skips_single_holes budget now token timeframe maxCandles w
    symbol :
  symbol_of marketConfig token = Some symbol ->
  pool_fault (queries w) = None ->
  select_open_time token timeframe (candlesticks w) <> [] ->
  (forall before prev curr after,
     select_open_time token timeframe (candlesticks w)
     = before ++ prev :: curr :: after ->
     curr <= prev + 2 * intervalMs timeframe) ->
  (forall lastTime,
     last (select_open_time token timeframe (candlesticks w)) = Some lastTime ->
     now <= lastTime + 2 * intervalMs timeframe) ->
  fillGaps pool_fault fetchKlines marketConfig budget now token timeframe
    maxCandles w
  = (Ok {| candlesFilled := 0; errors := [] |}, next_query w)
  /\ gapsOfRows timeframe
       (select_open_time token timeframe (candlesticks (next_query w))) now
     = gapsOfRows timeframe
         (select_open_time token timeframe (candlesticks w)) now.
Proof.
  intros Hsymbol Hq Hne Hpairs Hnow. split; [|done].
  unfold fillGaps, fillFound. rewrite Hsymbol. unfold bind.
  rewrite (findDataGaps_executes _ _ _ _ _ Hq).
  set (rows := select_open_time token timeframe (candlesticks w)) in *.
  destruct (gapsOfRows timeframe rows now) as [|gap rest] eqn:Hgaps; [done|].
  rewrite fillEach_idle; [done|].
  intros g Hg. rewrite <- Hgaps in Hg. unfold gapsOfRows in Hg.
  destruct (last rows) as [lastTime|] eqn:Hlast;
    [|by apply last_None in Hlast].
  apply elem_of_app in Hg as [Hg|Hg].
  - apply gapsBetween_source in Hg
      as (before & prev & curr & after & Hrows & _ & -> & ->).
    specialize (Hpairs _ _ _ _ Hrows). lia.
  - unfold gapToNow in Hg. specialize (Hnow lastTime eq_refl).
    destruct (Z.ltb_spec (lastTime + intervalMs timeframe
                          + intervalMs timeframe) now); [lia|].
    by apply elem_of_nil in Hg.
Qed.

(** What a batch of writes does to the count of statements. *)
Lemma saveAll_queries token timeframe (klines : list Candle) w :
  (queries w <= queries (snd (saveAll pool_fault token timeframe klines w)))%nat
  /\ (fst (saveAll pool_fault token timeframe klines w) = Ok tt ->
      queries (snd (saveAll pool_fault token timeframe klines w))
      = (queries w + length klines)%nat).
Proof.
  revert w. induction klines as [|kline rest IH]; intros w.
  { cbn. split; [lia | intros _; lia]. }
  cbn [saveAll]. unfold bind.
  destruct (saveCandle_cases pool_fault token timeframe kline w)
    as [[msg ->]| ->].
  - cbn. split; [lia | done].
  - match goal with |- context [saveAll _ _ _ rest ?v] =>
      destruct (IH v) as [Hle Heq] end.
    cbn [queries set_candlesticks next_query] in Hle, Heq.
    split; [lia|]. intros Hok. rewrite (Heq Hok). cbn. lia.
Qed.

(** The page loop counts a candle only after it was sent to the pool, and
    does not touch the errors. *)
Lemma fillPages_counts budget symbol token timeframe maxCandles gap_end
    currentStart fs :
  let fs' :=
    snd (fillPages pool_fault fetchKlines budget symbol token timeframe
           maxCandles gap_end currentStart fs) in
  0 <= filled fs' - filled fs
       <= Z.of_nat (queries (world fs')) - Z.of_nat (queries (world fs))
  /\ (healthy pool_fault ->
      filled fs' - filled fs
      = Z.of_nat (queries (world fs')) - Z.of_nat (queries (world fs))).
Proof.
  revert currentStart fs. induction budget as [|budget IH]; intros currentStart fs.
  { cbn. destruct (currentStart <? gap_end); cbn; split; lia. }
  destruct (Z.lt_ge_cases currentStart gap_end) as [Hlt|Hge];
    [|rewrite fillPages_done by done; cbn; split; lia].
  destruct (fetchKlines symbol timeframe (Z.min maxCandles 1000) currentStart
              gap_end (requests (world fs))) as [error|klines] eqn:Hfetch.
  { rewrite (fillPages_rejected _ _ _ _ _ _ _ _ _ _ _ Hlt Hfetch). cbn.
    split; lia. }
  destruct (last klines) as [lastKline|] eqn:Hlast.
  - rewrite (fillPages_page _ _ _ _ _ _ _ _ _ _ _ _ Hlt Hfetch Hlast).
    destruct (saveAll_queries token timeframe klines (next_request (world fs)))
      as [Hle Heq].
    pose proof (saveAll_settles pool_fault token timeframe klines
                  (next_request (world fs))) as Hsettles.
    pose proof (fun Hh => saveAll_healthy pool_fault token timeframe klines
                            (next_request (world fs)) Hh) as Hhealthy.
    destruct (saveAll pool_fault token timeframe klines
                (next_request (world fs))) as [[[]|error|] w'];
      cbn [fst snd] in *; [| |done].
    + specialize (Heq eq_refl).
      match goal with |- context [fillPages _ _ _ _ _ _ _ _ ?c ?s] =>
        destruct (IH c s) as [Hcount Hexact] end.
      cbn [filled world] in Hcount, Hexact. cbn [next_request queries] in Heq.
      split; [lia|]. intros Hh. specialize (Hexact Hh). lia.
    + cbn [filled world next_request queries] in *.
      split; [lia|]. intros Hh. by specialize (Hhealthy Hh).
  - apply last_None in Hlast as ->.
    rewrite (fillPages_empty _ _ _ _ _ _ _ _ _ _ Hlt Hfetch). cbn.
    split; lia.
Qed.

Lemma fillEach_counts budget symbol token timeframe maxCandles gaps fs :
  let fs' :=
    snd (fillEach pool_fault fetchKlines budget symbol token timeframe
           maxCandles gaps fs) in
  0 <= filled fs' - filled fs
       <= Z.of_nat (queries (world fs')) - Z.of_nat (queries (world fs))
  /\ (length (errs fs') <= length (errs fs) + length gaps)%nat
  /\ (healthy pool_fault ->
      filled fs' - filled fs
      = Z.of_nat (queries (world fs')) - Z.of_nat (queries (world fs))).
Proof.
  revert fs. induction gaps as [|gap rest IH]; intros fs.
  { cbn. split; [lia|]. split; lia. }
  rewrite fillEach_cons.
  destruct (fillPages_counts budget symbol token timeframe maxCandles
              (end_ gap) (start gap) fs) as [Hcount Hexact].
  destruct (fillPages_frame pool_fault fetchKlines budget symbol token timeframe
              maxCandles (end_ gap) (start gap) fs) as [Herrs _].
  destruct (fillPages pool_fault fetchKlines budget symbol token timeframe
              maxCandles (end_ gap) (start gap) fs) as [[[]|e|] fs1];
    cbn [snd] in *.
  - destruct (IH fs1) as (Hc & He & Hx). cbn [length]. rewrite Herrs in He.
    split; [lia|]. split; [lia|]. intros Hh.
    specialize (Hexact Hh). specialize (Hx Hh). lia.
  - match goal with |- context [fillEach _ _ _ _ _ _ _ _ ?s] =>
      destruct (IH s) as (Hc & He & Hx) end.
    cbn [filled world errs] in Hc, He, Hx.
    rewrite length_app in He. rewrite <- Herrs. cbn [length] in *.
    split; [lia|]. split; [lia|]. intros Hh.
    specialize (Hexact Hh). specialize (Hx Hh). lia.
  - cbn [length]. rewrite Herrs. split; [lia|]. split; [lia|]. done.
Qed.

(** X9. The result of [fillGaps] for a configured token reports at most one
    error per detected gap, and counts only candles that were sent to the
    store: [candlesFilled] is at least zero and, with the one statement that
    reads the series, at most the number of statements the call sent to the
    pool; on a pool that rejects nothing the two are equal. *)
Theorem fillGaps_accounting budget now token timeframe maxCandles w symbol
    result :
  symbol_of marketConfig token = Some symbol ->
  fst (fillGaps pool_fault fetchKlines marketConfig budget now token timeframe
         maxCandles w) = Ok result ->
  let w' :=
    snd (fillGaps pool_fault fetchKlines marketConfig budget now token
           timeframe maxCandles w) in
  0 <= candlesFilled result
  /\ candlesFilled result + 1
     <= Z.of_nat (queries w') - Z.of_nat (queries w)
  /\ (length (errors result)
      <= length (gapsOfRows timeframe
                   (select_open_time token timeframe (candlesticks w)) now))%nat
  /\ (healthy pool_fault ->
      Z.of_nat (queries w') = Z.of_nat (queries w) + 1 + candlesFilled result).
Proof.
  intros Hsymbol. unfold fillGaps, fillFound. rewrite Hsymbol. unfold bind.
  destruct (findDataGaps_cases pool_fault now token timeframe w)
    as [[msg ->]| ->]; [done|].
  destruct (gapsOfRows _ _ _) as [|gap rest].
  { cbn. intros [= <-]. cbn. split; [lia|]. split; [lia|]. split; lia. }
  destruct (fillEach_counts budget symbol token timeframe maxCandles
              (gap :: rest)
              {| world := next_query w; filled := 0; errs := [] |})
    as (Hc & He & Hx).
  destruct (fillEach _ _ _ _ _ _ _ _ _) as [[[]|error|] fs]; [|done..].
  cbn [fst snd filled world errs next_query queries length] in *.
  intros [= <-]. cbn [candlesFilled errors].
  split; [lia|]. split; [lia|]. split; [lia|].
  intros Hh. specialize (Hx Hh). lia.
Qed.

End FillAccounting.

Lemma fillGaps_skips_single_holes_witness :
  fst (findDataGaps no_fault (at_time 6 0) "BTC" "1h" hourly)
  = Ok [ {| start := at_time 3 0; end_ := at_time 3 0; missingIntervals := 1 |} ]
  /\ fillGaps no_fault full_upstream MARKET_CONFIG 5 (at_time 6 0) "BTC" "1h"
       1000 hourly
     = (Ok {| candlesFilled := 0; errors := [] |}, next_query hourly).
Proof.
  split; [vm_compute; reflexivity|].
  apply (fillGaps_skips_single_holes no_fault full_upstream MARKET_CONFIG 5
           (at_time 6 0) "BTC" "1h" 1000 hourly "btcusdt").
  - reflexivity.
  - reflexivity.
  - vm_compute. discriminate.
  - intros before prev curr after Hrows.
    change (select_open_time "BTC" "1h" (candlesticks hourly))
      with [at_time 0 0; at_time 1 0; at_time 2 0; at_time 4 0; at_time 5 0]
      in Hrows.
    do 4 (destruct before as [|? before];
          [injection Hrows as <- <- _; vm_compute; discriminate
          |injection Hrows as _ Hrows]).
    by destruct before as [|? [|? ?]].
  - intros lastTime Hlast. vm_compute in Hlast. injection Hlast as <-.
    vm_compute. discriminate.
Defined.

Lemma fillGaps_accounting_witness :
  queries
    (snd (fillGaps no_fault limited_upstream MARKET_CONFIG 5 (at_time 6 0)
            "BTC" "1h" 1000 sparse))
  = 3%nat.
Proof.
  destruct (fillGaps_accounting no_fault limited_upstream MARKET_CONFIG 5
              (at_time 6 0) "BTC" "1h" 1000 sparse "btcusdt"
              {| candlesFilled := 2;
                 errors := ["HTTP 429: Too Many Requests"] |})
    as (_ & _ & _ & Hexact).
  - reflexivity.
  - vm_compute. reflexivity.
  - specialize (Hexact (fun _ => eq_refl)). cbn [candlesFilled] in Hexact.
    change (queries sparse) with 0%nat in Hexact. lia.
Defined.

(** ** Backfill: failures outside the page loop *)

Section FillFailures.

Variable pool_fault : nat -> option string.
Variable fetchKlines :
  string -> string -> Z -> Z -> Z -> nat -> Error + list Candle.
Variable marketConfig : MarketConfig.

Implicit Types (symbol token timeframe : string) (w : World) (m : Manager).

(** A read that the pool rejects leaves [fillGaps] as it is thrown. *)
Lemma fillGaps_read_rejected budget now token timeframe maxCandles w symbol
    msg :
  symbol_of marketConfig token = Some symbol ->
  pool_fault (queries w) = Some msg ->
  fillGaps pool_fault fetchKlines marketConfig budget now token timeframe
    maxCandles w
  = (Throw {| message := msg |}, next_query w).
Proof.
  intros Hsymbol Hfault. unfold fillGaps. rewrite Hsymbol.
  unfold bind, findDataGaps, bind, pool_query. by rewrite Hfault.
Qed.

(** The call of a pair with a symbol submits one statement, the read. *)
Lemma fillPair_submits budget now pair w symbol :
  symbol_of marketConfig (fst pair) = Some symbol ->
  queries (snd (fillPair pool_fault fetchKlines marketConfig budget now pair w))
  = S (queries w).
Proof.
  intros Hsymbol. unfold fillPair, call_fillGaps. rewrite Hsymbol.
  by destruct (findDataGaps_cases pool_fault now (fst pair) (snd pair) w)
    as [[msg ->]| ->].
Qed.

(** When that read is rejected, the promise of the pair is fulfilled with
    the object of its [.catch], whenever it is resumed. *)
Lemma fillPair_read_rejected budget now pair w symbol msg w' :
  symbol_of marketConfig (fst pair) = Some symbol ->
  pool_fault (queries w) = Some msg ->
  fst (fillPair pool_fault fetchKlines marketConfig budget now pair w) w'
  = (Ok (Failed (fst pair) (snd pair) msg), w').
Proof.
  intros Hsymbol Hfault. unfold fillPair, call_fillGaps. rewrite Hsymbol.
  unfold findDataGaps, bind, pool_query. by rewrite Hfault.
Qed.

Lemma fillPair_never_throws budget now pair w w' error :
  fst (fst (fillPair pool_fault fetchKlines marketConfig budget now pair w) w')
  <> Throw error.
Proof.
  unfold fillPair.
  destruct (call_fillGaps _ _ _ _ _ _ _ _ w) as [promise w1]. cbn [fst].
  unfold try_catch, bind. by destruct (promise w') as [[result|e|] w2].
Qed.

Lemma call_each_lookup {A} (calls : list (World -> M World A * World)) w i
    call :
  Forall (fun c : World -> M World A * World =>
            forall w0, queries (snd (c w0)) = S (queries w0)) calls ->
  calls !! i = Some call ->
  exists wi,
    queries wi = (queries w + i)%nat
    /\ fst (call_each calls w) !! i = Some (fst (call wi)).
Proof.
  intros Hall. revert w i.
  induction Hall as [|c rest Hc _ IH]; intros w i Hi; [done|].
  cbn [call_each]. specialize (Hc w).
  destruct (c w) as [promise w1] eqn:Ec. cbn [snd] in Hc.
  destruct i as [|i]; cbn in Hi.
  - injection Hi as <-. exists w. split; [lia|].
    destruct (call_each rest w1) as [promises w2]. cbn. by rewrite Ec.
  - destruct (IH w1 i Hi) as (wi & Hq & Hp). exists wi. split; [lia|].
    by destruct (call_each rest w1) as [promises w2].
Qed.

Lemma promise_all_lookup {A} (promises : list (M World A)) w results w' i
    promise a :
  promise_all promises w = (Ok results, w') ->
  promises !! i = Some promise ->
  (forall w0, fst (promise w0) = Ok a) ->
  results !! i = Some a.
Proof.
  revert w results i. induction promises as [|p rest IH]; intros w results i;
    [done|].
  cbn [promise_all]. unfold bind.
  destruct (p w) as [[b|e|] w1] eqn:Ep; [|done..].
  destruct (promise_all rest w1) as [[others|e|] w2] eqn:Er; [|done..].
  unfold ret. intros [= <- <-] Hi Hp. destruct i as [|i]; cbn in *.
  - injection Hi as <-. specialize (Hp w). rewrite Ep in Hp. cbn in Hp.
    by injection Hp as <-.
  - by eapply IH.
Qed.

Lemma promise_all_never_throws {A} (promises : list (M World A)) w error :
  Forall (fun promise : M World A =>
            forall w0 e, fst (promise w0) <> Throw e) promises ->
  fst (promise_all promises w) <> Throw error.
Proof.
  intros Hall. revert w.
  induction Hall as [|p rest Hp _ IH]; intros w; [done|].
  cbn [promise_all]. unfold bind. specialize (Hp w).
  destruct (p w) as [[a|e|] w1]; cbn [fst] in *; [|by destruct (Hp e)|done].
  specialize (IH w1).
  by destruct (promise_all rest w1) as [[others|e|] w2].
Qed.

Lemma fillPairs_never_throw budget now (ps : list (string * string)) w :
  Forall (fun promise : M World PairResult =>
            forall w0 e, fst (promise w0) <> Throw e)
    (fst (call_each
            (map (fillPair pool_fault fetchKlines marketConfig budget now) ps)
            w)).
Proof.
  revert w. induction ps as [|pair rest IH]; intros w; [constructor|].
  cbn [map call_each].
  pose proof (fillPair_never_throws budget now pair w) as Hp.
  destruct (fillPair _ _ _ _ _ pair w) as [promise w1]. cbn [fst] in Hp.
  specialize (IH w1). destruct (call_each _ w1) as [promises w2].
  cbn [fst] in *. by constructor.
Qed.

Lemma fillAllGaps_never_throws budget now m error :
  fst (fillAllGaps pool_fault fetchKlines marketConfig budget now m)
  <> Throw error.
Proof.
  unfold fillAllGaps, enter. destruct (isFillingGaps m); [done|].
  cbn [outside].
  pose proof (fillPairs_never_throw budget now (pairs marketConfig)
                (outside m)) as Hall.
  destruct (call_each _ (outside m)) as [promises w1]. cbn [fst] in Hall.
  pose proof (promise_all_never_throws promises w1 error Hall) as Hp.
  by destruct (promise_all promises w1) as [[results|e|] w'].
Qed.

(** A call whose promise is resumed at once is [fillGaps] awaited on its
    own. *)
Lemma call_fillGaps_awaited budget now token timeframe maxCandles w :
  fst (call_fillGaps pool_fault fetchKlines marketConfig budget now token
         timeframe maxCandles w)
    (snd (call_fillGaps pool_fault fetchKlines marketConfig budget now token
            timeframe maxCandles w))
  = fillGaps pool_fault fetchKlines marketConfig budget now token timeframe
      maxCandles w.
Proof.
  unfold call_fillGaps, fillGaps.
  destruct (symbol_of marketConfig token) as [symbol|]; [|done].
  unfold bind, resumed.
  by destruct (findDataGaps pool_fault now token timeframe w)
    as [[gaps|error|] w1].
Qed.

(** X10. A rejected read of the series is outside the per-gap [catch]:
    [fillGaps] throws it, without any request upstream.  In a pass every call
    submits its read before any call is resumed, so when every configured
    token has a symbol the read of the pair at position [i] is the statement
    numbered [i] of the pass.  When the pool rejects it, the [.catch] of that
    pair turns the error into [{token, timeframe, error}] at position [i] of
    the results, every pair has its entry, and [fillAllGaps] itself never
    rejects, whatever the pool and the upstream do. *)
Theorem fillAllGaps_isolates_read_failure budget now m i pair msg :
  (forall token,
     token ∈ marketConfig.*1 -> is_Some (symbol_of marketConfig token)) ->
  isFillingGaps m = false ->
  pairs marketConfig !! i = Some pair ->
  pool_fault (queries (outside m) + i) = Some msg ->
  (forall w,
     pool_fault (queries w) = Some msg ->
     fillGaps pool_fault fetchKlines marketConfig budget now (fst pair)
       (snd pair) 1000 w
     = (Throw {| message := msg |}, next_query w))
  /\ (forall error,
        fst (fillAllGaps pool_fault fetchKlines marketConfig budget now m)
        <> Throw error)
  /\ (forall results,
        fst (fillAllGaps pool_fault fetchKlines marketConfig budget now m)
        = Ok results ->
        results !! i = Some (Failed (fst pair) (snd pair) msg)
        /\ length results = length (pairs marketConfig)).
Proof.
  intros Hsymbols Hidle Hpair Hfault.
  assert (Hsymbol : forall p, p ∈ pairs marketConfig ->
            exists symbol, symbol_of marketConfig (fst p) = Some symbol).
  { intros [token timeframe] Hp.
    apply (pairs_product marketConfig) in Hp as [Htoken _].
    by apply Hsymbols. }
  destruct (Hsymbol pair) as [symbol Hs]; [by eapply list_elem_of_lookup_2|].
  split; [|split].
  - intros w Hw. by eapply fillGaps_read_rejected.
  - intros error. apply fillAllGaps_never_throws.
  - unfold fillAllGaps, enter. rewrite Hidle. cbn [outside isFillingGaps].
    set (calls := map (fillPair pool_fault fetchKlines marketConfig budget now)
                      (pairs marketConfig)).
    assert (Hcalls :
      Forall (fun c : World -> M World PairResult * World =>
                forall w0, queries (snd (c w0)) = S (queries w0)) calls).
    { apply Forall_fmap, Forall_forall. intros p Hp w0.
      destruct (Hsymbol p Hp) as [s Hps]. by eapply fillPair_submits. }
    destruct (call_each_lookup calls (outside m) i
                (fillPair pool_fault fetchKlines marketConfig budget now pair)
                Hcalls) as (wi & Hq & Hpromise).
    { unfold calls. by rewrite list_lookup_fmap, Hpair. }
    pose proof (call_each_length calls (outside m)) as Hlen.
    destruct (call_each calls (outside m)) as [promises w1].
    cbn [fst] in Hpromise, Hlen.
    destruct (promise_all promises w1) as [[others|e|] w'] eqn:E;
      cbn [fst]; intros results [= <-].
    split.
    + eapply promise_all_lookup; [exact E | exact Hpromise|].
      intros w0. rewrite (fillPair_read_rejected budget now pair wi symbol msg);
        [done | done |]. by rewrite Hq.
    + apply promise_all_length in E. rewrite E, Hlen. unfold calls.
      by rewrite length_map.
Qed.

Lemma symbol_of_unconfigured (config : MarketConfig) token :
  token ∉ config.*1 -> symbol_of config token = None.
Proof.
  intros Hnot. unfold symbol_of.
  destruct (List.find _ config) as [[t s]|] eqn:E; [|done].
  apply find_some in E as [Hin Heq]. cbn in Heq.
  apply String.eqb_eq in Heq as ->. exfalso. apply Hnot.
  apply list_elem_of_fmap. exists (token, s). split; [done|].
  by apply list_elem_of_In.
Qed.

(** X11. For a token that is not configured [fillGaps] touches nothing: no
    statement goes to the pool, no request upstream, and the result is zero
    candles with the single error ['Unknown token: <token>']. *)
Theorem fillGaps_unknown_token budget now token timeframe maxCandles w :
  token ∉ marketConfig.*1 ->
  fillGaps pool_fault fetchKlines marketConfig budget now token timeframe
    maxCandles w
  = (Ok {| candlesFilled := 0; errors := ["Unknown token: " +:+ token] |}, w).
Proof.
  intros Hnot. unfold fillGaps, fillFound. by rewrite symbol_of_unconfigured.
Qed.

End FillFailures.

Lemma fillAllGaps_isolates_read_failure_witness :
  exists results,
    fst (fillAllGaps second_faults full_upstream MARKET_CONFIG 5 (at_time 3 30)
           idle) = Ok results
    /\ results !! 1%nat = Some (Failed "BTC" "1h" "Database error")
    /\ length results = 12%nat.
Proof.
  destruct (fillAllGaps_isolates_read_failure second_faults full_upstream
              MARKET_CONFIG 5 (at_time 3 30) idle 1 ("BTC", "1h")
              "Database error") as (_ & _ & Hresults).
  - intros token Htoken. vm_compute in Htoken.
    repeat (apply elem_of_cons in Htoken as [->|Htoken]; [by eexists|]).
    by apply elem_of_nil in Htoken.
  - reflexivity.
  - reflexivity.
  - reflexivity.
  - destruct (fst (fillAllGaps second_faults full_upstream MARKET_CONFIG 5
                     (at_time 3 30) idle)) as [results|error|] eqn:E;
      [|vm_compute in E; discriminate E..].
    exists results. destruct (Hresults results eq_refl) as [Hentry Hlength].
    split; [reflexivity|]. split; [exact Hentry | exact Hlength].
Defined.

Lemma fillGaps_unknown_token_witness :
  fillGaps no_fault full_upstream MARKET_CONFIG 5 (at_time 3 30) "DOGE" "1h"
    1000 sparse
  = (Ok {| candlesFilled := 0; errors := ["Unknown token: DOGE"] |}, sparse).
Proof.
  apply (fillGaps_unknown_token no_fault full_upstream MARKET_CONFIG 5
           (at_time 3 30) "DOGE" "1h" 1000 sparse).
  intros Hin. vm_compute in Hin.
  repeat (apply elem_of_cons in Hin as [Hin|Hin]; [discriminate Hin|]).
  by apply elem_of_nil in Hin.
Defined.

(** ** Retention cleanup *)

Section Retention.

Variable pool_fault : nat -> option string.

Implicit Types (token timeframe : string) (w : World) (tbl : Table).
Implicit Types (rows : list Z) (now cutoffTime : Z) (key : Key).

(** The series read by [findDataGaps] holds the openTimes stored under the
    token and timeframe, and nothing else. *)
Lemma elem_of_select_open_time token timeframe tbl t :
  t ∈ select_open_time token timeframe tbl
  <-> is_Some (tbl !! (token, timeframe, t)).
Proof.
  unfold select_open_time. rewrite merge_sort_Permutation, list_elem_of_omap.
  split.
  - intros ([[[t' f'] open_time] row] & Hin & Hsome). cbn [fst] in Hsome.
    case_decide as Hkey; [|done]. destruct Hkey as [-> ->].
    injection Hsome as ->. apply elem_of_map_to_list in Hin. by exists row.
  - intros [row Hrow]. exists ((token, timeframe, t), row). split.
    + by apply elem_of_map_to_list.
    + cbn. by rewrite decide_True.
Qed.

Lemma ascending_filter (P : Z -> Prop) `{!forall t, Decision (P t)} rows :
  StronglySorted Z.lt rows -> StronglySorted Z.lt (filter P rows).
Proof.
  induction 1 as [|x l Hl IH Hx]; [constructor|].
  rewrite filter_cons. case_decide; [|done].
  constructor; [done|]. rewrite Forall_forall in *.
  intros y [_ Hy]%list_elem_of_filter. by apply Hx.
Qed.

Lemma ascending_same_members rows1 rows2 :
  StronglySorted Z.lt rows1 ->
  StronglySorted Z.lt rows2 ->
  (forall t, t ∈ rows1 <-> t ∈ rows2) ->
  rows1 = rows2.
Proof.
  intros Hs1 Hs2 Hmem.
  assert (Hnd : forall l, StronglySorted Z.lt l -> NoDup l).
  { induction 1 as [|x l Hl IH Hx]; constructor; [|done].
    rewrite Forall_forall in Hx. intros Hin. specialize (Hx x Hin). lia. }
  apply (StronglySorted_unique_strong Z.lt); [|done..|].
  - intros x1 x2 _ _ ? ?. lia.
  - apply NoDup_Permutation; auto.
Qed.

Lemma filter_all (P : Z -> Prop) `{!forall t, Decision (P t)} rows :
  (forall t, t ∈ rows -> P t) -> filter P rows = rows.
Proof.
  induction rows as [|x l IH]; intros Hall; [done|].
  rewrite filter_cons, decide_True by (apply Hall; by left).
  f_equal. apply IH. intros t Ht. apply Hall. by right.
Qed.

(** An upward closed part of an ascending series is a suffix of it. *)
Lemma ascending_suffix cutoffTime rows :
  StronglySorted Z.lt rows ->
  exists dropped,
    rows = dropped ++ filter (fun t => cutoffTime <= t) rows
    /\ forall t, t ∈ dropped -> t < cutoffTime.
Proof.
  induction 1 as [|x l Hl IH Hx];
    [exists []; split; [done | by intros t ?%elem_of_nil]|].
  rewrite filter_cons. case_decide as Hc.
  - exists []. split; [|by intros t ?%elem_of_nil]. cbn [app]. f_equal.
    symmetry. apply filter_all. rewrite Forall_forall in Hx.
    intros y Hy. specialize (Hx y Hy). lia.
  - destruct IH as (dropped & Heq & Hlt). exists (x :: dropped). split.
    + cbn [app]. by rewrite <- Heq.
    + intros t [->|Ht]%elem_of_cons; [lia | by apply Hlt].
Qed.

Lemma gapsBetween_origin d rows g :
  g ∈ gapsBetween d rows ->
  exists before prev curr after,
    rows = before ++ prev :: curr :: after
    /\ prev + d < curr
    /\ g = {| start := prev + d; end_ := curr - d;
              missingIntervals := (curr - (prev + d)) / d |}.
Proof.
  induction rows as [|prev rows IH]; [cbn; by intros ?%elem_of_nil|].
  destruct rows as [|curr rows]; [cbn; by intros ?%elem_of_nil|].
  rewrite gapsBetween_cons2. intros [Hin|Hin]%elem_of_app.
  - destruct (Z.ltb_spec (prev + d) curr); [|by apply elem_of_nil in Hin].
    apply list_elem_of_singleton in Hin as ->.
    by exists [], prev, curr, rows.
  - destruct (IH Hin) as (before & p & c & after & -> & ? & ?).
    by exists (prev :: before), p, c, after.
Qed.

Lemma gapsBetween_suffix d dropped rows g :
  g ∈ gapsBetween d rows -> g ∈ gapsBetween d (dropped ++ rows).
Proof.
  intros (before & prev & curr & after & -> & Hlt & ->)%gapsBetween_origin.
  rewrite app_assoc. by apply gapsBetween_emits.
Qed.

Lemma cleanOldData_executes now retentionDays w :
  pool_fault (queries w) = None ->
  cleanOldData pool_fault now retentionDays w
  = (Ok (rowCount_expired (now - retentionDays * 24 * 60 * 60 * 1000)
           (candlesticks w)),
     set_candlesticks
       (delete_expired (now - retentionDays * 24 * 60 * 60 * 1000)
          (candlesticks w))
       (next_query w)).
Proof.
  intros Hq. unfold cleanOldData, pool_query. by rewrite Hq.
Qed.

(** X12. [cleanOldData] on a pool that executes the statement removes the
    ['5m'] rows that open before [now - retentionDays] days and nothing else:
    every other row is kept as it is, and the number it returns is the number
    of rows by which the table has shrunk. *)
Theorem cleanOldData_removes_expired now retentionDays w :
  pool_fault (queries w) = None ->
  let cutoffTime := now - retentionDays * 86400000 in
  let after :=
    candlesticks (snd (cleanOldData pool_fault now retentionDays w)) in
  (forall token timeframe open_time row,
     after !! (token, timeframe, open_time) = Some row
     <-> candlesticks w !! (token, timeframe, open_time) = Some row
         /\ ~ (timeframe = "5m" /\ open_time < cutoffTime))
  /\ exists removed,
       fst (cleanOldData pool_fault now retentionDays w) = Ok removed
       /\ removed = Z.of_nat (size (candlesticks w)) - Z.of_nat (size after).
Proof.
  intros Hq cutoffTime after. subst after.
  rewrite (cleanOldData_executes _ _ _ Hq). cbn [fst snd].
  change (candlesticks (set_candlesticks ?t _)) with t.
  replace (now - retentionDays * 24 * 60 * 60 * 1000) with cutoffTime
    by (unfold cutoffTime; lia).
  split.
  - intros token timeframe open_time row. unfold delete_expired.
    by rewrite map_lookup_filter_Some.
  - eexists; split; [reflexivity|].
    unfold rowCount_expired, delete_expired.
    rewrite <- (map_filter_union_complement (expired cutoffTime)
                  (candlesticks w)) at 2.
    rewrite map_size_disj_union by apply map_disjoint_filter_complement.
    lia.
Qed.

(** X13. After a cleanup the ['5m'] series of a token is the old series
    without the openTimes before the cutoff, a suffix of it, and the series of
    every other timeframe is the same; so the cleanup opens no gap between
    stored candles: every gap between two rows after it was one before. *)
Theorem cleanOldData_series now retentionDays w token timeframe :
  pool_fault (queries w) = None ->
  let cutoffTime := now - retentionDays * 86400000 in
  let after :=
    candlesticks (snd (cleanOldData pool_fault now retentionDays w)) in
  select_open_time token "5m" after
  = filter (fun t => cutoffTime <= t)
      (select_open_time token "5m" (candlesticks w))
  /\ (exists dropped,
        select_open_time token "5m" (candlesticks w)
        = dropped ++ select_open_time token "5m" after
        /\ forall t, t ∈ dropped -> t < cutoffTime)
  /\ (timeframe <> "5m" ->
      select_open_time token timeframe after
      = select_open_time token timeframe (candlesticks w))
  /\ (forall g,
        g ∈ gapsBetween (intervalMs timeframe)
              (select_open_time token timeframe after) ->
        g ∈ gapsBetween (intervalMs timeframe)
              (select_open_time token timeframe (candlesticks w))).
Proof.
  intros Hq cutoffTime after. subst after.
  rewrite (cleanOldData_executes _ _ _ Hq). cbn [snd].
  change (candlesticks (set_candlesticks ?t _)) with t.
  replace (now - retentionDays * 24 * 60 * 60 * 1000) with cutoffTime
    by (unfold cutoffTime; lia).
  assert (H5m :
    select_open_time token "5m" (delete_expired cutoffTime (candlesticks w))
    = filter (fun t => cutoffTime <= t)
        (select_open_time token "5m" (candlesticks w))).
  { apply ascending_same_members.
    - apply select_open_time_ascending.
    - apply ascending_filter, select_open_time_ascending.
    - intros t. rewrite list_elem_of_filter, !elem_of_select_open_time.
      unfold delete_expired, is_Some.
      setoid_rewrite map_lookup_filter_Some. unfold expired. cbn [fst snd].
      split.
      + intros (row & Hrow & Hkeep). split; [|by exists row].
        destruct (Z.le_gt_cases cutoffTime t); [done|].
        exfalso. apply Hkeep. split; [done | lia].
      + intros (Hle & row & Hrow). exists row. split; [done|].
        intros [_ Hlt]. lia. }
  assert (Hother : forall f, f <> "5m" ->
    select_open_time token f (delete_expired cutoffTime (candlesticks w))
    = select_open_time token f (candlesticks w)).
  { intros f Hf. apply ascending_same_members;
      [apply select_open_time_ascending..|].
    intros t. rewrite !elem_of_select_open_time.
    unfold delete_expired, is_Some.
    setoid_rewrite map_lookup_filter_Some. unfold expired. cbn [fst snd].
    split; [intros (row & Hrow & _); by exists row|].
    intros (row & Hrow). exists row. split; [done|]. by intros [? _]. }
  destruct (ascending_suffix cutoffTime
              (select_open_time token "5m" (candlesticks w))
              (select_open_time_ascending _ _ _)) as (dropped & Hsplit & Hold).
  split; [done|]. split; [|split; [apply Hother|]].
  - exists dropped. by rewrite H5m.
  - intros g Hg. destruct (decide (timeframe = "5m")) as [->|Hne].
    + rewrite Hsplit. apply gapsBetween_suffix. by rewrite <- H5m.
    + by rewrite Hother in Hg.
Qed.

(** X14. A cleanup leaves nothing for a later one with the same or an earlier
    cutoff: the second returns 0 and leaves the table as it found it. *)
Theorem cleanOldData_again now1 days1 now2 days2 w :
  pool_fault (queries w) = None ->
  pool_fault (S (queries w)) = None ->
  now2 - days2 * 86400000 <= now1 - days1 * 86400000 ->
  let cleaned := snd (cleanOldData pool_fault now1 days1 w) in
  fst (cleanOldData pool_fault now2 days2 cleaned) = Ok 0
  /\ candlesticks (snd (cleanOldData pool_fault now2 days2 cleaned))
     = candlesticks cleaned.
Proof.
  intros Hq1 Hq2 Hle cleaned. subst cleaned.
  rewrite (cleanOldData_executes _ _ _ Hq1). cbn [snd].
  rewrite cleanOldData_executes by done. cbn [fst snd].
  change (candlesticks (set_candlesticks ?t _)) with t.
  set (c1 := now1 - days1 * 24 * 60 * 60 * 1000).
  set (c2 := now2 - days2 * 24 * 60 * 60 * 1000).
  assert (Hc : c2 <= c1) by (unfold c1, c2; lia).
  assert (Hnone : filter (expired c2) (delete_expired c1 (candlesticks w)) = ∅).
  { apply map_empty. intros key. apply map_lookup_filter_None. right.
    intros row Hrow [Hf Hlt].
    apply map_lookup_filter_Some in Hrow as [_ Hkeep].
    apply Hkeep. split; [done|]. cbn [fst snd] in *. lia. }
  split.
  - unfold rowCount_expired. by rewrite Hnone, map_size_empty.
  - unfold delete_expired at 1. apply map_filter_id.
    intros key row Hrow [Hf Hlt].
    apply map_lookup_filter_Some in Hrow as [_ Hkeep].
    apply Hkeep. split; [done|]. cbn [fst snd] in *. lia.
Qed.

End Retention.

Lemma cleanOldData_removes_expired_witness :
  fst (cleanOldData no_fault (at_time 0 5 + 30 * 86400000) 30 mixed) = Ok 1
  /\ candlesticks
       (snd (cleanOldData no_fault (at_time 0 5 + 30 * 86400000) 30 mixed))
       !! ("BTC", "1h", at_time 0 0)
     = Some (excluded (hour_candle (at_time 0 0))).
Proof.
  destruct (cleanOldData_removes_expired no_fault
              (at_time 0 5 + 30 * 86400000) 30 mixed) as [Hrows Hcount];
    [reflexivity|].
  split.
  - destruct Hcount as (removed & -> & ->). vm_compute. reflexivity.
  - apply Hrows. split; [vm_compute; reflexivity|].
    intros [Hf _]. discriminate Hf.
Defined.

Lemma cleanOldData_series_witness :
  select_open_time "BTC" "5m"
    (candlesticks
       (snd (cleanOldData no_fault (at_time 0 5 + 30 * 86400000) 30 mixed)))
  = [at_time 0 5; at_time 0 10].
Proof.
  destruct (cleanOldData_series no_fault (at_time 0 5 + 30 * 86400000) 30
              mixed "BTC" "1h") as (-> & _); [reflexivity|].
  vm_compute. reflexivity.
Defined.

Lemma cleanOldData_again_witness :
  fst (cleanOldData no_fault (at_time 0 5 + 30 * 86400000) 30
         (snd (cleanOldData no_fault (at_time 0 5 + 30 * 86400000) 30 mixed)))
  = Ok 0.
Proof.
  apply (cleanOldData_again no_fault (at_time 0 5 + 30 * 86400000) 30
           (at_time 0 5 + 30 * 86400000) 30 mixed).
  - reflexivity.
  - reflexivity.
  - lia.
Defined.

(** ** Current prices: [updateCurrentPrice] and [recalculate24hChanges] *)

#[local] Instance earlier_transitive : Transitive earlier.
Proof. intros a b c. unfold earlier. lia. Qed.

#[local] Instance earlier_total : Total earlier.
Proof. intros a b. unfold earlier. lia. Qed.

Section ReferencePrice.

Variable tie_break : nat -> list (Z * Z) -> nat.

Implicit Types (token timeframe : string) (tbl : Table) (dayAgo : Z).
Implicit Types (n : nat).

(** The rows the historical query ranges over. *)
Lemma select_close_rows token dayAgo tbl (pair : Z * Z) :
  pair ∈ omap (fun kr : Key * Row =>
                 let '(t, _, open_time) := fst kr in
                 if decide (t = token /\ dayAgo <= open_time)
                 then Some (open_time, r_close (snd kr)) else None)
              (map_to_list tbl)
  <-> exists timeframe row,
        tbl !! (token, timeframe, fst pair) = Some row
        /\ dayAgo <= fst pair
        /\ snd pair = r_close row.
Proof.
  rewrite list_elem_of_omap. split.
  - intros ([[[t f] open_time] row] & Hin & Hsome). cbn in Hsome.
    case_decide as Hkey; [|done]. destruct Hkey as [-> Hle].
    injection Hsome as <-. apply elem_of_map_to_list in Hin.
    by exists f, row.
  - intros (timeframe & row & Hrow & Hle & Hclose).
    exists ((token, timeframe, fst pair), row). split.
    + by apply elem_of_map_to_list.
    + cbn. rewrite decide_True by done. destruct pair; cbn in *.
      by rewrite Hclose.
Qed.

(** The row taken among those that tie is one of them. *)
Lemma tie_taken (first : Z * Z) (rows : list (Z * Z)) (position : nat) :
  let ties := filter (fun row : Z * Z => fst row = fst first) (first :: rows) in
  default first (ties !! position) ∈ first :: rows
  /\ fst (default first (ties !! position)) = fst first.
Proof.
  intros ties.
  destruct (ties !! position) as [row|] eqn:E; cbn [default];
    [|split; [by left | done]].
  apply list_elem_of_lookup_2 in E. unfold ties in E.
  by apply list_elem_of_filter in E as [Hfst Hin].
Qed.

(** What the historical query returns. *)
Lemma select_close_spec n token dayAgo tbl :
  (select_close tie_break n token dayAgo tbl = None
   <-> forall timeframe open_time row,
         tbl !! (token, timeframe, open_time) = Some row ->
         open_time < dayAgo)
  /\ (forall oldPrice,
        select_close tie_break n token dayAgo tbl = Some oldPrice ->
        exists timeframe open_time row,
          tbl !! (token, timeframe, open_time) = Some row
          /\ r_close row = oldPrice
          /\ dayAgo <= open_time
          /\ forall timeframe' open_time' row',
               tbl !! (token, timeframe', open_time') = Some row' ->
               dayAgo <= open_time' ->
               open_time <= open_time').
Proof.
  unfold select_close.
  set (rows := omap _ (map_to_list tbl)).
  assert (Hrows : forall pair, pair ∈ merge_sort earlier rows <->
            exists timeframe row,
              tbl !! (token, timeframe, fst pair) = Some row
              /\ dayAgo <= fst pair /\ snd pair = r_close row).
  { intros pair. rewrite merge_sort_Permutation. apply select_close_rows. }
  pose proof (StronglySorted_merge_sort earlier rows) as Hsorted.
  destruct (merge_sort earlier rows) as [|first sorted] eqn:E.
  - split.
    + split; [|done]. intros _ timeframe open_time row Hrow.
      destruct (Z.lt_ge_cases open_time dayAgo) as [|Hge]; [done|].
      exfalso. apply (elem_of_nil (open_time, r_close row)).
      apply Hrows. by exists timeframe, row.
    + by intros oldPrice' [=].
  - destruct (tie_taken first sorted
                (tie_break n
                   (filter (fun row : Z * Z => fst row = fst first)
                      (first :: sorted)))) as [Hin Hfst].
    set (taken := default first _) in *.
    destruct (proj1 (Hrows taken) Hin) as (f & row & Hrow & Hle & Hc).
    split.
    + split; [done|]. intros Hall. exfalso.
      specialize (Hall f (fst taken) row Hrow). lia.
    + intros ? [= <-]. exists f, (fst taken), row.
      split; [done|]. split; [done|]. split; [done|].
      intros f' open_time' row' Hrow' Hle'.
      assert (Hin' : (open_time', r_close row') ∈ first :: sorted)
        by (apply Hrows; by exists f', row').
      rewrite Hfst.
      apply elem_of_cons in Hin' as [<-|Hin']; [done|].
      apply StronglySorted_inv in Hsorted as [_ Hfirst].
      rewrite Forall_forall in Hfirst. apply (Hfirst _ Hin').
Qed.

(** The same in terms of [reference_candle]. *)
Lemma select_close_reference n token dayAgo tbl :
  match select_close tie_break n token dayAgo tbl with
  | None =>
      forall timeframe open_time row,
        tbl !! (token, timeframe, open_time) = Some row -> open_time < dayAgo
  | Some oldPrice =>
      exists row,
        reference_candle tbl token dayAgo row /\ r_close row = oldPrice
  end.
Proof.
  destruct (select_close_spec n token dayAgo tbl) as [Hnone Hsome].
  destruct (select_close tie_break n token dayAgo tbl) as [oldPrice|].
  - destruct (Hsome oldPrice eq_refl)
      as (timeframe & open_time & row & Hrow & Hc & Hle & Hmin).
    exists row. split; [|done]. by exists timeframe, open_time.
  - by apply Hnone.
Qed.

(** The change computed from the answer of the historical query. *)
Lemma change24h_of_reference (change : Z -> Z -> Z) price n token dayAgo tbl :
  let change24h :=
    change24h_of change price (select_close tie_break n token dayAgo tbl) in
  ((forall timeframe open_time row,
      tbl !! (token, timeframe, open_time) = Some row -> open_time < dayAgo) ->
   change24h = 0)
  /\ ((exists timeframe open_time row,
         tbl !! (token, timeframe, open_time) = Some row
         /\ dayAgo <= open_time) ->
      exists row,
        reference_candle tbl token dayAgo row
        /\ change24h
           = if 0 <? r_close row then change price (r_close row) else 0).
Proof.
  intros change24h. subst change24h.
  pose proof (select_close_reference n token dayAgo tbl) as Href.
  destruct (select_close tie_break n token dayAgo tbl) as [oldPrice|];
    cbn [change24h_of].
  - destruct Href as (row & Href & <-). split.
    + intros Hnone. destruct Href as (f & open_time & Hrow & Hle & _).
      specialize (Hnone f open_time row Hrow). lia.
    + intros _. by exists row.
  - split; [done|]. intros (f & open_time & row & Hrow & Hle).
    specialize (Href f open_time row Hrow). lia.
Qed.

(** X15. The price the 24-hour change is measured against is the close of an
    earliest candle of the token that opens at or after the reference time,
    whatever its timeframe and whichever the database returns of several;
    there is none exactly when every candle of the token opens before the
    reference time. *)
Theorem select_close_earliest n token dayAgo tbl :
  (select_close tie_break n token dayAgo tbl = None
   <-> forall timeframe open_time row,
         tbl !! (token, timeframe, open_time) = Some row ->
         open_time < dayAgo)
  /\ (forall oldPrice,
        select_close tie_break n token dayAgo tbl = Some oldPrice ->
        exists timeframe open_time row,
          tbl !! (token, timeframe, open_time) = Some row
          /\ r_close row = oldPrice
          /\ dayAgo <= open_time
          /\ forall timeframe' open_time' row',
               tbl !! (token, timeframe', open_time') = Some row' ->
               dayAgo <= open_time' ->
               open_time <= open_time').
Proof. apply select_close_spec. Qed.

End ReferencePrice.

Section PriceUpdates.

Variable pool_fault : nat -> option string.
Variable change : Z -> Z -> Z.
Variable tie_break : nat -> list (Z * Z) -> nat.

Implicit Types (now dayAgo price : Z) (token : string) (w : World).

(** What [updateCurrentPrice] does, by the answers of the pool. *)
Lemma updateCurrentPrice_spec now token price w :
  let w' :=
    snd (updateCurrentPrice pool_fault change tie_break now token price w) in
  fst (updateCurrentPrice pool_fault change tie_break now token price w)
  = Ok tt
  /\ candlesticks w' = candlesticks w
  /\ (forall other, other <> token ->
        current_prices w' !! other = current_prices w !! other)
  /\ (pool_fault (queries w) = None ->
      pool_fault (S (queries w)) = None ->
      exists change24h,
        current_prices w' !! token = Some (price, change24h)
        /\ ((forall timeframe open_time row,
               candlesticks w !! (token, timeframe, open_time) = Some row ->
               open_time < now - 86400000) ->
            change24h = 0)
        /\ ((exists timeframe open_time row,
               candlesticks w !! (token, timeframe, open_time) = Some row
               /\ now - 86400000 <= open_time) ->
            exists row,
              reference_candle (candlesticks w) token (now - 86400000) row
              /\ change24h
                 = if 0 <? r_close row then change price (r_close row)
                   else 0))
  /\ (forall msg, pool_fault (queries w) = Some msg ->
        current_prices w' = current_prices w).
Proof.
  intros w'. subst w'.
  unfold updateCurrentPrice, try_catch, bind, pool_query, ret.
  change (24 * 60 * 60 * 1000) with 86400000.
  destruct (pool_fault (queries w)) as [msg1|] eqn:Hq1; cbn.
  { split; [done|]. split; [done|]. split; [done|]. split; [done|]. done. }
  destruct (pool_fault (S (queries w))) as [msg2|] eqn:Hq2; cbn.
  { split; [done|]. split; [done|]. split; [done|]. split; [done|]. done. }
  split; [done|]. split; [done|]. split; [|split; [|done]].
  - intros other Hne. by rewrite lookup_insert_ne.
  - intros _ _. eexists. rewrite lookup_insert_eq. split; [reflexivity|].
    apply (change24h_of_reference tie_break change price (S (queries w)) token
             (now - 86400000) (candlesticks w)).
Qed.

(** X16. [updateCurrentPrice] never throws and never touches a candle or the
    price of another token.  When the pool executes its two statements the row
    of the token becomes the new price with a change: 0 when no candle of the
    token opens in the last 24 hours, and otherwise the change against the
    close of an earliest candle of the token that does, whichever timeframe
    the database takes it from (0 when that close is not positive).  When the
    historical read is rejected the price is not written at all. *)
Theorem updateCurrentPrice_effect now token price w :
  let w' :=
    snd (updateCurrentPrice pool_fault change tie_break now token price w) in
  fst (updateCurrentPrice pool_fault change tie_break now token price w)
  = Ok tt
  /\ candlesticks w' = candlesticks w
  /\ (forall other, other <> token ->
        current_prices w' !! other = current_prices w !! other)
  /\ (pool_fault (queries w) = None ->
      pool_fault (S (queries w)) = None ->
      exists change24h,
        current_prices w' !! token = Some (price, change24h)
        /\ ((forall timeframe open_time row,
               candlesticks w !! (token, timeframe, open_time) = Some row ->
               open_time < now - 86400000) ->
            change24h = 0)
        /\ ((exists timeframe open_time row,
               candlesticks w !! (token, timeframe, open_time) = Some row
               /\ now - 86400000 <= open_time) ->
            exists row,
              reference_candle (candlesticks w) token (now - 86400000) row
              /\ change24h
                 = if 0 <? r_close row then change price (r_close row)
                   else 0))
  /\ (forall msg, pool_fault (queries w) = Some msg ->
        current_prices w' = current_prices w).
Proof. apply updateCurrentPrice_spec. Qed.

(** One token of the periodic recomputation, whatever the pool does. *)
Lemma recalculate_token_frame dayAgo token w :
  let w' :=
    snd (recalculate_token pool_fault change tie_break dayAgo token w) in
  fst (recalculate_token pool_fault change tie_break dayAgo token w) = Ok tt
  /\ candlesticks w' = candlesticks w
  /\ (forall t, fst <$> current_prices w' !! t = fst <$> current_prices w !! t)
  /\ (forall t, t <> token -> current_prices w' !! t = current_prices w !! t).
Proof.
  intros w'. subst w'.
  unfold recalculate_token, try_catch, bind, pool_query, ret.
  destruct (pool_fault (queries w)) as [msg1|]; cbn; [done|].
  destruct (current_prices w !! token) as [[currentPrice c]|] eqn:Hp; cbn;
    [|done].
  destruct (pool_fault (S (queries w))) as [msg2|]; cbn; [done|].
  destruct (pool_fault (S (S (queries w)))) as [msg3|]; cbn; [done|].
  split; [done|]. split; [done|]. split.
  - intros t. rewrite lookup_alter. case_decide as Ht; [|done].
    subst t. by rewrite Hp.
  - intros t Hne. by rewrite lookup_alter_ne.
Qed.

Lemma recalculate_each_frame dayAgo tokens w :
  let w' :=
    snd (recalculate_each pool_fault change tie_break dayAgo tokens w) in
  fst (recalculate_each pool_fault change tie_break dayAgo tokens w) = Ok tt
  /\ candlesticks w' = candlesticks w
  /\ (forall t, fst <$> current_prices w' !! t = fst <$> current_prices w !! t)
  /\ (forall t, t ∉ tokens -> current_prices w' !! t = current_prices w !! t).
Proof.
  revert w. induction tokens as [|token rest IH]; intros w; [done|].
  cbn [recalculate_each]. unfold bind.
  destruct (recalculate_token_frame dayAgo token w) as (Hok & Hc & Hp & Ho).
  destruct (recalculate_token pool_fault change tie_break dayAgo token w)
    as [settled w1]. cbn [fst snd] in *. subst settled.
  destruct (IH w1) as (Hok' & Hc' & Hp' & Ho').
  split; [done|]. split; [congruence|]. split.
  - intros t. by rewrite Hp', Hp.
  - intros t Hnot. rewrite Ho', Ho; [done|..];
      intros ?; apply Hnot; [subst; by left | by right].
Qed.

(** X17. [recalculate24hChanges] settles whatever the pool does, and in every
    case leaves the candles alone, sets no price, adds and removes no token,
    and does not touch the row of a token that is not configured. *)
Theorem recalculate24hChanges_frame now w token :
  let w' := snd (recalculate24hChanges pool_fault change tie_break now w) in
  fst (recalculate24hChanges pool_fault change tie_break now w) = Ok tt
  /\ candlesticks w' = candlesticks w
  /\ fst <$> current_prices w' !! token = fst <$> current_prices w !! token
  /\ (token ∉ MARKET_CONFIG.*1 ->
      current_prices w' !! token = current_prices w !! token).
Proof.
  intros w'. subst w'. unfold recalculate24hChanges.
  destruct (recalculate_each_frame (now - 24 * 60 * 60 * 1000)
              (map fst MARKET_CONFIG) w) as (Hok & Hc & Hp & Ho).
  split; [done|]. split; [done|]. split; [apply Hp | apply Ho].
Qed.

End PriceUpdates.

Section RecalculateHealthy.

Variable pool_fault : nat -> option string.
Variable change : Z -> Z -> Z.
Variable tie_break : nat -> list (Z * Z) -> nat.

Implicit Types (now dayAgo price : Z) (token : string) (w : World).

Lemma recalculate_token_healthy dayAgo token w t :
  healthy pool_fault ->
  current_prices
    (snd (recalculate_token pool_fault change tie_break dayAgo token w)) !! t
  = if decide (t = token)
    then (fun entry : Z * Z =>
            (fst entry,
             change24h_of change (fst entry)
               (select_close tie_break (S (S (queries w))) token dayAgo
                  (candlesticks w))))
         <$> current_prices w !! t
    else current_prices w !! t.
Proof.
  intros Hh. unfold recalculate_token, try_catch, bind, pool_query, ret.
  rewrite (Hh (queries w)). cbn.
  destruct (current_prices w !! token) as [[currentPrice c]|] eqn:Hp; cbn.
  - rewrite (Hh (S (queries w))). cbn. rewrite (Hh (S (S (queries w)))). cbn.
    rewrite lookup_alter. case_decide as Ht; [|by rewrite decide_False].
    subst t. by rewrite decide_True, Hp.
  - case_decide as Ht; [|done]. subst t. by rewrite Hp.
Qed.

Lemma recalculate_each_healthy dayAgo tokens w t :
  healthy pool_fault ->
  t ∈ tokens ->
  exists n,
    current_prices
      (snd (recalculate_each pool_fault change tie_break dayAgo tokens w)) !! t
    = (fun entry : Z * Z =>
         (fst entry,
          change24h_of change (fst entry)
            (select_close tie_break n t dayAgo (candlesticks w))))
      <$> current_prices w !! t.
Proof.
  intros Hh. revert w. induction tokens as [|token rest IH]; intros w Hin;
    [by apply elem_of_nil in Hin|].
  cbn [recalculate_each]. unfold bind.
  pose proof (recalculate_token_healthy dayAgo token w t Hh) as Hfirst.
  destruct (recalculate_token_frame pool_fault change tie_break dayAgo token w)
    as (Hok & Hc & _ & _).
  destruct (recalculate_token pool_fault change tie_break dayAgo token w)
    as [settled w1]. cbn [fst snd] in *. subst settled.
  destruct (decide (t ∈ rest)) as [Hrest|Hrest].
  - destruct (IH w1 Hrest) as [n Hn]. exists n.
    rewrite Hn, Hc, Hfirst. case_decide as Ht; [|done].
    subst t. by destruct (current_prices w !! token) as [[p c]|].
  - destruct (recalculate_each_frame pool_fault change tie_break dayAgo rest w1)
      as (_ & _ & _ & Ho).
    cbn zeta in Ho. rewrite (Ho t Hrest), Hfirst.
    apply elem_of_cons in Hin as [->|Hin]; [|done].
    exists (S (S (queries w))). by rewrite decide_True.
Qed.

(** X18. On a pool that rejects nothing [recalculate24hChanges] leaves the
    price of every configured token that has one and sets its change: 0 when
    no candle of the token opens in the last 24 hours, and otherwise the
    change of that price against the close of an earliest candle of the token
    that does, whichever timeframe the database takes it from (0 when that
    close is not positive). *)
Theorem recalculate24hChanges_healthy now w token price change0 :
  healthy pool_fault ->
  token ∈ MARKET_CONFIG.*1 ->
  current_prices w !! token = Some (price, change0) ->
  exists change24h,
    current_prices
      (snd (recalculate24hChanges pool_fault change tie_break now w)) !! token
    = Some (price, change24h)
    /\ ((forall timeframe open_time row,
           candlesticks w !! (token, timeframe, open_time) = Some row ->
           open_time < now - 86400000) ->
        change24h = 0)
    /\ ((exists timeframe open_time row,
           candlesticks w !! (token, timeframe, open_time) = Some row
           /\ now - 86400000 <= open_time) ->
        exists row,
          reference_candle (candlesticks w) token (now - 86400000) row
          /\ change24h
             = if 0 <? r_close row then change price (r_close row) else 0).
Proof.
  intros Hh Hin Hprice. unfold recalculate24hChanges.
  change (24 * 60 * 60 * 1000) with 86400000.
  destruct (recalculate_each_healthy (now - 86400000) (map fst MARKET_CONFIG)
              w token Hh Hin) as [n ->].
  rewrite Hprice. cbn [fmap option_fmap option_map fst]. eexists.
  split; [reflexivity|].
  apply (change24h_of_reference tie_break change price n token
           (now - 86400000) (candlesticks w)).
Qed.

End RecalculateHealthy.

Lemma select_close_earliest_witness :
  exists timeframe open_time row,
    candlesticks mixed !! ("BTC", timeframe, open_time) = Some row
    /\ r_close row = 42300
    /\ at_time 0 0 <= open_time.
Proof.
  destruct (select_close_earliest last_tie 1 "BTC" (at_time 0 0)
              (candlesticks mixed)) as [_ Hsome].
  destruct (Hsome 42300) as (timeframe & open_time & row & Hrow & Hc & Hle & _).
  - vm_compute. reflexivity.
  - exists timeframe, open_time, row.
    split; [exact Hrow|]. split; [exact Hc | exact Hle].
Defined.

Lemma updateCurrentPrice_effect_witness :
  current_prices
    (snd (updateCurrentPrice no_fault percent first_tie (at_time 6 0) "BTC"
            4600000000000 empty_world))
    !! "BTC"
  = Some (4600000000000, 0).
Proof.
  destruct (updateCurrentPrice_effect no_fault percent first_tie (at_time 6 0)
              "BTC" 4600000000000 empty_world)
    as (_ & _ & _ & Hwritten & _).
  destruct Hwritten as (change24h & Hrow & Hzero & _); [reflexivity..|].
  rewrite Hrow, Hzero; [reflexivity|].
  intros timeframe open_time row Hstored.
  change (candlesticks empty_world) with (∅ : Table) in Hstored.
  rewrite lookup_empty in Hstored. discriminate Hstored.
Defined.

Lemma recalculate24hChanges_frame_witness :
  fst <$> current_prices
            (snd (recalculate24hChanges second_faults percent first_tie
                    (at_time 6 0) priced)) !! "BTC"
  = Some 4500000000000.
Proof.
  destruct (recalculate24hChanges_frame second_faults percent first_tie
              (at_time 6 0) priced "BTC") as (_ & _ & -> & _).
  vm_compute. reflexivity.
Defined.

Lemma recalculate24hChanges_healthy_witness :
  current_prices
    (snd (recalculate24hChanges no_fault percent first_tie
            (at_time 6 0 + 2 * 86400000) priced)) !! "ETH"
  = Some (250000000000, 0).
Proof.
  destruct (recalculate24hChanges_healthy no_fault percent first_tie
              (at_time 6 0 + 2 * 86400000) priced "ETH" 250000000000 0)
    as (change24h & Hrow & Hzero & _).
  - intros n. reflexivity.
  - vm_compute. right. by left.
  - vm_compute. reflexivity.
  - rewrite Hrow, Hzero; [reflexivity|].
    intros timeframe open_time row Hstored. exfalso.
    assert (Hall : map_Forall
                     (fun (key : Key) (_ : Row) => fst (fst key) = "BTC")
                     (candlesticks priced))
      by compute_done.
    specialize (Hall _ _ Hstored). discriminate Hall.
Defined.

(** ** Stream ingestion: events that are dropped, writes that fail *)

Section StreamEdges.

Variable pool_fault : nat -> option string.
Variable parseFloat : string -> Z.
Variable change : Z -> Z -> Z.
Variable tie_break : nat -> list (Z * Z) -> nat.

Implicit Types (now : Z) (token : string) (w : World) (event : Event).

(** X19. A frame that does not parse, a frame without [data], an event that
    is not a kline or carries no [k], and a kline of a symbol that belongs to
    no configured token are all dropped: nothing is sent to the pool and the
    world is as it was. *)
Theorem on_message_drops now parsed w :
  parsed = None
  \/ parsed = Some None
  \/ (exists event,
        parsed = Some (Some event)
        /\ (ev_e event <> "kline"
            \/ ev_k event = None
            \/ token_of_symbol (ev_s event) = None)) ->
  on_message pool_fault parseFloat change tie_break now parsed w = (Ok tt, w).
Proof.
  intros [->|[->|(event & -> & Hdrop)]]; [done..|].
  unfold on_message, try_catch.
  destruct (String.eqb_spec (ev_e event) "kline") as [He|He]; [|done].
  destruct (ev_k event) as [k|]; [|done].
  destruct (token_of_symbol (ev_s event)) as [token|]; [|done].
  by destruct Hdrop as [?|[?|?]].
Qed.

(** X20. The handler never rejects.  When the store rejects the write of the
    candle the error is swallowed and the price update is skipped with it:
    neither table changes. *)
Theorem on_message_swallows_write_failure now event k token w msg :
  ev_e event = "kline" ->
  ev_k event = Some k ->
  token_of_symbol (ev_s event) = Some token ->
  pool_fault (queries w) = Some msg ->
  on_message pool_fault parseFloat change tie_break now (Some (Some event)) w
  = (Ok tt, next_query w)
  /\ forall parsed w0,
       fst (on_message pool_fault parseFloat change tie_break now
              parsed w0) = Ok tt.
Proof.
  intros He Hk Htoken Hfault. split.
  - unfold on_message, try_catch. rewrite He, Hk, Htoken, String.eqb_refl.
    unfold bind. by rewrite (saveCandle_rejects _ _ _ _ _ _ Hfault).
  - intros parsed w0. unfold on_message, try_catch.
    destruct parsed as [[ev|]|]; [|done..].
    destruct (String.eqb (ev_e ev) "kline"); [|done].
    destruct (ev_k ev) as [k0|]; [|done].
    destruct (token_of_symbol (ev_s ev)) as [t|]; [|done].
    unfold bind.
    destruct (saveCandle_cases pool_fault t "5m" (candle_of_kline parseFloat k0)
                w0) as [[m ->]| ->]; [done|].
    destruct (updateCurrentPrice_spec pool_fault change tie_break now t
                (close (candle_of_kline parseFloat k0))
                (set_candlesticks
                   (insert_on_conflict t "5m" (candle_of_kline parseFloat k0)
                      (candlesticks w0)) (next_query w0))) as [Hok _].
    by destruct (updateCurrentPrice _ _ _ _ _ _ _) as [[[]|e|] w1].
Qed.

(** X21. When the pool executes the write of the candle and the two
    statements of the price update, the current price of the token is the
    close of the kline, whether the kline is closed or not and whether the
    write changed the stored candle or not; the prices of the other tokens are
    as before. *)
Theorem on_message_sets_price now event k token w :
  ev_e event = "kline" ->
  ev_k event = Some k ->
  token_of_symbol (ev_s event) = Some token ->
  pool_fault (queries w) = None ->
  pool_fault (S (queries w)) = None ->
  pool_fault (S (S (queries w))) = None ->
  let w' :=
    snd (on_message pool_fault parseFloat change tie_break now
           (Some (Some event)) w) in
  fst <$> current_prices w' !! token = Some (parseFloat (k_c k))
  /\ forall other, other <> token ->
       current_prices w' !! other = current_prices w !! other.
Proof.
  intros He Hk Htoken Hq1 Hq2 Hq3 w'. subst w'.
  unfold on_message, try_catch. rewrite He, Hk, Htoken, String.eqb_refl.
  unfold bind. rewrite (saveCandle_executes _ _ _ _ _ Hq1).
  set (w1 := set_candlesticks _ (next_query w)).
  destruct (updateCurrentPrice_spec pool_fault change tie_break now token
              (close (candle_of_kline parseFloat k)) w1)
    as (_ & _ & Hother & Hwritten & _).
  destruct Hwritten as (change24h & Hprice & _); [done..|].
  destruct (updateCurrentPrice _ _ _ _ _ _ _) as [[[]|e|] w2];
    unfold ret; cbn [snd] in *; (split; [by rewrite Hprice | apply Hother]).
Qed.

End StreamEdges.

Lemma on_message_drops_witness :
  on_message no_fault read_decimal no_change first_tie (at_time 5 30)
    (Some (Some {| ev_e := "kline"; ev_s := "DOGEUSDT";
                   ev_k := Some hour_kline |})) priced
  = (Ok tt, priced).
Proof.
  apply (on_message_drops no_fault read_decimal no_change first_tie
           (at_time 5 30)).
  right. right. eexists. split; [reflexivity|]. right. right.
  vm_compute. reflexivity.
Defined.

Lemma on_message_swallows_write_failure_witness :
  on_message second_faults read_decimal no_change first_tie (at_time 5 30)
    (Some (Some hour_event)) (next_query priced)
  = (Ok tt, next_query (next_query priced)).
Proof.
  destruct (on_message_swallows_write_failure second_faults read_decimal
              no_change first_tie (at_time 5 30) hour_event hour_kline "ETH"
              (next_query priced) "Database error") as [Hdropped _].
  - reflexivity.
  - reflexivity.
  - vm_compute. reflexivity.
  - reflexivity.
  - exact Hdropped.
Defined.

Lemma on_message_sets_price_witness :
  fst <$> current_prices
            (snd (on_message no_fault read_decimal no_change first_tie
                    (at_time 5 30)
                    (Some (Some hour_event)) priced)) !! "ETH"
  = Some 250525000000.
Proof.
  destruct (on_message_sets_price no_fault read_decimal no_change first_tie
              (at_time 5 30)
              hour_event hour_kline "ETH" priced) as [Hprice _].
  - reflexivity.
  - reflexivity.
  - vm_compute. reflexivity.
  - reflexivity.
  - reflexivity.
  - reflexivity.
  - exact Hprice.
Defined.

(** ** Reading candles: the route [GET /api/candlesticks/:token/:timeframe] *)

#[local] Instance later_first_total : Total later_first.
Proof. intros a b. unfold later_first. lia. Qed.

Section ReadCandles.

Variable pool_fault : nat -> option string.
Variable parseFloat : Z -> Z.
Variable upperCase : string -> string.

Implicit Types (token timeframe : string) (w : World) (tbl : Table).
Implicit Types (startTime endTime limit : option Z).

Lemma ascending_of_NoDup (rows : list Z) :
  StronglySorted Z.le rows -> NoDup rows -> StronglySorted Z.lt rows.
Proof.
  induction 1 as [|x l Hl IH Hx]; intros Hnd; [constructor|].
  apply NoDup_cons in Hnd as [Hnotin Hnd].
  constructor; [by apply IH|].
  rewrite Forall_forall in *. intros y Hy. specialize (Hx y Hy).
  assert (x <> y) by (intros ->; by apply Hnotin). lia.
Qed.

(** The rows the query ranges over, before [ORDER BY] and [LIMIT]. *)
Lemma candidates_spec token timeframe startTime endTime tbl (entry : Z * Row) :
  entry ∈ omap (fun kr : Key * Row =>
                  let '(t, f, open_time) := fst kr in
                  if decide (t = token /\ f = timeframe
                             /\ in_range startTime endTime open_time)
                  then Some (open_time, snd kr) else None)
               (map_to_list tbl)
  <-> tbl !! (token, timeframe, fst entry) = Some (snd entry)
      /\ in_range startTime endTime (fst entry).
Proof.
  rewrite list_elem_of_omap. split.
  - intros ([[[t f] open_time] row] & Hin & Hsome). cbn in Hsome.
    case_decide as Hkey; [|done]. destruct Hkey as (-> & -> & Hr).
    injection Hsome as <-. by apply elem_of_map_to_list in Hin.
  - intros [Hrow Hr]. exists ((token, timeframe, fst entry), snd entry).
    split; [by apply elem_of_map_to_list|].
    cbn. rewrite decide_True by done. by destruct entry.
Qed.

Lemma candidates_NoDup token timeframe startTime endTime tbl :
  NoDup (fst <$>
           omap (fun kr : Key * Row =>
                   let '(t, f, open_time) := fst kr in
                   if decide (t = token /\ f = timeframe
                              /\ in_range startTime endTime open_time)
                   then Some (open_time, snd kr) else None)
                (map_to_list tbl)).
Proof.
  pose proof (NoDup_fst_map_to_list tbl) as Hnd.
  induction (map_to_list tbl) as [|[[[t f] open_time] row] l IH];
    [constructor|].
  cbn in Hnd. apply NoDup_cons in Hnd as [Hnotin Hnd].
  cbn [omap list_omap fst snd]. case_decide as Hkey; [|by apply IH].
  destruct Hkey as (-> & -> & Hr). cbn [fmap list_fmap fst].
  apply NoDup_cons. split; [|by apply IH].
  intros ([ot row'] & Heq & Hin)%list_elem_of_fmap. cbn in Heq. subst ot.
  apply list_elem_of_omap in Hin as ([[[t' f'] ot'] row''] & Hin & Hsome).
  cbn in Hsome. case_decide as Hkey'; [|done].
  destruct Hkey' as (-> & -> & _). injection Hsome as -> ->.
  apply Hnotin. apply list_elem_of_fmap. by eexists (_, row').
Qed.

(** Before [LIMIT], the rows come latest first, and their openTimes are the
    series of the token and timeframe within the range, reversed. *)
Lemma sorted_candidates_times token timeframe startTime endTime tbl :
  fst <$>
    merge_sort later_first
      (omap (fun kr : Key * Row =>
               let '(t, f, open_time) := fst kr in
               if decide (t = token /\ f = timeframe
                          /\ in_range startTime endTime open_time)
               then Some (open_time, snd kr) else None)
            (map_to_list tbl))
  = reverse (filter (in_range startTime endTime)
               (select_open_time token timeframe tbl)).
Proof.
  set (candidates := omap _ (map_to_list tbl)).
  set (sorted := merge_sort later_first candidates).
  rewrite <- (reverse_involutive (fst <$> sorted)). f_equal.
  apply ascending_same_members.
  - apply ascending_of_NoDup.
    + apply Sorted_StronglySorted; [apply _|].
      apply (Sorted_reverse (fun a b : Z => b <= a)).
      apply (Sorted_fmap fst later_first); [by intros x y|].
      apply Sorted_merge_sort, _.
    + rewrite reverse_Permutation. unfold sorted.
      rewrite merge_sort_Permutation. apply candidates_NoDup.
  - apply ascending_filter, select_open_time_ascending.
  - intros t. rewrite elem_of_reverse, list_elem_of_fmap, list_elem_of_filter,
      elem_of_select_open_time. unfold sorted. split.
    + intros ([ot row] & -> & Hin). rewrite merge_sort_Permutation in Hin.
      apply candidates_spec in Hin as [Hrow Hr]. cbn in *.
      split; [done | by exists row].
    + intros (Hr & row & Hrow). exists (t, row). split; [done|].
      rewrite merge_sort_Permutation. by apply candidates_spec.
Qed.

Lemma get_candlesticks_executes token timeframe limit startTime endTime w :
  pool_fault (queries w) = None ->
  0 <= default 1000 limit ->
  get_candlesticks pool_fault parseFloat upperCase token timeframe limit
    startTime endTime w
  = (Ok (Json200
           (reverse
              (map (candle_of_row parseFloat)
                 (select_candles (upperCase token) timeframe startTime
                    endTime (Z.to_nat (default 1000 limit))
                    (candlesticks w))))),
     next_query w).
Proof.
  intros Hq Hlimit. unfold get_candlesticks, try_catch, bind, pool_query.
  rewrite Hq. by destruct (Z.ltb_spec (default 1000 limit) 0); [lia|].
Qed.

(** X22. On a pool that executes the query, the route answers with the
    stored candles of the token in upper case, as [toUpperCase] of the engine
    maps it, and the timeframe whose openTimes are in the requested range:
    the latest [limit] of them (1000 when no limit is given), in ascending
    order of openTime, each with the columns of its row.  The request changes
    no table. *)
Theorem get_candlesticks_latest token timeframe limit startTime endTime w :
  pool_fault (queries w) = None ->
  0 <= default 1000 limit ->
  let series :=
    filter (in_range startTime endTime)
      (select_open_time (upperCase token) timeframe (candlesticks w)) in
  exists data,
    get_candlesticks pool_fault parseFloat upperCase token timeframe limit
      startTime endTime w
    = (Ok (Json200 data), next_query w)
    /\ openTime <$> data
       = drop (length series - Z.to_nat (default 1000 limit)) series
    /\ forall candle, candle ∈ data ->
         exists row,
           candlesticks w !! (upperCase token, timeframe, openTime candle)
           = Some row
           /\ candle = candle_of_row parseFloat (openTime candle, row).
Proof.
  intros Hq Hlimit series.
  rewrite (get_candlesticks_executes _ _ _ _ _ _ Hq Hlimit).
  eexists; split; [reflexivity|]. unfold select_candles.
  set (n := Z.to_nat (default 1000 limit)). split.
  - rewrite fmap_reverse.
    change (openTime <$> map (candle_of_row parseFloat) ?l)
      with (openTime <$> (candle_of_row parseFloat <$> l)).
    rewrite <- list_fmap_compose.
    change (openTime ∘ candle_of_row parseFloat) with (@fst Z Row).
    rewrite fmap_take, sorted_candidates_times, take_reverse,
      reverse_involutive. done.
  - intros candle Hin. rewrite elem_of_reverse in Hin.
    change (map (candle_of_row parseFloat) ?l)
      with (candle_of_row parseFloat <$> l) in Hin.
    apply list_elem_of_fmap in Hin as ([ot row] & -> & Hin).
    apply elem_of_take in Hin as (i & Hin & _).
    apply list_elem_of_lookup_2 in Hin.
    rewrite merge_sort_Permutation in Hin.
    apply candidates_spec in Hin as [Hrow _]. by exists row.
Qed.


End ReadCandles.

Lemma get_candlesticks_latest_witness :
  exists data,
    get_candlesticks no_fault (fun decimal => decimal) toUpperCase "btc" "1h"
      (Some 2) None (Some (at_time 4 30)) mixed
    = (Ok (Json200 data), next_query mixed)
    /\ openTime <$> data = [at_time 2 0; at_time 4 0].
Proof.
  destruct (get_candlesticks_latest no_fault (fun decimal => decimal)
              toUpperCase "btc" "1h" (Some 2) None (Some (at_time 4 30)) mixed)
    as (data & Hdata & Htimes & _).
  - reflexivity.
  - cbn. lia.
  - exists data. split; [exact Hdata|]. rewrite Htimes.
    vm_compute. reflexivity.
Defined.


(** ** Statistics *)

Section Statistics.

Variable pool_fault : nat -> option string.
Variable collate : relation (string * string).
Context `{!RelDecision collate}.

Implicit Types (token timeframe : string) (w : World) (tbl : Table).
Implicit Types (rows : list Z) (d : Z) (stat : Stat).

Lemma elem_of_groups tbl token timeframe :
  (token, timeframe) ∈ groups collate tbl
  <-> exists open_time, is_Some (tbl !! (token, timeframe, open_time)).
Proof.
  unfold groups. rewrite merge_sort_Permutation, elem_of_elements, elem_of_map.
  split.
  - intros ([[t f] open_time] & [= -> ->] & Hdom).
    exists open_time. by apply elem_of_dom.
  - intros (open_time & Hsome). exists (token, timeframe, open_time).
    split; [done|]. by apply elem_of_dom.
Qed.

Lemma groups_NoDup tbl : NoDup (groups collate tbl).
Proof. unfold groups. rewrite merge_sort_Permutation. apply NoDup_elements. Qed.

Lemma ascending_head rows first t :
  StronglySorted Z.lt rows -> head rows = Some first -> t ∈ rows -> first <= t.
Proof.
  intros Hs Hhead Hin. destruct Hs as [|x l Hl Hx]; [done|].
  injection Hhead as ->. rewrite Forall_forall in Hx.
  apply elem_of_cons in Hin as [->|Hin]; [lia|].
  specialize (Hx t Hin). lia.
Qed.

Lemma getDataStats_executes w :
  pool_fault (queries w) = None ->
  getDataStats pool_fault collate w
  = (Ok (map (stat_of (candlesticks w)) (groups collate (candlesticks w))),
     next_query w).
Proof. intros Hq. unfold getDataStats, pool_query. by rewrite Hq. Qed.

(** The entries of the statistics are the groups with their aggregates. *)
Lemma elem_of_stats tbl stat :
  stat ∈ map (stat_of tbl) (groups collate tbl)
  <-> stat = stat_of tbl (s_token stat, s_timeframe stat)
      /\ exists open_time,
           is_Some (tbl !! (s_token stat, s_timeframe stat, open_time)).
Proof.
  change (map (stat_of tbl) ?l) with (stat_of tbl <$> l).
  rewrite list_elem_of_fmap. split.
  - intros ([token timeframe] & -> & Hin). cbn. split; [done|].
    by apply elem_of_groups.
  - intros [Heq Hsome]. exists (s_token stat, s_timeframe stat).
    split; [done|]. by apply elem_of_groups.
Qed.

(** X24. [getDataStats] has one entry for every pair of a token and a
    timeframe that has a stored candle, and no other entry.  The count of an
    entry is at least 1; its oldest and newest are stored openTimes of the
    pair, and every stored openTime of the pair lies between them. *)
Theorem getDataStats_entries w :
  pool_fault (queries w) = None ->
  exists stats,
    getDataStats pool_fault collate w = (Ok stats, next_query w)
    /\ NoDup ((fun stat => (s_token stat, s_timeframe stat)) <$> stats)
    /\ (forall token timeframe,
          (exists stat, stat ∈ stats /\ s_token stat = token
                        /\ s_timeframe stat = timeframe)
          <-> exists open_time,
                is_Some (candlesticks w !! (token, timeframe, open_time)))
    /\ (forall stat, stat ∈ stats ->
          1 <= s_count stat
          /\ is_Some (candlesticks w
                        !! (s_token stat, s_timeframe stat, s_oldest stat))
          /\ is_Some (candlesticks w
                        !! (s_token stat, s_timeframe stat, s_newest stat))
          /\ forall open_time,
               is_Some (candlesticks w
                          !! (s_token stat, s_timeframe stat, open_time)) ->
               s_oldest stat <= open_time <= s_newest stat).
Proof.
  intros Hq. rewrite (getDataStats_executes _ Hq).
  eexists; split; [reflexivity|]. set (tbl := candlesticks w).
  split; [|split].
  - change (map (stat_of tbl) ?l) with (stat_of tbl <$> l).
    rewrite <- list_fmap_compose.
    rewrite (list_fmap_ext _ id (groups collate tbl))
      by (by intros ? [? ?]).
    rewrite list_fmap_id. apply groups_NoDup.
  - intros token timeframe. split.
    + intros (stat & [_ Hsome]%elem_of_stats & <- & <-). done.
    + intros Hsome. exists (stat_of tbl (token, timeframe)).
      split; [|done]. apply elem_of_stats. by split.
  - intros stat [Heq (some_time & Hsome)]%elem_of_stats.
    apply elem_of_select_open_time in Hsome.
    pose proof (select_open_time_ascending (s_token stat) (s_timeframe stat) tbl)
      as Hsorted.
    rewrite Heq. cbn [s_count s_oldest s_newest s_token s_timeframe stat_of fst snd].
    set (series := select_open_time (s_token stat) (s_timeframe stat) tbl) in *.
    destruct (head series) as [first|] eqn:Hhead;
      [|apply head_None in Hhead; rewrite Hhead in Hsome;
        by apply elem_of_nil in Hsome].
    destruct (last series) as [lastTime|] eqn:Hlast;
      [|apply last_None in Hlast; rewrite Hlast in Hsome;
        by apply elem_of_nil in Hsome].
    cbn [default from_option]. split; [|split; [|split]].
    + destruct series; [done|]. cbn [length]. lia.
    + apply elem_of_select_open_time. by apply head_Some_elem_of.
    + apply elem_of_select_open_time. by apply last_Some_elem_of.
    + intros open_time Hin%elem_of_select_open_time. split.
      * by apply (ascending_head series).
      * by apply (ascending_last series).
Qed.

(** In an aligned ascending series the rows span at least one interval each,
    and exactly one each when there is no gap between them. *)
Lemma aligned_span d first rows lastTime :
  0 < d ->
  StronglySorted Z.lt (first :: rows) ->
  (forall t, t ∈ rows -> (d | t - first)) ->
  last (first :: rows) = Some lastTime ->
  Z.of_nat (length rows) * d <= lastTime - first
  /\ (gapsBetween d (first :: rows) = []
      <-> Z.of_nat (length rows) * d = lastTime - first).
Proof.
  intros Hd. revert first. induction rows as [|next rows IH];
    intros first Hs Hal Hlast.
  { cbn in *. injection Hlast as <-. split; [lia|]. split; [lia | done]. }
  rewrite last_cons_cons in Hlast.
  apply StronglySorted_inv in Hs as [Hs Hfirst].
  rewrite Forall_forall in Hfirst.
  assert (Hlt : first < next) by (apply Hfirst; by left).
  assert (Hstep : d <= next - first).
  { destruct (Hal next) as [k Hk]; [by left|].
    assert (1 <= k).
    { destruct (Z.le_gt_cases k 0) as [Hk0|]; [|lia].
      pose proof (Z.mul_nonpos_nonneg k d Hk0 ltac:(lia)). lia. }
    pose proof (Z.mul_le_mono_nonneg_r 1 k d ltac:(lia) ltac:(done)). lia. }
  destruct (IH next Hs) as [Hle Hiff]; [|done|].
  { intros t Ht. destruct (Hal t) as [k Hk]; [by right|].
    destruct (Hal next) as [k' Hk']; [by left|].
    exists (k - k'). lia. }
  rewrite gapsBetween_cons2. cbn [length]. split; [lia|].
  destruct (Z.ltb_spec (first + d) next) as [Hgap|Hnogap]; cbn [app].
  - split; [done | lia].
  - rewrite Hiff. lia.
Qed.

(** X25. The statistics tell whether a series has a hole.  For an entry
    whose series is aligned to the interval of its timeframe, the count is at
    most the number of intervals from oldest to newest, both included, and it
    is equal to it exactly when [findDataGaps] sees no gap between stored
    candles of the series. *)
Theorem getDataStats_detects_holes w stats stat :
  pool_fault (queries w) = None ->
  fst (getDataStats pool_fault collate w) = Ok stats ->
  stat ∈ stats ->
  aligned (intervalMs (s_timeframe stat))
    (select_open_time (s_token stat) (s_timeframe stat) (candlesticks w)) ->
  s_count stat
  <= (s_newest stat - s_oldest stat) / intervalMs (s_timeframe stat) + 1
  /\ (s_count stat
      = (s_newest stat - s_oldest stat) / intervalMs (s_timeframe stat) + 1
      <-> gapsBetween (intervalMs (s_timeframe stat))
            (select_open_time (s_token stat) (s_timeframe stat)
               (candlesticks w)) = []).
Proof.
  intros Hq. rewrite (getDataStats_executes _ Hq). cbn [fst].
  intros [= <-] [Heq (some_time & Hsome)]%elem_of_stats Haligned.
  apply elem_of_select_open_time in Hsome.
  pose proof (select_open_time_ascending (s_token stat) (s_timeframe stat)
                (candlesticks w)) as Hsorted.
  pose proof (intervalMs_pos (s_timeframe stat)) as Hd.
  assert (Hc : s_count stat
               = Z.of_nat (length (select_open_time (s_token stat)
                                     (s_timeframe stat) (candlesticks w))))
    by (by rewrite Heq at 1).
  assert (Ho : s_oldest stat
               = default 0 (head (select_open_time (s_token stat)
                                    (s_timeframe stat) (candlesticks w))))
    by (by rewrite Heq at 1).
  assert (Hn : s_newest stat
               = default 0 (last (select_open_time (s_token stat)
                                    (s_timeframe stat) (candlesticks w))))
    by (by rewrite Heq at 1).
  rewrite Hc, Ho, Hn. clear Hc Ho Hn.
  set (d := intervalMs (s_timeframe stat)) in *.
  set (series := select_open_time (s_token stat) (s_timeframe stat)
                   (candlesticks w)) in *.
  destruct series as [|first rows] eqn:E; [by apply elem_of_nil in Hsome|].
  destruct (last (first :: rows)) as [lastTime|] eqn:Hlast;
    [|by apply last_None in Hlast].
  cbn [head default from_option length].
  destruct (aligned_span d first rows lastTime Hd Hsorted) as [Hle Hiff];
    [|done|].
  { intros t Ht. apply (Haligned first t); [done | by right]. }
  assert (Hdiv : (d | lastTime - first)).
  { apply (Haligned first lastTime); [done|]. by apply last_Some_elem_of. }
  destruct Hdiv as [k Hk]. unfold id. rewrite Hk, Z.div_mul by lia.
  rewrite Hiff. split; [nia|]. split; intros; nia.
Qed.

End Statistics.

Lemma getDataStats_entries_witness :
  exists stats,
    getDataStats no_fault pair_le mixed = (Ok stats, next_query mixed)
    /\ exists stat, stat ∈ stats /\ s_token stat = "BTC"
                    /\ s_timeframe stat = "5m".
Proof.
  destruct (getDataStats_entries no_fault pair_le mixed)
    as (stats & Hstats & _ & Hgroups & _); [reflexivity|].
  exists stats. split; [exact Hstats|].
  apply Hgroups. exists (at_time 0 5). vm_compute. by eexists.
Defined.

Lemma getDataStats_detects_holes_witness :
  5 <= (at_time 5 0 - at_time 0 0) / 3600000 + 1.
Proof.
  destruct (getDataStats_detects_holes no_fault pair_le mixed
              [ {| s_token := "BTC"; s_timeframe := "1h"; s_count := 5;
                   s_oldest := at_time 0 0; s_newest := at_time 5 0 |};
                {| s_token := "BTC"; s_timeframe := "5m"; s_count := 3;
                   s_oldest := at_time 0 0; s_newest := at_time 0 10 |} ]
              {| s_token := "BTC"; s_timeframe := "1h"; s_count := 5;
                 s_oldest := at_time 0 0; s_newest := at_time 5 0 |})
    as [Hle _].
  - reflexivity.
  - vm_compute. reflexivity.
  - by left.
  - intros first t Hfirst Ht. vm_compute in Hfirst. injection Hfirst as <-.
    vm_compute in Ht.
    repeat (apply elem_of_cons in Ht as [->|Ht];
            [apply Z.mod_divide; [discriminate | vm_compute; reflexivity]|]).
    by apply elem_of_nil in Ht.
  - exact Hle.
Defined.

(** ** Backfill: when the page loop ends *)

Section FillTermination.

Variable pool_fault : nat -> option string.
Variable fetchKlines :
  string -> string -> Z -> Z -> Z -> nat -> Error + list Candle.
Variable marketConfig : MarketConfig.

Implicit Types (symbol token timeframe : string) (w : World) (fs : FillState).
Implicit Types (budget : nat).

(** X26. With an upstream whose pages close at or after the requested start,
    [fillGaps] for a configured token returns its result, whatever else
    fails: once the read of the series has succeeded no error leaves it, and a
    step budget that covers the width of each gap is enough for every page
    loop to end. *)
Theorem fillGaps_returns budget now token timeframe maxCandles w symbol :
  makes_progress fetchKlines ->
  symbol_of marketConfig token = Some symbol ->
  pool_fault (queries w) = None ->
  fits budget
    (gapsOfRows timeframe
       (select_open_time token timeframe (candlesticks w)) now) ->
  exists result,
    fst (fillGaps pool_fault fetchKlines marketConfig budget now token
           timeframe maxCandles w) = Ok result.
Proof.
  intros Hprogress Hsymbol Hq Hfit. unfold fillGaps, fillFound. rewrite Hsymbol.
  unfold bind. rewrite (findDataGaps_executes _ _ _ _ _ Hq).
  destruct (gapsOfRows _ _ _) as [|gap rest]; [by eexists|].
  destruct (fillEach_settles pool_fault fetchKlines budget symbol token
              timeframe maxCandles (gap :: rest)
              {| world := next_query w; filled := 0; errs := [] |}
              Hprogress Hfit) as [final ->].
  by eexists.
Qed.

(** X27. Nothing in the page loop makes the cursor advance.  With a pool
    that executes every write and an upstream that answers every request for
    the gap with a page whose last candle closes more than a millisecond
    before the end of the gap, the loop of a gap that starts before its end
    is still running after any number of pages, and so is [fillGaps] when
    that gap is the first of the series. *)
Theorem fillGaps_spins budget now token timeframe maxCandles w symbol gap rest :
  healthy pool_fault ->
  (forall startTime n,
     exists klines lastKline,
       fetchKlines symbol timeframe (Z.min maxCandles 1000) startTime
         (end_ gap) n = inr klines
       /\ last klines = Some lastKline
       /\ closeTime lastKline + 1 < end_ gap) ->
  symbol_of marketConfig token = Some symbol ->
  gapsOfRows timeframe (select_open_time token timeframe (candlesticks w)) now
  = gap :: rest ->
  start gap < end_ gap ->
  fst (fillGaps pool_fault fetchKlines marketConfig budget now token timeframe
         maxCandles w) = Pending.
Proof.
  intros Hh Hstale Hsymbol Hgaps Hlt.
  assert (Hpages : forall currentStart fs,
    currentStart < end_ gap ->
    fst (fillPages pool_fault fetchKlines budget symbol token timeframe
           maxCandles (end_ gap) currentStart fs) = Pending).
  { induction budget as [|b IH]; intros currentStart fs Hcur.
    - cbn [fillPages]. by destruct (Z.ltb_spec currentStart (end_ gap)); [|lia].
    - destruct (Hstale currentStart (requests (world fs)))
        as (klines & lastKline & Hfetch & Hlast & Hnext).
      rewrite (fillPages_page _ _ _ _ _ _ _ _ _ _ _ _ Hcur Hfetch Hlast).
      rewrite saveAll_healthy by done. by apply IH. }
  unfold fillGaps, fillFound. rewrite Hsymbol. unfold bind.
  rewrite (findDataGaps_executes _ _ _ _ _ (Hh _)), Hgaps.
  rewrite fillEach_cons.
  specialize (Hpages (start gap)
                {| world := next_query w; filled := 0; errs := [] |} Hlt).
  by destruct (fillPages _ _ _ _ _ _ _ _ _ _) as [[[]|e|] fs'].
Qed.

End FillTermination.

Lemma fillGaps_returns_witness :
  exists result,
    fst (fillGaps no_fault limited_upstream MARKET_CONFIG (Z.to_nat 7200000)
           (at_time 6 0) "BTC" "1h" 1000 sparse) = Ok result.
Proof.
  apply (fillGaps_returns no_fault limited_upstream MARKET_CONFIG
           (Z.to_nat 7200000) (at_time 6 0) "BTC" "1h" 1000 sparse "btcusdt").
  - exact limited_upstream_makes_progress.
  - reflexivity.
  - reflexivity.
  - intros g Hg. rewrite Z2Nat.id by lia.
    change (gapsOfRows "1h" (select_open_time "BTC" "1h" (candlesticks sparse))
              (at_time 6 0))
      with [ {| start := at_time 1 0; end_ := at_time 2 0;
                missingIntervals := 2 |};
             {| start := at_time 4 0; end_ := at_time 6 0;
                missingIntervals := 2 |} ] in Hg.
    apply elem_of_cons in Hg as [->|Hg];
      [|apply list_elem_of_singleton in Hg as ->]; vm_compute; discriminate.
Defined.

Lemma fillGaps_spins_witness :
  fst (fillGaps no_fault stale_upstream MARKET_CONFIG 50 (at_time 4 30) "BTC"
         "1h" 1000 wide) = Pending.
Proof.
  apply (fillGaps_spins no_fault stale_upstream MARKET_CONFIG 50 (at_time 4 30)
           "BTC" "1h" 1000 wide "btcusdt"
           {| start := at_time 1 0; end_ := at_time 3 0; missingIntervals := 3 |}
           []).
  - intros n. reflexivity.
  - intros startTime n. exists [hour_candle (at_time 1 0)], (hour_candle (at_time 1 0)).
    split; [reflexivity|]. split; [reflexivity|]. vm_compute. reflexivity.
  - reflexivity.
  - vm_compute. reflexivity.
  - vm_compute. reflexivity.
Defined.

(** ** Backfill: what a failed page leaves of the other gaps *)

Section PageIsolation.

Variable pool_fault : nat -> option string.
Variable fetchKlines :
  string -> string -> Z -> Z -> Z -> nat -> Error + list Candle.
Variable marketConfig : MarketConfig.

Implicit Types (symbol token timeframe : string) (w : World) (fs : FillState).
Implicit Types (gap : Gap) (gaps : list Gap) (budget : nat) (error : Error).
Implicit Types (key : Key) (t : Z).





End PageIsolation.






(** ** The reference price when candles of several timeframes tie *)

Section ReferenceTies.

Implicit Types (token timeframe : string) (tbl : Table) (dayAgo : Z).
Implicit Types (n : nat) (row : Row).

(** X28. The historical query does not determine the reference price when
    candles of several timeframes share the earliest openTime at or after the
    reference time: for each of them there is an order of the database under
    which the query returns its close. *)
Theorem select_close_any_reference n token dayAgo tbl row :
  reference_candle tbl token dayAgo row ->
  exists tie_break,
    select_close tie_break n token dayAgo tbl = Some (r_close row).
Proof.
  intros (f & open_time & Hrow & Hle & Hmin). unfold select_close.
  set (rows := omap _ (map_to_list tbl)).
  assert (Hrows : forall pair, pair ∈ merge_sort earlier rows <->
            exists timeframe row0,
              tbl !! (token, timeframe, fst pair) = Some row0
              /\ dayAgo <= fst pair /\ snd pair = r_close row0).
  { intros pair. rewrite merge_sort_Permutation. apply select_close_rows. }
  pose proof (StronglySorted_merge_sort earlier rows) as Hsorted.
  assert (Hin : (open_time, r_close row) ∈ merge_sort earlier rows)
    by (apply Hrows; by exists f, row).
  destruct (merge_sort earlier rows) as [|first sorted] eqn:E;
    [by apply elem_of_nil in Hin|].
  assert (Hfirst : fst first = open_time).
  { destruct (proj1 (Hrows first)) as (f1 & row1 & Hrow1 & Hle1 & _);
      [by left|].
    pose proof (Hmin f1 (fst first) row1 Hrow1 Hle1) as Hge.
    apply elem_of_cons in Hin as [<-|Hin]; [done|].
    apply StronglySorted_inv in Hsorted as [_ Hall].
    rewrite Forall_forall in Hall. specialize (Hall _ Hin).
    unfold earlier in Hall. cbn [fst] in Hall. lia. }
  assert (Htie : (open_time, r_close row)
                 ∈ filter (fun entry : Z * Z => fst entry = fst first)
                     (first :: sorted))
    by (apply list_elem_of_filter; by split).
  apply list_elem_of_lookup_1 in Htie as [position Hposition].
  exists (fun _ _ => position). by rewrite Hposition.
Qed.

End ReferenceTies.

Lemma select_close_any_reference_witness :
  (exists tie_break,
     select_close tie_break 1 "BTC" (at_time 0 0) (candlesticks mixed)
     = Some 42050)
  /\ (exists tie_break,
        select_close tie_break 1 "BTC" (at_time 0 0) (candlesticks mixed)
        = Some 42300).
Proof.
  split.
  - apply (select_close_any_reference 1 "BTC" (at_time 0 0)
             (candlesticks mixed) (excluded (minute_candle (at_time 0 0)))).
    exists "5m", (at_time 0 0). split; [vm_compute; reflexivity|].
    split; [lia|]. intros timeframe' open_time' row' _ Hle. exact Hle.
  - apply (select_close_any_reference 1 "BTC" (at_time 0 0)
             (candlesticks mixed) (excluded (hour_candle (at_time 0 0)))).
    exists "1h", (at_time 0 0). split; [vm_compute; reflexivity|].
    split; [lia|]. intros timeframe' open_time' row' _ Hle. exact Hle.
Defined.
